(** * brains4.c: the brains interpreter

    A shallow embedding of the compiler ([getNext], [backFill], [recCompile],
    [Compile]), of the control blocks and schedulers ([createThread],
    [createProcess], [schedule], [getNextThread], [checkSemaphores]) and of the
    quantum evaluator ([doQuanta], [execute]) of brains4.c, built without
    INFANTICIDE (the default build), followed by the properties of the
    execution core and of the compiler.

    Conventions of the embedding:
    - a C [int] is a [Z]; [>>], [&] and [|] are [Z.shiftr], [Z.land] and
      [Z.lor]; where the compiler shifts a length or a distance into the
      high bits of a word, [v << SHIFT], the 32 bits of the [int] are
      written out ([shl]): what does not fit wraps round;
    - instruction memory has [IMEM] words: a turn of the compiler that
      would store outside of it is a [Fault];
    - an [int *] into [Gimem] is the index it points at, a possibly NULL
      [int *] is an [option Z]; a slot of the call stack is an index too,
      also where it still holds what [malloc] left there, which need not
      point into [Gimem]: what the C code does when it pops such a slot is
      not part of the model;
    - a [char *] to a data segment is the address of the segment in the
      store [segs]; the system memory [Gsmem] lives at address [Gsmem];
    - a [struct PCB *] is the address of the block in the store [pcbs];
      the intrusive [next] links are the lists that hold the blocks;
    - [malloc] answers from the list [heap] carried by the machine: either
      no memory, or a block whose bytes are whatever the answer says;
    - where the C code walks a pointer that it has never set and that is
      not NULL, the model stops: [createProcess] has no result and
      [dispatch] is [Undefined]. *)

From stdpp Require Import gmap list.
From Stdlib Require Import ZArith Lia.
From Stdlib Require Strings.String.
Import Strings.String.StringSyntax.

Local Open Scope Z_scope.

(** ** Constants of the C file *)

Definition DEFAULTQUANTA : Z := 10.
Definition DMEM : Z := 65536.
Definition DMASK : Z := DMEM - 1.
Definition IMEM : Z := 16777216.
Definition IMASK : Z := 255.
Definition SHIFT : Z := 8.
Definition SCHEDULE_PROCESS : Z := 1.
Definition SCHEDULE_THREAD : Z := 2.
Definition NOPROC : Z := -1.
Definition NUMPROC : Z := 62.
Definition STACKSIZE : Z := 1024.
Definition GOOD : Z := 0.
Definition BAD : Z := -2.
Definition EOF : Z := -1.

(** What the C standard leaves to the implementation and the program
    depends on: whether plain [char] is signed, and the sizes of [int] and
    of a pointer to [int]. *)
Class Platform := {
  char_signed : bool;
  sizeof_int : Z;
  sizeof_ptr : Z
}.

Definition ILP32 (signed : bool) : Platform :=
  {| char_signed := signed; sizeof_int := 4; sizeof_ptr := 4 |}.
Definition LP64 (signed : bool) : Platform :=
  {| char_signed := signed; sizeof_int := 4; sizeof_ptr := 8 |}.

(** ** Control blocks *)

Record TCB := mkTCB {
  par : nat;                 (* Parent Process *)
  procs : list (option Z);   (* Procedure List *)
  pc : Z;                    (* Program Counter *)
  dp : Z;                    (* Data Pointer *)
  cmem : nat;                (* Current Memory segment *)
  stack : list Z;            (* Call Stack *)
  sp : Z                     (* Stack Pointer *)
}.

Record PCB := mkPCB {
  readyList : list TCB;      (* Ready Threads for this Process *)
  pmem : option nat;         (* Parent's data Memory segment *)
  dmem : nat;                (* My Data Memory segment *)
  threads : Z
}.

(** What is written on stdout: a byte of [fputc], or the dump of [#]. *)
Inductive event :=
  | PutC (c : Z)
  | Dump (at_pc at_dp ticks : Z) (data : list Z).

(** What is written on stderr. *)
Inductive diag :=
  | NoMemForCall
  | NoMemForProcess.

(** An answer of [malloc]: NULL, or a block; [junk_procs] and [junk_stack]
    are the bytes found in a fresh TCB where its two arrays lie,
    [junk_ready] tells whether the bytes found in a fresh PCB where its
    field [readyList] lies are a pointer other than NULL. *)
Inductive alloc :=
  | NoMem
  | Block (junk_procs : list (option Z)) (junk_stack : list Z)
          (junk_ready : bool).

(** The global data of the C file, with the streams and the heap. *)
Record Machine := mkMachine {
  pcbs : gmap nat PCB;           (* the PCBs that are allocated *)
  segs : gmap nat (list Z);      (* Gsmem and the dmem blocks allocated *)
  pListHead : list nat;
  tListHead : list TCB;          (* Only used in per-thread scheduling *)
  dpListHead : list nat;
  sListHead : list TCB;
  Gimem : gmap Z Z;              (* Global Instruction Memory *)
  scheduler : Z;
  lp : option nat;               (* the static of getNextThread *)
  useIn : list Z;                (* bytes still to be read by fgetc(useIn) *)
  out : list event;
  err : list diag;
  heap : list alloc;             (* answers of the coming mallocs *)
  rands : list Z                 (* answers of the coming rand()s *)
}.

Definition Gsmem : nat := 0%nat.

Definition set_pc (v : Z) (t : TCB) : TCB :=
  mkTCB (par t) (procs t) v (dp t) (cmem t) (stack t) (sp t).
Definition set_dp (v : Z) (t : TCB) : TCB :=
  mkTCB (par t) (procs t) (pc t) v (cmem t) (stack t) (sp t).
Definition set_cmem (v : nat) (t : TCB) : TCB :=
  mkTCB (par t) (procs t) (pc t) (dp t) v (stack t) (sp t).
Definition set_procs (v : list (option Z)) (t : TCB) : TCB :=
  mkTCB (par t) v (pc t) (dp t) (cmem t) (stack t) (sp t).
Definition set_stack (v : list Z) (t : TCB) : TCB :=
  mkTCB (par t) (procs t) (pc t) (dp t) (cmem t) v (sp t).
Definition set_sp (v : Z) (t : TCB) : TCB :=
  mkTCB (par t) (procs t) (pc t) (dp t) (cmem t) (stack t) v.

Definition set_readyList (v : list TCB) (p : PCB) : PCB :=
  mkPCB v (pmem p) (dmem p) (threads p).
Definition set_threads (v : Z) (p : PCB) : PCB :=
  mkPCB (readyList p) (pmem p) (dmem p) v.

Definition set_pcbs (v : gmap nat PCB) (m : Machine) : Machine :=
  mkMachine v (segs m) (pListHead m) (tListHead m) (dpListHead m)
    (sListHead m) (Gimem m) (scheduler m) (lp m) (useIn m) (out m) (err m)
    (heap m) (rands m).
Definition set_segs (v : gmap nat (list Z)) (m : Machine) : Machine :=
  mkMachine (pcbs m) v (pListHead m) (tListHead m) (dpListHead m)
    (sListHead m) (Gimem m) (scheduler m) (lp m) (useIn m) (out m) (err m)
    (heap m) (rands m).
Definition set_pList (v : list nat) (m : Machine) : Machine :=
  mkMachine (pcbs m) (segs m) v (tListHead m) (dpListHead m)
    (sListHead m) (Gimem m) (scheduler m) (lp m) (useIn m) (out m) (err m)
    (heap m) (rands m).
Definition set_tList (v : list TCB) (m : Machine) : Machine :=
  mkMachine (pcbs m) (segs m) (pListHead m) v (dpListHead m)
    (sListHead m) (Gimem m) (scheduler m) (lp m) (useIn m) (out m) (err m)
    (heap m) (rands m).
Definition set_dpList (v : list nat) (m : Machine) : Machine :=
  mkMachine (pcbs m) (segs m) (pListHead m) (tListHead m) v
    (sListHead m) (Gimem m) (scheduler m) (lp m) (useIn m) (out m) (err m)
    (heap m) (rands m).
Definition set_sList (v : list TCB) (m : Machine) : Machine :=
  mkMachine (pcbs m) (segs m) (pListHead m) (tListHead m) (dpListHead m)
    v (Gimem m) (scheduler m) (lp m) (useIn m) (out m) (err m)
    (heap m) (rands m).
Definition set_Gimem (v : gmap Z Z) (m : Machine) : Machine :=
  mkMachine (pcbs m) (segs m) (pListHead m) (tListHead m) (dpListHead m)
    (sListHead m) v (scheduler m) (lp m) (useIn m) (out m) (err m)
    (heap m) (rands m).
Definition set_lp (v : option nat) (m : Machine) : Machine :=
  mkMachine (pcbs m) (segs m) (pListHead m) (tListHead m) (dpListHead m)
    (sListHead m) (Gimem m) (scheduler m) v (useIn m) (out m) (err m)
    (heap m) (rands m).
Definition set_useIn (v : list Z) (m : Machine) : Machine :=
  mkMachine (pcbs m) (segs m) (pListHead m) (tListHead m) (dpListHead m)
    (sListHead m) (Gimem m) (scheduler m) (lp m) v (out m) (err m)
    (heap m) (rands m).
Definition set_out (v : list event) (m : Machine) : Machine :=
  mkMachine (pcbs m) (segs m) (pListHead m) (tListHead m) (dpListHead m)
    (sListHead m) (Gimem m) (scheduler m) (lp m) (useIn m) v (err m)
    (heap m) (rands m).
Definition set_err (v : list diag) (m : Machine) : Machine :=
  mkMachine (pcbs m) (segs m) (pListHead m) (tListHead m) (dpListHead m)
    (sListHead m) (Gimem m) (scheduler m) (lp m) (useIn m) (out m) v
    (heap m) (rands m).
Definition set_heap (v : list alloc) (m : Machine) : Machine :=
  mkMachine (pcbs m) (segs m) (pListHead m) (tListHead m) (dpListHead m)
    (sListHead m) (Gimem m) (scheduler m) (lp m) (useIn m) (out m) (err m)
    v (rands m).
Definition set_rands (v : list Z) (m : Machine) : Machine :=
  mkMachine (pcbs m) (segs m) (pListHead m) (tListHead m) (dpListHead m)
    (sListHead m) (Gimem m) (scheduler m) (lp m) (useIn m) (out m) (err m)
    (heap m) v.

(** ** Memory *)

(** [mimem[i]]: instruction memory is a zero-initialised global. *)
Definition word (im : gmap Z Z) (i : Z) : Z := default 0 (im !! i).

(** [mem[i]] and [mem[i] = v] on one data segment. *)
Definition peek (mem : list Z) (i : Z) : Z :=
  if decide (0 <= i) then default 0 (mem !! Z.to_nat i) else 0.
Definition poke (mem : list Z) (i v : Z) : list Z :=
  if decide (0 <= i) then <[Z.to_nat i := v]> mem else mem.

(** A segment of [DMEM] zero bytes. *)
Definition zeroed : list Z := replicate (Z.to_nat DMEM) 0.
Global Opaque zeroed.

(** [seg[i]] and [seg[i] = v] through a segment pointer. *)
Definition cell (m : Machine) (seg : nat) (i : Z) : Z :=
  match segs m !! seg with Some mem => peek mem i | None => 0 end.
Definition set_cell (seg : nat) (i v : Z) (m : Machine) : Machine :=
  set_segs (alter (fun mem => poke mem i v) seg (segs m)) m.

(** ** Small functions *)

(** Given a character, returns its procedure number. *)
Definition procNum (a : Z) : Z :=
  if (48 <=? a) && (a <=? 57) then a - 48
  else if (65 <=? a) && (a <=? 90) then a - 65 + 10
  else if (97 <=? a) && (a <=? 122) then a - 97 + 36
  else NOPROC.

(** [a[i]] and [a[i] = v] on the two arrays of a TCB. *)
Definition proc_at (t : TCB) (i : Z) : option Z :=
  if decide (0 <= i) then default None (procs t !! Z.to_nat i) else None.
Definition stack_at (t : TCB) (i : Z) : Z :=
  if decide (0 <= i) then default 0 (stack t !! Z.to_nat i) else 0.

Section Runtime.
Context {P : Platform}.

(** Conversion of an [int] to [char]: the low eight bits, read back as the
    platform reads a plain [char]. *)
Definition to_char (z : Z) : Z :=
  if char_signed then (z + 128) mod 256 - 128 else z mod 256.

(** [memcpy(dst, src, nbytes)] between two arrays of pointers: the leading
    [nbytes / sizeof_ptr] entries of [dst] become those of [src]. *)
Definition memcpy_ptrs {A} (dst src : list A) (nbytes : Z) : list A :=
  take (Z.to_nat (nbytes / sizeof_ptr)) src ++
  drop (Z.to_nat (nbytes / sizeof_ptr)) dst.

(** [malloc]: the next answer of the heap; a heap with no answer left
    hands out zeroed blocks. *)
Definition malloc (m : Machine) : alloc * Machine :=
  match heap m with
  | [] => (Block [] [] false, m)
  | a :: h => (a, set_heap h m)
  end.

(** Schedules a thread to run. *)
Definition schedule (me : TCB) (m : Machine) : Machine :=
  if scheduler m =? SCHEDULE_PROCESS then
    set_pcbs (alter (fun p => set_readyList (readyList p ++ [me]) p)
                    (par me) (pcbs m)) m
  else
    set_tList (tListHead m ++ [me]) m.

(** Creates a thread and schedules it; returns [c == NULL]. *)
Definition createThread (npar : nat) (pr : option (list (option Z)))
    (npc ndp : Z) (ncmem : nat) (ns : option (list Z)) (nsp : Z)
    (m : Machine) : Z * Machine :=
  match malloc m with
  | (NoMem, m1) => (1, m1)
  | (Block jp js _, m1) =>
      let m2 :=
        set_pcbs (alter (fun p => set_threads (threads p + 1) p) npar
                        (pcbs m1)) m1 in
      let c_procs := resize (Z.to_nat NUMPROC) None jp in
      let c_stack := resize (Z.to_nat STACKSIZE) 0 js in
      let c :=
        {| par := npar;
           procs := match pr with
                    | None => replicate (Z.to_nat NUMPROC) None
                    | Some p => memcpy_ptrs c_procs p (NUMPROC * sizeof_int)
                    end;
           pc := npc;
           dp := ndp;
           cmem := ncmem;
           stack := match ns with
                    | None => c_stack
                    | Some s => memcpy_ptrs c_stack s (STACKSIZE * sizeof_int)
                    end;
           sp := nsp |} in
      (0, schedule c m2)
  end.

(** Creates a process, creates its thread, and adds it to the process list
    only if both succeeded.  Returns 0 on success and 1 on failure.

    The C code never stores to [readyList] of the fresh PCB: the field
    holds what [malloc] left there.  Under the process scheduler the
    [schedule] of [createThread] walks it with [appendList]; when it is
    not NULL the walk goes through memory that holds no list, and there is
    no result ([None]).  Under the thread scheduler no function of the
    model reads the field (the teardown at the end of [main], which does,
    is not part of it): its value in the model, the empty list, then
    stands for bytes that are never looked at. *)
Definition createProcess (copymem : nat) (npmem : option nat)
    (nprocs : option (list (option Z))) (npc ndp : Z)
    (ns : option (list Z)) (nsp : Z) (m : Machine) : option (Z * Machine) :=
  match malloc m with
  | (NoMem, m1) => Some (1, m1)
  | (Block _ _ junk, m1) =>
      let c := fresh (dom (pcbs m1)) in
      let m1 := set_pcbs (<[c := mkPCB [] npmem 0%nat 0]> (pcbs m1)) m1 in
      match malloc m1 with
      | (NoMem, m2) =>
          Some (1, set_pcbs (delete c (pcbs m2)) m2)
      | (Block _ _ _, m2) =>
          let d := fresh (dom (segs m2)) in
          let m3 :=
            set_pcbs (<[c := mkPCB [] npmem d 0]> (pcbs m2))
              (set_segs (<[d := []]> (segs m2)) m2) in
          match createThread c nprocs npc ndp d ns nsp m3 with
          | (0, m4) =>
              if junk && (scheduler m =? SCHEDULE_PROCESS) then None
              else
                let m5 :=
                  set_segs (<[d := default [] (segs m4 !! copymem)]> (segs m4))
                           m4 in
                Some (0, set_pList (pListHead m5 ++ [c]) m5)
          | (_, m4) =>
              Some (1, set_pcbs (delete c (pcbs m4))
                         (set_segs (delete d (segs m4)) m4))
          end
      end
  end.

(** The walk of [checkSemaphores]: the first thread of the list that sleeps
    on cell [ptr] of segment [mem], and the list without it. *)
Fixpoint firstWaiter (mem : nat) (ptr : Z) (l : list TCB)
    : option (TCB * list TCB) :=
  match l with
  | [] => None
  | this :: rest =>
      if (dp this =? ptr) && (cmem this =? mem)%nat then Some (this, rest)
      else match firstWaiter mem ptr rest with
           | Some (t, rest') => Some (t, this :: rest')
           | None => None
           end
  end.

(** Searches the list of threads waiting on semaphores to see if the
    increment was on their semaphore. *)
Definition checkSemaphores (mem : nat) (ptr : Z) (m : Machine) : Machine :=
  match firstWaiter mem ptr (sListHead m) with
  | Some (this, rest) => schedule this (set_sList rest m)
  | None => m
  end.

(** [while (count--) if (sListHead != NULL) checkSemaphores(mem, ptr);] *)
Fixpoint wakeLoop (count : nat) (mem : nat) (ptr : Z) (m : Machine)
    : Machine :=
  match count with
  | O => m
  | S count' =>
      wakeLoop count' mem ptr
        (match sListHead m with
         | [] => m
         | _ :: _ => checkSemaphores mem ptr m
         end)
  end.

(** [while (count--) { curc = fgetc(useIn); if (curc != EOF) cell = curc; }]:
    the input left and the last byte read, if any. *)
Fixpoint readLoop (count : nat) (inp : list Z) (last : option Z)
    : list Z * option Z :=
  match count with
  | O => (inp, last)
  | S count' =>
      match inp with
      | [] => readLoop count' [] last
      | b :: inp' => readLoop count' inp' (Some b)
      end
  end.

(** The [pmem] and [dmem] of the process of a thread. *)
Definition par_pmem (me : TCB) (m : Machine) : option nat :=
  match pcbs m !! par me with Some p => pmem p | None => None end.
Definition par_dmem (me : TCB) (m : Machine) : option nat :=
  match pcbs m !! par me with Some p => Some (dmem p) | None => None end.

(** One turn of the loop of [doQuanta] ends in the [break] of its case,
    with the cost that [quanta -= cost] will charge, or in a [return]; or
    it does not end as the C standard defines, in the state given. *)
Inductive outcome :=
  | Continue (me : TCB) (cost : Z) (m : Machine)
  | Return (code : Z) (me : TCB) (m : Machine)
  | Undefined (me : TCB) (m : Machine).

(** The body of the loop of [doQuanta]: fetch, advance, dispatch. *)
Definition dispatch (me0 : TCB) (cost quanta : Z) (m : Machine) : outcome :=
  let curc := word (Gimem m) (pc me0) in
  let me := set_pc (pc me0 + 1) me0 in
  let imm := Z.shiftr curc SHIFT in
  let here := cell m (cmem me) (dp me) in
  match Z.land curc IMASK with
  | 43 (* + *) =>
      Continue me cost (set_cell (cmem me) (dp me) (to_char (here + imm)) m)
  | 45 (* - *) =>
      Continue me cost (set_cell (cmem me) (dp me) (to_char (here - imm)) m)
  | 62 (* > *) =>
      Continue (set_dp (Z.land (dp me + imm) DMASK) me) cost m
  | 60 (* < *) =>
      Continue (set_dp (Z.land (dp me - imm) DMASK) me) cost m
  | 46 (* . *) =>
      Continue me cost
        (set_out (out m ++ replicate (Z.to_nat imm) (PutC (here mod 256))) m)
  | 44 (* , *) =>
      let '(inp, last) := readLoop (Z.to_nat imm) (useIn m) None in
      let m1 := set_useIn inp m in
      Continue me cost
        (match last with
         | Some b => set_cell (cmem me) (dp me) (to_char b) m1
         | None => m1
         end)
  | 91 (* [ *) | 40 (* ( *) =>
      Continue (if here =? 0 then set_pc (pc me + imm) me else me) cost m
  | 125 (* } *) =>
      Continue (if here =? 0 then set_pc (pc me - imm) me else me) cost m
  | 93 (* ] *) =>
      Continue (if here =? 0 then me else set_pc (pc me - imm) me) cost m
  | 123 (* { *) =>
      Continue (if here =? 0 then me else set_pc (pc me + imm) me) cost m
  | 58 (* : *) =>
      let count := procNum (to_char (word (Gimem m) (pc me))) in
      let me1 :=
        if count =? NOPROC then me
        else set_procs (<[Z.to_nat count := Some (pc me + 1)]> (procs me)) me in
      Continue (set_pc (pc me1 + imm) me1) cost m
  | 124 (* | *) =>
      Continue (set_pc (pc me + imm) me) cost m
  | 38 (* & *) =>
      let m1 := set_cell (cmem me) (dp me) 0 m in
      let m2 := set_cell (cmem me) (Z.land (dp me + 1) DMASK) 1 m1 in
      match createThread (par me) (Some (procs me)) (pc me)
                         (Z.land (dp me + 1) DMASK) (cmem me)
                         (Some (stack me)) (sp me) m2 with
      | (0, m3) => Continue me cost m3
      | (_, m3) =>
          Continue me cost (set_cell (cmem me) (Z.land (dp me + 1) DMASK) 0 m3)
      end
  | 37 (* % *) =>
      let m1 := set_cell (cmem me) (dp me) 0 m in
      let m2 := set_cell (cmem me) (Z.land (dp me + 1) DMASK) 1 m1 in
      match createProcess (cmem me) (par_dmem me m2) (Some (procs me)) (pc me)
                          (Z.land (dp me + 1) DMASK) (Some (stack me))
                          (sp me) m2 with
      | Some (0, m3) => Continue me cost m3
      | Some (_, m3) =>
          Continue me cost (set_cell (cmem me) (Z.land (dp me + 1) DMASK) 0 m3)
      | None => Undefined me m2
      end
  | 94 (* ^ *) =>
      let m1 := set_cell (cmem me) (dp me) (to_char (here + imm)) m in
      Continue me cost (wakeLoop (Z.to_nat imm) (cmem me) (dp me) m1)
  | 95 (* _ *) =>
      if here <? imm then Return 2 (set_pc (pc me - 1) me) m
      else Continue me cost
             (set_cell (cmem me) (dp me) (to_char (here - imm)) m)
  | 42 (* * *) => Return 0 me m
  | 64 (* @ *) => Return 1 me m
  | 41 (* ) *) => Continue me cost m
  | 61 (* = *) => Continue me imm m
  | 34 (* the double quote *) =>
      Continue me cost (set_cell (cmem me) (dp me) 0 m)
  | 126 (* ~ *) =>
      match pcbs m !! par me with
      | Some p =>
          if decide (Some (cmem me) = pmem p) then
            Continue (set_cmem (dmem p) me) cost m
          else match pmem p with
               | Some pm => Continue (set_cmem pm me) cost m
               | None => Continue me cost m
               end
      | None => Continue me cost m
      end
  | 59 (* ; *) =>
      if sp me =? STACKSIZE then Return 1 me m
      else Continue (set_sp (sp me + 1) (set_pc (stack_at me (sp me)) me))
                    cost m
  | 35 (* # *) =>
      Continue me 0
        (set_out
           (out m ++
            [Dump (pc me) (dp me) quanta
               (map (fun k => cell m (cmem me) (Z.land (dp me + k) DMASK))
                    (seqZ 0 16))]) m)
  | _ =>
      let num := procNum (to_char curc) in
      match (if num =? NOPROC then None else proc_at me num) with
      | Some body =>
          let next := word (Gimem m) (pc me) in
          if (next =? 59) || (next =? 36) then
            Continue (set_pc body me) cost m
          else if sp me =? 0 then
            Continue me cost (set_err (err m ++ [NoMemForCall]) m)
          else
            Continue
              (set_pc body
                 (set_sp (sp me - 1)
                    (set_stack (<[Z.to_nat (sp me - 1) := pc me]> (stack me))
                               me)))
              cost m
      | None => Continue me 0 m
      end
  end.

(** Execute a quanta of instructions: 0 Normal, 1 Die, 2 Sleep.  The loop
    [while (forever || (quanta > 0))] takes one unit of [fuel] a turn;
    there is no result when the fuel runs out or a turn is [Undefined]. *)
Fixpoint doQuanta_loop (fuel : nat) (forever : bool) (me : TCB)
    (cost quanta : Z) (m : Machine) : option (Z * TCB * Machine) :=
  match fuel with
  | O => None
  | S fuel' =>
      if forever || (0 <? quanta) then
        match dispatch me cost quanta m with
        | Continue me' cost' m' =>
            doQuanta_loop fuel' forever me' cost' (quanta - cost') m'
        | Return code me' m' => Some (code, me', m')
        | Undefined _ _ => None
        end
      else Some (0, me, m)
  end.

Definition doQuanta (fuel : nat) (me : TCB) (quanta : Z) (m : Machine)
    : option (Z * TCB * Machine) :=
  doQuanta_loop fuel (quanta =? 0) me 1 quanta m.

End Runtime.

(** ** Schedulers *)

Definition ready_of (m : Machine) (c : nat) : list TCB :=
  match pcbs m !! c with Some p => readyList p | None => [] end.

(** Returns 1 if there are no threads that can be run. *)
Definition deadLocked (m : Machine) : bool :=
  forallb (fun c => match ready_of m c with [] => true | _ :: _ => false end)
          (pListHead m).

(** The walk [while (cur != me)] of [makeDead] and the unlinking of [me]. *)
Fixpoint unlink (me : nat) (l : list nat) : list nat :=
  match l with
  | [] => []
  | cur :: rest => if (cur =? me)%nat then rest else cur :: unlink me rest
  end.

(** Kill a process who has no more threads. *)
Definition makeDead (me : nat) (m : Machine) : Machine :=
  if scheduler m =? SCHEDULE_THREAD then
    set_dpList (dpListHead m ++ [me]) (set_pList (unlink me (pListHead m)) m)
  else m.

(** The loop [while (1)] of [getNextThread]: processes with nothing ready
    go to the back of the list; the first one with a ready thread is taken
    off it.  The loop is entered when some process has a ready thread, so
    it ends within one round of the list. *)
Fixpoint firstReady (round : nat) (m : Machine) : option nat * Machine :=
  match round with
  | O => (None, m)
  | S round' =>
      match pListHead m with
      | [] => (None, m)
      | a :: rest =>
          match ready_of m a with
          | [] => firstReady round' (set_pList (rest ++ [a]) m)
          | _ :: _ => (Some a, set_pList rest m)
          end
      end
  end.

(** Get the next scheduled thread. *)
Definition getNextThread (m : Machine) : option TCB * Machine :=
  if scheduler m =? SCHEDULE_PROCESS then
    let m1 :=
      match lp m with
      | Some l =>
          if match pcbs m !! l with Some p => threads p =? 0 | None => false end
          then set_dpList (dpListHead m ++ [l]) m
          else set_pList (pListHead m ++ [l]) m
      | None => m
      end in
    if deadLocked m1 then (None, m1)
    else
      match firstReady (length (pListHead m1)) m1 with
      | (Some a, m2) =>
          match ready_of m2 a with
          | b :: rest =>
              (Some b,
               set_lp (Some a)
                 (set_pcbs (alter (set_readyList rest) a (pcbs m2)) m2))
          | [] => (None, set_lp (Some a) m2)
          end
      | (None, m2) => (None, m2)
      end
  else
    match tListHead m with
    | [] => (None, m)
    | b :: rest => (Some b, set_tList rest m)
    end.

Section Execute.
Context {P : Platform}.

(** [rand()]. *)
Definition rand (m : Machine) : Z * Machine :=
  match rands m with
  | [] => (0, m)
  | r :: rs => (r, set_rands rs m)
  end.

(** The [switch (c)] of [execute] on what [doQuanta] returned. *)
Definition afterQuanta (c : Z) (curt : TCB) (m : Machine) : Machine :=
  match c with
  | 0 => schedule curt m
  | 1 =>
      let m1 :=
        set_pcbs (alter (fun p => set_threads (threads p - 1) p) (par curt)
                        (pcbs m)) m in
      if match pcbs m1 !! par curt with
         | Some p => threads p =? 0
         | None => false
         end
      then makeDead (par curt) m1
      else m1
  | 2 => set_sList (sListHead m ++ [curt]) m
  | _ => m
  end.

(** The tick budget of one turn. *)
Definition turnQuanta (quanta : Z) (m : Machine) : Z * Machine :=
  if quanta <? 0 then
    let '(r, m1) := rand m in (Z.land r 127 + 1, m1)
  else (quanta, m).

(** Execute the current state.  [fuel] bounds the turns of the loop and
    the instructions of each turn. *)
Fixpoint execute_loop (fuel : nat) (quanta : Z) (curt : option TCB)
    (m : Machine) : option Machine :=
  match curt with
  | None => Some m
  | Some t =>
      match fuel with
      | O => None
      | S fuel' =>
          let '(c, m1) := turnQuanta quanta m in
          match doQuanta fuel' t c m1 with
          | None => None
          | Some (code, t', m2) =>
              let '(next, m3) := getNextThread (afterQuanta code t' m2) in
              execute_loop fuel' quanta next m3
          end
      end
  end.

Definition execute (fuel : nat) (quanta : Z) (m : Machine) : option Machine :=
  let '(curt, m1) := getNextThread m in
  execute_loop fuel quanta curt m1.

End Execute.

(** ** The compiler *)

(** The source stream: the bytes not yet read, the end-of-file indicator,
    and the static [done] of [getNext]. *)
Record FILE := mkFILE {
  bytes : list Z;
  at_eof : bool;
  getNext_done : Z
}.

Definition fopen (src : list Z) : FILE := mkFILE src false BAD.
Definition feof (f : FILE) : bool := at_eof f.

(** The characters of the [switch] of [getNext]. *)
Definition recognized (c : Z) : bool :=
  match c with
  | 43 | 45 | 60 | 62 | 46 | 44       (* + - < > . , *)
  | 91 | 93 | 123 | 125 | 40 | 124    (* [ ] { } ( | *)
  | 41 | 58 | 59 | 36 | 96 | 39       (* ) : ; $ ` ' *)
  | 94 | 95 | 37 | 38 | 35 | 126      (* ^ _ % & # ~ *)
  | 42 | 64 | 61 | 33 => true         (* * @ = ! *)
  | _ => ((48 <=? c) && (c <=? 57)) || ((65 <=? c) && (c <=? 90))
         || ((97 <=? c) && (c <=? 122))
  end.

(** The loop [while (v == BAD)] of [getNext] over the bytes to come: the
    first recognized one and what follows it, or [EOF]. *)
Fixpoint skipCrap (bs : list Z) : Z * list Z :=
  match bs with
  | [] => (EOF, [])
  | c :: rest => if recognized c then (c, rest) else skipCrap rest
  end.

(** A getc hack for this program.  It filters out the crap. *)
Definition getNext (f : FILE) : Z * FILE :=
  if getNext_done f =? GOOD then (EOF, f)
  else
    let '(c, rest) := skipCrap (bytes f) in
    if c =? EOF then (EOF, mkFILE rest true GOOD)
    else (c, mkFILE rest (at_eof f) (getNext_done f)).

(** An ungetc wrapper. *)
Definition unGetNext (c : Z) (f : FILE) : FILE :=
  if c =? EOF then f else mkFILE (c :: bytes f) false (getNext_done f).

(** [strchr("+-><^_,.~=", cc) != NULL] *)
Definition repeatable (cc : Z) : bool :=
  match cc with
  | 43 | 45 | 62 | 60 | 94 | 95 | 44 | 46 | 126 | 61 => true
  | _ => false
  end.

(** [while (np == cc) { rl++; np = getNext(fin); }]; a turn of the loop
    reads a byte, so the bytes to come bound its turns. *)
Fixpoint runLoop (turns : nat) (cc rl np : Z) (f : FILE) : Z * Z * FILE :=
  match turns with
  | O => (rl, np, f)
  | S turns' =>
      if np =? cc then
        let '(np', f') := getNext f in runLoop turns' cc (rl + 1) np' f'
      else (rl, np, f)
  end.

(** The run length of [cc] and the stream after it. *)
Definition runLength (cc : Z) (f : FILE) : Z * FILE :=
  if repeatable cc then
    let '(np, f1) := getNext f in
    let '(rl, np', f2) := runLoop (S (length (bytes f1))) cc 1 np f1 in
    (rl, unGetNext np' f2)
  else (0, f).

(** A C [int]: 32 bits, two's complement. *)
Definition int32 (z : Z) : Z := (z + 2147483648) mod 4294967296 - 2147483648.

(** [v << SHIFT] on [int]: the bits that leave the 32 are lost. *)
Definition shl (v : Z) : Z := int32 (Z.shiftl v SHIFT).

(** backFills break and continue statements. *)
Fixpoint backFill_loop (turns : nat) (mimem : gmap Z Z) (start end_ : Z)
    : gmap Z Z :=
  match turns with
  | O => mimem
  | S turns' =>
      if start <? end_ then
        backFill_loop turns'
          (if word mimem start =? 39 then
             <[start := Z.lor 124 (shl (end_ - start - 1))]> mimem
           else if word mimem start =? 96 then
             <[start := Z.lor 124 (shl (end_ - start - 2))]> mimem
           else mimem)
          (start + 1) end_
      else mimem
  end.

Definition backFill (mimem : gmap Z Z) (start end_ : Z) : gmap Z Z :=
  backFill_loop (Z.to_nat (end_ - start)) mimem start end_.

(** How a run of the compiler ends: with a value, out of the fuel of the
    model, or in what the C standard leaves undefined: a store through a
    NULL pointer or outside of instruction memory, a walk of a list that
    was never set. *)
Inductive run (A : Type) :=
  | Value (a : A)
  | Fuel
  | Fault.
Arguments Value {A} a.
Arguments Fuel {A}.
Arguments Fault {A}.

(** The locals of one activation of [recCompile], with the memory and the
    stream it works on; [pi] holds the [bf] of the caller it points at. *)
Record frame := mkFrame {
  mimem : gmap Z Z;
  fin : FILE;
  op : Z;
  cp : Z;
  ll : Z;
  pi : option Z;
  bf : Z
}.

(** The frame on entry of [recCompile (mimem, fin, cp, ll, pi)]. *)
Definition enter (im : gmap Z Z) (f : FILE) (c l : Z) (p : option Z)
    : frame :=
  mkFrame im f (c - 1) c l p 0.

(** [mimem[i] |= v << SHIFT] *)
Definition orImm (im : gmap Z Z) (i v : Z) : gmap Z Z :=
  <[i := Z.lor (word im i) (shl v)]> im.

(** A turn of the loop of [recCompile] goes on with the next turn or
    returns. *)
Inductive turn :=
  | Next (s : frame)
  | Ret (np : Z) (s : frame).

(** The body of [while (1)] in [recCompile]; [rec] is [recCompile]
    itself, for the nested constructs. *)
Definition recBody (rec : frame -> run (Z * frame)) (s : frame) : run turn :=
  let '(cc, f1) := getNext (fin s) in
  let '(rl, f2) := runLength cc f1 in
  let im := <[cp s := Z.lor cc (shl rl)]> (mimem s) in
  let c := cp s + 1 in
  let s1 := mkFrame im f2 (op s) c (ll s) (pi s) (bf s) in
  let goes im' f' op' cp' bf' :=
    Value (Next (mkFrame im' f' op' cp' (ll s) (pi s) bf')) in
  let gives np im' f' :=
    Value (Ret np (mkFrame im' f' (op s) c (ll s) (pi s) (bf s))) in
  match cc with
  | 126 (* ~ *) =>
      goes im f2 (op s) (if Z.land rl 1 =? 0 then c - 1 else c) (bf s)
  | 36 (* $ *) =>
      goes (<[c - 1 := 59]> im) f2 (op s) c (bf s)
  | 91 (* [ *) =>
      match rec (enter im f2 c c None) with
      | Value (np, r) =>
          if np =? BAD then gives BAD (mimem r) (fin r)
          else
            let im1 := orImm (mimem r) (c - 1) (np - c) in
            let im2 := orImm im1 (np - 1) (np - c) in
            if (c =? 1) || (Z.land (word im2 (c - 2)) IMASK =? 93)
               || (word im2 (c - 2) =? 34) || (word im2 (c - 2) =? 64)
            then goes im2 (fin r) (op s) (c - 1) (bf s)
            else if (c + 2 =? np)
                    && (word im2 c =? Z.lor 45 (Z.shiftl 1 SHIFT))
            then goes (<[c - 1 := 34]> im2) (fin r) (op s) c (bf s)
            else goes im2 (fin r) (op s) np (bf s)
      | Fuel => Fuel
      | Fault => Fault
      end
  | 123 (* { *) =>
      match rec (enter im f2 c c None) with
      | Value (np, r) =>
          if np =? BAD then gives BAD (mimem r) (fin r)
          else
            let im1 := orImm (mimem r) (c - 1) (np - c) in
            let im2 := orImm im1 (np - 1) (np - c) in
            if negb (c =? 1) && (Z.land (word im2 (c - 2)) IMASK =? 125)
            then goes im2 (fin r) (op s) (c - 1) (bf s)
            else goes im2 (fin r) (op s) np (bf s)
      | Fuel => Fuel
      | Fault => Fault
      end
  | 40 (* ( *) =>
      match rec (enter im f2 c (ll s) (Some (bf s))) with
      | Value (np, r) =>
          if np =? BAD then gives BAD (mimem r) (fin r)
          else goes (mimem r) (fin r) (op s) np (default (bf s) (pi r))
      | Fuel => Fuel
      | Fault => Fault
      end
  | 58 (* : *) =>
      match rec (enter im f2 c BAD None) with
      | Value (np, r) =>
          if np =? BAD then gives BAD (mimem r) (fin r)
          else goes (mimem r) (fin r) (op s) np (bf s)
      | Fuel => Fuel
      | Fault => Fault
      end
  | 93 (* ] *) =>
      if negb (word im (op s) =? 91) then gives BAD im f2
      else gives c (if bf s =? 0 then im else backFill im (op s + 1) c) f2
  | 125 (* } *) =>
      if negb (word im (op s) =? 123) then gives BAD im f2
      else gives c (if bf s =? 0 then im else backFill im (op s + 1) c) f2
  | 124 (* | *) =>
      if negb (word im (op s) =? 40) then gives BAD im f2
      else goes (orImm im (op s) (c - op s - 1)) f2 (c - 1) c (bf s)
  | 41 (* ) *) =>
      if negb (word im (op s) =? 40) && negb (word im (op s) =? 124)
      then gives BAD im f2
      else
        let c' := c - 1 in
        let im' := orImm im (op s) (c' - op s - 1) in
        if bf s =? 0 then
          Value (Ret c' (mkFrame im' f2 (op s) c' (ll s) (pi s) (bf s)))
        else
          match pi s with
          | Some v =>
              Value (Ret c' (mkFrame im' f2 (op s) c' (ll s)
                               (Some (Z.lor v (bf s))) (bf s)))
          | None => Fault
          end
  | 59 (* ; *) =>
      if negb (word im (op s) =? 58) then gives BAD im f2
      else gives c (orImm im (op s) (c - op s - 1)) f2
  | 96 (* ` *) | 39 (* ' *) =>
      if ll s =? BAD then gives BAD im f2
      else goes im f2 (op s) c (Z.lor (bf s) 1)
  | 64 (* @ *) | 33 (* ! *) | -1 (* EOF *) =>
      if (op s =? -1) || (word im (op s) =? 64) then
        gives c (if cc =? EOF then <[c - 1 := 64]> im else im) f2
      else gives BAD im f2
  | _ => goes im f2 (op s) c (bf s)
  end.

(** The loop [while (1)] of [recCompile]; a unit of [fuel] a turn.  Every
    turn stores a word at [mimem[cp]]: a turn that finds [cp] outside of
    the [IMEM] words of instruction memory is a [Fault]. *)
Fixpoint recLoop (fuel : nat) (s : frame) : run (Z * frame) :=
  match fuel with
  | O => Fuel
  | S fuel' =>
      if (cp s <? 0) || (IMEM <=? cp s) then Fault
      else
        match recBody (recLoop fuel') s with
        | Value (Next s') => recLoop fuel' s'
        | Value (Ret np s') => Value (np, s')
        | Fuel => Fuel
        | Fault => Fault
        end
  end.

(** The recursive compiler, built from the recursive matcher!  Every turn
    of its loop reads a byte of the source or meets its end, so the bytes
    to come bound the turns. *)
Definition recCompile (im : gmap Z Z) (f : FILE) (c l : Z) (p : option Z)
    : run (Z * frame) :=
  recLoop (S (length (bytes f))) (enter im f c l p).

Section Loader.
Context {P : Platform}.

(** The loop [while (!feof(fin))] of [Compile]: a turn reads a byte of the
    source or meets its end. *)
Fixpoint Compile_loop (turns : nat) (im : gmap Z Z) (f : FILE) (c : Z)
    (tsmem : nat) (m : Machine) : run (Z * gmap Z Z * FILE * Machine) :=
  match turns with
  | O => Fuel
  | S turns' =>
      if feof f then Value (1, im, f, m)
      else
        match createProcess tsmem (Some tsmem) None c 0 None STACKSIZE m with
        | None => Fault
        | Some (failed, m1) =>
            let m2 :=
              if failed =? 0 then m1
              else set_err (err m1 ++ [NoMemForProcess]) m1 in
            match recCompile im f c BAD None with
            | Value (np, r) =>
                if np =? BAD then Value (0, mimem r, fin r, m2)
                else if word (mimem r) (np - 1) =? 33 then
                  Value (1, <[np - 1 := 64]> (mimem r), fin r,
                         set_useIn (bytes (fin r)) m2)
                else Compile_loop turns' (mimem r) (fin r) np tsmem m2
            | Fuel => Fuel
            | Fault => Fault
            end
        end
  end.

(** Takes the input and creates the instruction space from it.
    Returns 1 on success and 0 on failure (BACKWARDS!). *)
Definition Compile (im : gmap Z Z) (f : FILE) (tsmem : nat) (m : Machine)
    : run (Z * gmap Z Z * FILE * Machine) :=
  Compile_loop (S (S (length (bytes f)))) im f 0 tsmem m.

(** [memset(Gsmem, 0, DMEM * sizeof(char))] *)
Definition memsetGsmem (m : Machine) : Machine :=
  set_segs (<[Gsmem := zeroed]> (segs m)) m.

(** The part of [main] that compiles one file: what [Compile] returned and
    the global data when [execute] is about to be called. *)
Definition loadFile (src : list Z) (m : Machine) : run (Z * Machine) :=
  match Compile (Gimem m) (fopen src) Gsmem m with
  | Value (ok, im, _, m1) =>
      Value (ok, if ok =? 0 then set_Gimem im m1
                 else memsetGsmem (set_Gimem im m1))
  | Fuel => Fuel
  | Fault => Fault
  end.

(** The part of [main] that compiles and executes one file. *)
Definition runFile (fuel : nat) (quantum : Z) (src : list Z) (m : Machine)
    : option Machine :=
  match loadFile src m with
  | Value (ok, m1) => if ok =? 0 then Some m1 else execute fuel quantum m1
  | Fuel | Fault => None
  end.

(** The first [n] turns of the loop of [doQuanta], whatever the quantum:
    the state between two dispatches, or the [return] met on the way. *)
Fixpoint turns (n : nat) (me : TCB) (cost quanta : Z) (m : Machine)
    : outcome :=
  match n with
  | O => Continue me cost m
  | S n' =>
      match dispatch me cost quanta m with
      | Continue me' cost' m' => turns n' me' cost' (quanta - cost') m'
      | Return code me' m' => Return code me' m'
      | Undefined me' m' => Undefined me' m'
      end
  end.

End Loader.

(** The global data when [main] starts: no block, zeroed [Gimem] and
    [Gsmem], empty lists. *)
Definition boot (sched : Z) (stdin : list Z) (hp : list alloc) (rs : list Z)
    : Machine :=
  mkMachine ∅ {[Gsmem := zeroed]} [] [] [] [] ∅ sched None stdin [] [] hp rs.

Bind Scope string_scope with String.string.

(** The bytes of a source text. *)
Definition text (s : String.string) : list Z :=
  map (fun a => Z.of_nat (Ascii.nat_of_ascii a)) (String.list_ascii_of_string s).

(** The words of instruction memory from [lo] on, for reading examples. *)
Definition listing (im : gmap Z Z) (lo : Z) (n : nat) : list (Z * Z) :=
  map (fun i => (Z.land (word im i) IMASK, Z.shiftr (word im i) SHIFT))
      (seqZ lo (Z.of_nat n)).

(** * Vocabulary of the properties *)

(** A machine and a thread to try the evaluator on: [prog] is in
    instruction memory from 0 on, the thread is the first one of a process
    on the system segment. *)
Definition bench (sched : Z) (prog : list Z) (hp : list alloc) : Machine :=
  set_pcbs {[ 0%nat := mkPCB [] None Gsmem 1 ]}
    (set_Gimem (list_to_map (zip (seqZ 0 (Z.of_nat (length prog))) prog))
       (boot sched [] hp [])).

Definition bench_thread : TCB :=
  mkTCB 0 (replicate (Z.to_nat NUMPROC) None) 0 0 Gsmem
        (replicate (Z.to_nat STACKSIZE) 0) STACKSIZE.

(** An instruction word. *)
Definition instr (opcode imm : Z) : Z := Z.lor opcode (Z.shiftl imm SHIFT).

(** The immediate of a word whose upper part was written by [shl v]: the
    low 24 bits of [v] as a signed number; [v] itself while
    [-2^23 <= v < 2^23]. *)
Definition imm24 (v : Z) : Z := (v + 8388608) mod 16777216 - 8388608.

(** The first turn of [execute] on a file: the file is compiled, the first
    thread is taken and [doQuanta] runs it for [quantum] ticks. *)
Definition firstQuanta `{P : Platform} (fuel : nat) (quantum : Z)
    (src : list Z) (m : Machine) : option (Z * TCB * Machine) :=
  match loadFile src m with
  | Value (_, m0) =>
      match getNextThread m0 with
      | (Some t, m1) => doQuanta fuel t quantum m1
      | (None, _) => None
      end
  | Fuel | Fault => None
  end.

(** The thread that [&] asks [createThread] for, in a block with the
    given junk. *)
Definition spawned `{P : Platform} (me : TCB) (jp : list (option Z))
    (js : list Z) : TCB :=
  {| par := par me;
     procs := memcpy_ptrs (resize (Z.to_nat NUMPROC) None jp) (procs me)
                          (NUMPROC * sizeof_int);
     pc := pc me + 1;
     dp := Z.land (dp me + 1) DMASK;
     cmem := cmem me;
     stack := memcpy_ptrs (resize (Z.to_nat STACKSIZE) 0 js) (stack me)
                          (STACKSIZE * sizeof_int);
     sp := sp me |}.

(** The answers of [malloc] under which [createProcess] fails: no PCB, or
    a PCB and no data segment, or both and no TCB; and the answers left. *)
Inductive refuses : list alloc -> list alloc -> Prop :=
  | refuse_pcb h : refuses (NoMem :: h) h
  | refuse_dmem jp js jr h : refuses (Block jp js jr :: NoMem :: h) h
  | refuse_tcb jp js jr jp' js' jr' h :
      refuses (Block jp js jr :: Block jp' js' jr' :: NoMem :: h) h.

(** The test of [checkSemaphores]: the thread sleeps on cell [ptr] of
    segment [mem]. *)
Definition waits_on (mem : nat) (ptr : Z) (t : TCB) : bool :=
  (dp t =? ptr) && (cmem t =? mem)%nat.

(** A sleep list without its first [n] threads that wait on the cell. *)
Fixpoint dropWaiters (n : nat) (mem : nat) (ptr : Z) (l : list TCB)
    : list TCB :=
  match l with
  | [] => []
  | t :: rest =>
      match n with
      | O => l
      | S n' =>
          if waits_on mem ptr t then dropWaiters n' mem ptr rest
          else t :: dropWaiters n mem ptr rest
      end
  end.

(** The threads of a sleep list that wait on the cell, in list order. *)
Definition waiters (mem : nat) (ptr : Z) (l : list TCB) : list TCB :=
  List.filter (waits_on mem ptr) l.

(** [schedule] on each thread of [ts], from the first one on. *)
Definition scheduleAll (ts : list TCB) (m : Machine) : Machine :=
  foldl (fun m t => schedule t m) m ts.

(** The procedure-name characters: digits, capitals, small letters. *)
Definition is_name (w : Z) : Prop :=
  48 <= w <= 57 \/ 65 <= w <= 90 \/ 97 <= w <= 122.

(** The bounds of one thread control block. *)
Definition tcb_ok (t : TCB) : Prop :=
  (0 <= sp t <= STACKSIZE) /\ (0 <= dp t < DMEM).

(** The bounds hold for every thread control block of the lists: the
    runnable ones of [tList] and of the ready lists, the sleeping ones. *)
Definition all_ok (m : Machine) : Prop :=
  Forall tcb_ok (tListHead m) /\ Forall tcb_ok (sListHead m) /\
  forall c p, pcbs m !! c = Some p -> Forall tcb_ok (readyList p).

(** The thread and the global data a turn of the loop ends with. *)
Definition thread_of (o : outcome) : TCB :=
  match o with Continue t _ _ => t | Return _ t _ => t | Undefined t _ => t end.
Definition machine_of (o : outcome) : Machine :=
  match o with
  | Continue _ _ m => m | Return _ _ m => m | Undefined _ m => m
  end.

(** The states [execute] goes through from the global data [m0], those
    that [main] has when it calls [execute]: [reach m0 None m] when no
    thread is running (before [getNextThread]), [reach m0 (Some t) m] when
    [t] is running, between two turns of the loop of [doQuanta].  The
    cost, the ticks left and the moment the quantum ends are left open, so
    that every state of every run from [m0] is among these. *)
Inductive reach `{P : Platform} (m0 : Machine)
    : option TCB -> Machine -> Prop :=
  | reach_loaded : reach m0 None m0
  | reach_next m t m' quanta :
      reach m0 None m -> getNextThread m = (Some t, m') ->
      reach m0 (Some t) (snd (turnQuanta quanta m'))
  | reach_turn t m cost quanta t' cost' m' :
      reach m0 (Some t) m ->
      dispatch t cost quanta m = Continue t' cost' m' ->
      reach m0 (Some t') m'
  | reach_timeout t m :
      reach m0 (Some t) m -> reach m0 None (afterQuanta 0 t m)
  | reach_return t m cost quanta code t' m' :
      reach m0 (Some t) m ->
      dispatch t cost quanta m = Return code t' m' ->
      reach m0 None (afterQuanta code t' m').

(** An answer of [malloc] that is a block with NULL where a PCB has its
    field [readyList]. *)
Definition grants (a : alloc) : Prop := exists jp js, a = Block jp js false.

(** The positions at which the turns of the loop of [Compile] start a
    program: the [cp] that each turn hands to [createProcess] and to
    [recCompile]. *)
Fixpoint program_starts (turns : nat) (im : gmap Z Z) (f : FILE) (c : Z)
    : list Z :=
  match turns with
  | O => []
  | S turns' =>
      if feof f then []
      else
        c :: match recCompile im f c BAD None with
             | Value (np, r) =>
                 if (np =? BAD) || (word (mimem r) (np - 1) =? 33) then []
                 else program_starts turns' (mimem r) (fin r) np
             | Fuel | Fault => []
             end
  end.

(** Process [pid] is the primordial process of the program that starts at
    [c]: its parent segment is the system segment, its data segment is
    another one, and it has one thread, which is scheduled and starts at
    [c] in the data segment of the process, on cell 0, with an empty call
    stack. *)
Definition runs_program (m : Machine) (pid : nat) (c : Z) : Prop :=
  exists p t,
    pcbs m !! pid = Some p /\ pmem p = Some Gsmem /\ dmem p <> Gsmem /\
    is_Some (segs m !! dmem p) /\ threads p = 1 /\
    par t = pid /\ pc t = c /\ dp t = 0 /\ cmem t = dmem p /\
    sp t = STACKSIZE /\
    (if scheduler m =? SCHEDULE_PROCESS then readyList p = [t]
     else t ∈ tListHead m).

(** The segments and the processes of [m] are still there in [m']: the
    segments with their sizes, the processes with their two segments. *)
Definition same_layout (m m' : Machine) : Prop :=
  (forall seg mem, segs m !! seg = Some mem ->
     exists mem', segs m' !! seg = Some mem' /\ length mem' = length mem) /\
  (forall pid p, pcbs m !! pid = Some p ->
     exists p', pcbs m' !! pid = Some p' /\
                pmem p' = pmem p /\ dmem p' = dmem p).

(** A break or continue word not yet resolved. *)
Definition is_bc (w : Z) : Prop := w = 39 \/ w = 96.

(** The characters that have a case of their own in [recCompile]. *)
Definition special (cc : Z) : bool :=
  match cc with
  | 126 | 36 | 91 | 123 | 40 | 58 | 93 | 125 | 124 | 41 | 59 | 96 | 39
  | 64 | 33 | -1 => true
  | _ => false
  end.

(** What holds at the head of every turn of an activation of [recCompile]
    that was entered with [cp = lo]: the words it has emitted lie in
    [lo, cp); [op] is the word before them or, in an else branch, the word
    of the separator; a word of [lo, cp) that is still a break or a
    continue has set [bf]; and [bf] is only set inside a loop. *)
Definition Inv (lo : Z) (s : frame) : Prop :=
  (0 < lo <= cp s) /\ (lo - 1 <= op s < cp s) /\
  (op s = lo - 1 \/ word (mimem s) (op s) = 124) /\
  word (mimem s) (op s) <> 64 /\
  (word (mimem s) (op s) = 58 -> ll s = BAD) /\
  (ll s = BAD -> bf s = 0) /\
  (forall i, lo <= i < cp s -> is_bc (word (mimem s) i) -> bf s <> 0).

(** What a turn leaves as it was. *)
Definition Keep (lo : Z) (s s' : frame) : Prop :=
  ll s' = ll s /\ pi s' = pi s /\
  (forall i, i < lo - 1 -> word (mimem s') i = word (mimem s) i) /\
  (is_bc (word (mimem s') (lo - 1)) -> is_bc (word (mimem s) (lo - 1))).

(** What holds when the activation returns [np]: either no word of
    [lo, np) is a break or a continue, or the activation compiled an if
    branch inside a loop and has set the [bf] of its caller. *)
Definition Post (lo : Z) (s : frame) (np : Z) (r : frame) : Prop :=
  lo <= np /\
  (forall i, i < lo - 1 -> word (mimem r) i = word (mimem s) i) /\
  (is_bc (word (mimem r) (lo - 1)) -> is_bc (word (mimem s) (lo - 1))) /\
  ((pi r = pi s /\ forall i, lo <= i < np -> ~ is_bc (word (mimem r) i)) \/
   (ll s <> BAD /\
    exists v x, pi s = Some v /\ x <> 0 /\ pi r = Some (Z.lor v x))).

(** The nested activations are as [Post] says. *)
Definition nested_ok (rec : frame -> run (Z * frame)) : Prop :=
  forall sn np rn,
    rec sn = Value (np, rn) -> np <> BAD -> Inv (cp sn) sn ->
    Post (cp sn) sn np rn.

(** What a turn of an activation entered at [lo] establishes. *)
Definition turn_ok (lo : Z) (s : frame) (o : run turn) : Prop :=
  match o with
  | Value (Next s') => Inv lo s' /\ Keep lo s s'
  | Value (Ret np r) => np <> BAD -> Post lo s np r
  | Fuel | Fault => True
  end.

(** What a turn of a loop activation does: while it goes on, [op] stays
    on the word that opened the loop and this word is as it was; it
    returns a position only on the matching closing character, the words
    of the body back-filled when [bf] is set. *)
Definition loop_turn_ok (lo k : Z) (s : frame) (o : run turn) : Prop :=
  match o with
  | Value (Next s') => op s' = lo - 1 /\ word (mimem s') (lo - 1) = k
  | Value (Ret np r) =>
      np <> BAD ->
      (getNext (fin s)).1 = k + 2 /\ np = cp s + 1 /\
      mimem r = (if bf s =? 0 then <[cp s := k + 2]> (mimem s)
                 else backFill (<[cp s := k + 2]> (mimem s)) lo (cp s + 1))
  | Fuel | Fault => True
  end.


(** The bytes of the stream still to be read. *)
Definition ahead (f : FILE) : nat := length (bytes f).

(** The static [done] of [getNext] is set only at the end of the file. *)
Definition done_at_eof (f : FILE) : Prop :=
  getNext_done f = GOOD -> at_eof f = true.

(** What an activation of [recCompile] that returns has done to the
    stream: it has read a byte at least, or met the end of the file. *)
Definition past (f f' : FILE) : Prop :=
  done_at_eof f' /\
  ((ahead f' < ahead f)%nat \/ (at_eof f' = true /\ (ahead f' <= ahead f)%nat)).

(** The nested activations have read as [past] says. *)
Definition rec_reads (rec : frame -> run (Z * frame)) : Prop :=
  forall s np r,
    rec s = Value (np, r) -> done_at_eof (fin s) -> past (fin s) (fin r).

(** What a turn of the loop of [recCompile] does to the stream; when it
    runs out of fuel, a nested activation has, on a shorter stream. *)
Definition turn_reads (rec : frame -> run (Z * frame)) (s : frame)
    (o : run turn) : Prop :=
  match o with
  | Value (Next s') =>
      done_at_eof (fin s') /\ (ahead (fin s') < ahead (fin s))%nat
  | Value (Ret _ r) => past (fin s) (fin r)
  | Fuel =>
      exists sn, rec sn = Fuel /\ done_at_eof (fin sn) /\
                 (ahead (fin sn) < ahead (fin s))%nat
  | Fault => True
  end.

(** The bytes ahead, and the character read ahead of them. *)
Definition weight (np : Z) (f : FILE) : nat :=
  (ahead f + if (np =? EOF)%Z then 0 else 1)%nat.

(** The threads that the next [n] calls of [getNextThread] return, up to
    the first call that returns NULL. *)
Fixpoint nextThreads (n : nat) (m : Machine) : list TCB * Machine :=
  match n with
  | O => ([], m)
  | S n' =>
      match getNextThread m with
      | (Some t, m1) =>
          let '(ts, m2) := nextThreads n' m1 in (t :: ts, m2)
      | (None, m1) => ([], m1)
      end
  end.

(** The end-of-file indicator is set only by a read of [getNext] that met
    the end, which sets [done]. *)
Definition eof_is_done (f : FILE) : Prop :=
  at_eof f = true -> getNext_done f = GOOD.

(** The stream after [getNext] has read the character [d] off the bytes
    [bs], which [rest] follows. *)
Definition after_read (f : FILE) (d : Z) (rest : list Z) : FILE :=
  if d =? EOF then mkFILE rest true GOOD
  else mkFILE rest (at_eof f) (getNext_done f).

(** What a turn does, whatever the construct the activation compiles:
    when it goes on, either [op] is as it was, [cp] has not gone back and
    the words before [cp] are as they were, or the turn has read the [|]
    of an if; when it returns a position, it has read a character that
    closes what [op] opens. *)
Definition turn_shape (s : frame) (o : run turn) : Prop :=
  let cc := (getNext (fin s)).1 in
  let k := word (mimem s) (op s) in
  match o with
  | Value (Next s') =>
      (op s' = op s /\ cp s <= cp s' /\
       forall i, i < cp s -> word (mimem s') i = word (mimem s) i) \/
      (cc = 124 /\ k = 40 /\ op s' = cp s /\ cp s' = cp s + 1 /\
       mimem s' = orImm (<[cp s := 124]> (mimem s)) (op s) (cp s - op s))
  | Value (Ret np r) =>
      np <> BAD ->
      (cc = k + 2 /\ (k = 91 \/ k = 123) /\ np = cp s + 1 /\
       mimem r = (if bf s =? 0 then <[cp s := cc]> (mimem s)
                  else backFill (<[cp s := cc]> (mimem s))
                                (op s + 1) (cp s + 1))) \/
      (cc = 41 /\ (k = 40 \/ k = 124) /\ np = cp s /\
       mimem r = orImm (<[cp s := 41]> (mimem s)) (op s) (cp s - op s - 1)) \/
      (cc = 59 /\ k = 58 /\ np = cp s + 1 /\
       mimem r = orImm (<[cp s := 59]> (mimem s)) (op s) (cp s - op s)) \/
      ((cc = 64 \/ cc = 33 \/ cc = EOF) /\ (op s = -1 \/ k = 64) /\
       np = cp s + 1 /\
       mimem r = <[cp s := if cc =? EOF then 64 else cc]> (mimem s))
  | Fuel | Fault => True
  end.


(** The activation of [recCompile] that [Compile] starts: [op] is before
    instruction memory, where nothing is, or on the [@] that ends the
    program before. *)
Definition at_top (s : frame) : Prop :=
  0 <= cp s /\ op s < cp s /\
  (word (mimem s) (op s) = 64 \/ (op s = -1 /\ word (mimem s) (-1) = 0)).

(** Where the stream is in the source [src]: before the first [!], which
    is still to be read. *)
Definition unread (src : list Z) (f : FILE) : Prop :=
  exists pre, src = pre ++ bytes f /\ 33 ∉ pre.

(** The character [c] has been read ahead of the stream. *)
Definition pending (src : list Z) (c : Z) (f : FILE) : Prop :=
  exists pre,
    src = pre ++ (if c =? EOF then [] else [c]) ++ bytes f /\ 33 ∉ pre.

(** The stream is just after the first [!]. *)
Definition at_bang (src : list Z) (f : FILE) : Prop :=
  exists pre, src = pre ++ 33 :: bytes f /\ 33 ∉ pre.

(** At the end of the file no byte is left. *)
Definition eof_is_empty (f : FILE) : Prop := at_eof f = true -> bytes f = [].

(** What a turn of [recCompile] does to the position of the stream: it
    stays before the first [!], unless the turn has read the [!], on
    which it returns. *)
Definition turn_unread (src : list Z) (s : frame) (o : run turn) : Prop :=
  match o with
  | Value (Next s') => unread src (fin s')
  | Value (Ret np r) =>
      ((getNext (fin s)).1 = 33 /\ at_bang src (fin r)) \/
      ((getNext (fin s)).1 <> 33 /\ (np <> BAD -> unread src (fin r)))
  | Fuel | Fault => True
  end.

(** * Properties *)

(** ** Characters and record updates *)

Lemma to_char_mod `{P : Platform} (z : Z) : to_char z mod 256 = z mod 256.
Proof.
  unfold to_char. destruct char_signed.
  - rewrite Zminus_mod, Zmod_mod, <- Zminus_mod.
    f_equal. lia.
  - apply Zmod_mod.
Qed.

Lemma to_char_small `{P : Platform} (z : Z) : 0 <= z <= 127 -> to_char z = z.
Proof.
  intros Hz. unfold to_char. destruct char_signed.
  - rewrite Z.mod_small; lia.
  - apply Z.mod_small. lia.
Qed.

Lemma set_pc_back (me : TCB) :
  set_pc (pc me + 1 - 1) (set_pc (pc me + 1) me) = me.
Proof. destruct me. unfold set_pc. simpl. f_equal. lia. Qed.

(** ** The down operation *)

Lemma peek_poke_eq (mem : list Z) (i v : Z) :
  0 <= i < Z.of_nat (length mem) -> peek (poke mem i v) i = v.
Proof.
  intros Hi. unfold peek, poke. rewrite !decide_True by lia.
  rewrite list_lookup_insert_eq by lia. reflexivity.
Qed.

Lemma peek_poke_ne (mem : list Z) (i j v : Z) :
  i <> j -> peek (poke mem i v) j = peek mem j.
Proof.
  intros Hne. unfold peek, poke.
  destruct (decide (0 <= i)); [ | reflexivity].
  destruct (decide (0 <= j)); [ | reflexivity].
  rewrite list_lookup_insert_ne by lia. reflexivity.
Qed.

Lemma cell_set_cell_eq (seg : nat) (i v : Z) (m : Machine) (mem : list Z) :
  segs m !! seg = Some mem -> 0 <= i < Z.of_nat (length mem) ->
  cell (set_cell seg i v m) seg i = v.
Proof.
  intros Hs Hi. unfold cell, set_cell. cbn [segs set_segs].
  rewrite lookup_alter_eq, Hs. cbn [fmap option_fmap option_map].
  now apply peek_poke_eq.
Qed.

Lemma cell_set_cell_ne (seg seg' : nat) (i j v : Z) (m : Machine) :
  (seg', j) <> (seg, i) -> cell (set_cell seg i v m) seg' j = cell m seg' j.
Proof.
  intros Hne. unfold cell, set_cell. cbn [segs set_segs].
  destruct (decide (seg = seg')) as [<- | Hs].
  - rewrite lookup_alter_eq. destruct (segs m !! seg) as [mem | ];
      cbn [fmap option_fmap option_map]; [ | reflexivity].
    apply peek_poke_ne. congruence.
  - rewrite lookup_alter_ne by exact Hs. reflexivity.
Qed.

(** A [char] of the platform less a run length that it is not less than is
    a [char] again. *)
Lemma to_char_sub `{P : Platform} (v n : Z) :
  to_char v = v -> 0 <= n <= v -> to_char (v - n) = v - n.
Proof.
  unfold to_char. destruct char_signed; intros Hv Hn.
  - pose proof (Z.mod_pos_bound (v + 128) 256 ltac:(lia)) as Hb.
    rewrite Z.mod_small; lia.
  - pose proof (Z.mod_pos_bound v 256 ltac:(lia)) as Hb.
    rewrite Z.mod_small; lia.
Qed.

(** C3, the claim as it is stated: on a platform whose plain [char] is
    signed, a cell that holds the byte 200 reads as -56; 200 is not less
    than the run length 1, yet [_ 1] parks the thread. *)
Lemma down_signed_high_byte_parks :
  let me := bench_thread in
  let m := set_cell Gsmem 0 (@to_char (LP64 true) 200)
             (bench SCHEDULE_THREAD [instr 95 1] []) in
  cell m (cmem me) (dp me) mod 256 = 200 /\
  Z.shiftr (word (Gimem m) (pc me)) SHIFT = 1 /\
  @dispatch (LP64 true) me 1 10 m = Return 2 me m.
Proof.
  intros me m.
  assert (Hv : cell m (cmem me) (dp me) = -56) by (vm_compute; reflexivity).
  split; [rewrite Hv; reflexivity | ].
  split; [vm_compute; reflexivity | ].
  unfold dispatch.
  replace (word (Gimem m) (pc me)) with (instr 95 1) by (vm_compute; reflexivity).
  change (Z.land (instr 95 1) IMASK) with 95.
  cbn [set_pc pc dp cmem]. fold me. rewrite Hv.
  change (-56 <? Z.shiftr (instr 95 1) SHIFT) with true.
  cbv iota. f_equal.
Qed.

(** C3, amended: when [_ n] is executed, the current cell is read as a
    plain [char] of the platform, v.  If v < n, [doQuanta] returns 2 with
    the PC back on the [_] and every cell as it was, and [execute] puts
    the thread, which carries its segment and its data pointer, at the end
    of the sleep list.  Otherwise the loop of [doQuanta] goes on with the
    [char] of v - n in the cell, which is v - n when v is a [char] and n a
    run length, and nothing else has changed. *)
Theorem down_parks_or_decrements `{P : Platform}
    (me : TCB) (m : Machine) (mem : list Z) (cost quanta : Z) :
  let w := word (Gimem m) (pc me) in
  let n := Z.shiftr w SHIFT in
  let v := cell m (cmem me) (dp me) in
  Z.land w IMASK = 95 ->
  segs m !! cmem me = Some mem -> 0 <= dp me < Z.of_nat (length mem) ->
  (v < n ->
     dispatch me cost quanta m = Return 2 me m /\
     doQuanta_loop 1 true me cost quanta m = Some (2, me, m) /\
     afterQuanta 2 me m = set_sList (sListHead m ++ [me]) m /\
     cell (afterQuanta 2 me m) (cmem me) (dp me) = v) /\
  (n <= v ->
     exists m',
       dispatch me cost quanta m =
         Continue (set_pc (pc me + 1) me) cost m' /\
       cell m' (cmem me) (dp me) = to_char (v - n) /\
       (0 <= n -> to_char v = v -> cell m' (cmem me) (dp me) = v - n) /\
       (forall seg i, (seg, i) <> (cmem me, dp me) ->
          cell m' seg i = cell m seg i) /\
       (pcbs m', pListHead m', tListHead m', sListHead m') =
       (pcbs m, pListHead m, tListHead m, sListHead m)).
Proof.
  intros w n v Hop Hseg Hdp.
  assert (Hpark : v < n -> dispatch me cost quanta m = Return 2 me m).
  { intros Hlt. unfold dispatch. fold w. rewrite Hop.
    cbn [set_pc pc dp cmem]. fold v n.
    apply Z.ltb_lt in Hlt. rewrite Hlt. f_equal. apply set_pc_back. }
  split.
  - intros Hlt. split; [auto | ]. split; [ | split; reflexivity].
    cbn [doQuanta_loop orb]. now rewrite Hpark.
  - intros Hge.
    exists (set_cell (cmem me) (dp me) (to_char (v - n)) m).
    assert (Hc : cell (set_cell (cmem me) (dp me) (to_char (v - n)) m)
                   (cmem me) (dp me) = to_char (v - n)).
    { now apply (cell_set_cell_eq _ _ _ m mem). }
    split; [ | split; [exact Hc | split; [ | split]]].
    + unfold dispatch. fold w. rewrite Hop.
      cbn [set_pc pc dp cmem]. fold v n.
      assert ((v <? n) = false) as -> by lia. reflexivity.
    + intros Hn Hv. rewrite Hc. apply to_char_sub; [exact Hv | lia].
    + intros seg i Hne. now apply cell_set_cell_ne.
    + reflexivity.
Qed.

Lemma down_parks_or_decrements_witness :
  let me := bench_thread in
  let low := set_segs {[ Gsmem := [2; 0] ]}
               (bench SCHEDULE_THREAD [instr 95 3] []) in
  let high := set_segs {[ Gsmem := [5; 0] ]}
                (bench SCHEDULE_THREAD [instr 95 3] []) in
  (@dispatch (LP64 true) me 1 10 low = Return 2 me low /\
   sListHead (afterQuanta 2 me low) = [me] /\
   cell (afterQuanta 2 me low) Gsmem 0 = 2) /\
  (exists m',
     @dispatch (LP64 true) me 1 10 high = Continue (set_pc 1 me) 1 m' /\
     cell m' Gsmem 0 = 2 /\ cell m' Gsmem 1 = 0).
Proof.
  intros me low high. split.
  - destruct (@down_parks_or_decrements (LP64 true) me low [2; 0] 1 10)
      as [Hpark _];
      [reflexivity | reflexivity | vm_compute; split; [discriminate | reflexivity] | ].
    destruct Hpark as (Hd & _ & Ha & Hc); [vm_compute; reflexivity | ].
    split; [exact Hd | ]. split; [rewrite Ha; reflexivity | exact Hc].
  - destruct (@down_parks_or_decrements (LP64 true) me high [5; 0] 1 10)
      as [_ Hdec];
      [reflexivity | reflexivity | vm_compute; split; [discriminate | reflexivity] | ].
    destruct Hdec as (m' & Hd & _ & Hc & Hf & _);
      [vm_compute; discriminate | ].
    exists m'. split; [exact Hd | ]. split.
    + apply Hc; [vm_compute; discriminate | reflexivity].
    + rewrite Hf by discriminate. reflexivity.
Defined.

(** ** Ticks *)

(** The opcodes of the [switch] of [doQuanta], by case on the low byte of
    the word. *)
Ltac by_opcode p :=
  do 8 (try (destruct p as [p | p | ])); cbv beta iota.

(** What a turn of the loop charges is the cost it came in with, unless the
    instruction is [=], which sets the cost to its run length, or sets the
    cost to 0. *)
Lemma dispatch_cost `{P : Platform} (me me' : TCB) (m m' : Machine)
    (cost quanta c : Z) :
  let w := word (Gimem m) (pc me) in
  dispatch me cost quanta m = Continue me' c m' ->
  c = cost \/ (Z.land w IMASK = 61 /\ c = Z.shiftr w SHIFT) \/ c = 0.
Proof.
  intros w. unfold dispatch. fold w.
  destruct (Z.land w IMASK) as [ | p | p].
  - cbv beta iota. intros. repeat case_match; simplify_eq; auto.
  - by_opcode p; intros; repeat case_match; simplify_eq; auto.
  - cbv beta iota. intros. repeat case_match; simplify_eq; auto.
Qed.

(** [+] charges the cost it came in with, whatever it is. *)
Lemma dispatch_plus `{P : Platform} (me : TCB) (m : Machine)
    (cost quanta : Z) :
  let w := word (Gimem m) (pc me) in
  Z.land w IMASK = 43 ->
  dispatch me cost quanta m =
    Continue (set_pc (pc me + 1) me) cost
      (set_cell (cmem me) (dp me)
         (to_char (cell m (cmem me) (dp me) + Z.shiftr w SHIFT)) m).
Proof. intros w Hop. unfold dispatch. fold w. rewrite Hop. reflexivity. Qed.

(** [#] sets the cost to 0 and nothing sets it back. *)
Lemma dispatch_dump_cost `{P : Platform} (me : TCB) (m : Machine)
    (cost quanta : Z) :
  Z.land (word (Gimem m) (pc me)) IMASK = 35 ->
  exists m', dispatch me cost quanta m = Continue (set_pc (pc me + 1) me) 0 m'.
Proof. intros Hop. unfold dispatch. rewrite Hop. eexists. reflexivity. Qed.

(** C2 (the code departs from it): on the file [#+>+>+] and a quantum of
    one tick, the first turn executes [#], the three [+], the two [>] and
    the closing [@], on which the thread dies: after [#] the [+] and [>]
    are charged 0 ticks, not 1. *)
Theorem dump_leaves_the_cost_at_zero `{P : Platform} :
  match firstQuanta 8 1 (text "#+>+>+") (boot SCHEDULE_PROCESS [] [] []) with
  | Some (code, t, m) =>
      code = 1 /\ pc t = 7 /\
      map (fun i => cell m (cmem t) i) [0; 1; 2] = [1; 1; 1]
  | None => False
  end.
Proof.
  destruct P as [[ | ] si sp]; vm_compute; repeat split; reflexivity.
Qed.

(** ** Spawning a thread *)

(** [memcpy] of [n * sizeof(int)] bytes copies an array of [n] pointers
    whole when a pointer has the size of an [int]. *)
Lemma memcpy_ptrs_whole `{P : Platform} {A} (dst src : list A) (n : Z) :
  sizeof_ptr = sizeof_int -> 0 < sizeof_int ->
  length src = Z.to_nat n -> length dst = Z.to_nat n ->
  memcpy_ptrs dst src (n * sizeof_int) = src.
Proof.
  intros Heq Hpos Hs Hd. unfold memcpy_ptrs.
  rewrite Heq, Z.div_mul by lia.
  rewrite take_ge, drop_ge by lia. apply app_nil_r.
Qed.

(** [&]: 0 in the current cell, 1 in the next one; the new thread belongs
    to the same process, starts after the [&] on the next cell of the same
    segment, and is scheduled; without memory the next cell is 0. *)
Lemma dispatch_spawn `{P : Platform} (me : TCB) (m : Machine)
    (cost quanta : Z) :
  Z.land (word (Gimem m) (pc me)) IMASK = 38 ->
  let m2 := set_cell (cmem me) (Z.land (dp me + 1) DMASK) 1
              (set_cell (cmem me) (dp me) 0 m) in
  dispatch me cost quanta m =
    Continue (set_pc (pc me + 1) me) cost
      match malloc m2 with
      | (NoMem, m3) => set_cell (cmem me) (Z.land (dp me + 1) DMASK) 0 m3
      | (Block jp js _, m3) =>
          schedule (spawned me jp js)
            (set_pcbs (alter (fun p => set_threads (threads p + 1) p)
                             (par me) (pcbs m3)) m3)
      end.
Proof.
  intros Hop m2. unfold dispatch. rewrite Hop. cbv beta iota.
  cbn [set_pc pc dp cmem par procs stack sp]. fold m2.
  unfold createThread. destruct (malloc m2) as [[ | jp js jr] m3]; reflexivity.
Qed.

(** Where a pointer has the size of an [int], the procedure table and the
    call stack of the new thread are those of the spawning thread. *)
Lemma spawned_copies_when_sizes_agree `{P : Platform} (me : TCB)
    (jp : list (option Z)) (js : list Z) :
  sizeof_ptr = sizeof_int -> 0 < sizeof_int ->
  length (procs me) = Z.to_nat NUMPROC ->
  length (stack me) = Z.to_nat STACKSIZE ->
  procs (spawned me jp js) = procs me /\ stack (spawned me jp js) = stack me.
Proof.
  intros Heq Hpos Hp Hs. unfold spawned. cbn [procs stack]. split.
  - apply memcpy_ptrs_whole; auto. apply length_resize.
  - apply memcpy_ptrs_whole; auto. apply length_resize.
Qed.

(** C1 (the code departs from it): the file [:z&;z*] defines [z] and calls
    it; the body spawns a thread.  After the three instructions of the
    first turn the parent has [z] in slot 61 and the return address 5 in
    slot 1023 of its stack.  Where a pointer is twice as long as an [int],
    [memcpy] stopped at half of both arrays: in a zeroed block the child
    has no [z] and 0 for return address.  Where they have one size, the
    child has both. *)
Theorem spawn_copies_half_the_arrays (signed : bool) :
  let view (r : option (Z * TCB * Machine)) :=
    match r with
    | Some (_, t, m) =>
        match ready_of m (par t) with
        | [c] => Some (proc_at t 61, stack_at t 1023, sp t,
                       (proc_at c 61, stack_at c 1023, sp c))
        | _ => None
        end
    | None => None
    end in
  view (@firstQuanta (LP64 signed) 4 3 (text ":z&;z*")
          (boot SCHEDULE_PROCESS [] [] []))
    = Some (Some 2, 5, 1023, (None, 0, 1023)) /\
  view (@firstQuanta (ILP32 signed) 4 3 (text ":z&;z*")
          (boot SCHEDULE_PROCESS [] [] []))
    = Some (Some 2, 5, 1023, (Some 2, 5, 1023)).
Proof. destruct signed; vm_compute; split; reflexivity. Qed.

(** ** Forking a process *)

Ltac machine_simpl :=
  cbn [pcbs segs pListHead tListHead dpListHead sListHead Gimem scheduler lp
       useIn out err heap rands set_pcbs set_segs set_pList set_tList
       set_dpList set_sList set_Gimem set_lp set_useIn set_out set_err
       set_heap set_rands fst snd].

Lemma alter_alter {A} (f g : A -> A) (m : gmap nat A) (i : nat) :
  alter f i (alter g i m) = alter (fun x => f (g x)) i m.
Proof.
  apply map_eq. intros k. destruct (decide (i = k)) as [-> | Hne].
  - rewrite !lookup_alter_eq. destruct (m !! k); reflexivity.
  - rewrite !lookup_alter_ne by done. reflexivity.
Qed.

Lemma poke_poke (mem : list Z) (i v v' : Z) :
  poke (poke mem i v') i v = poke mem i v.
Proof.
  unfold poke. case_decide; [apply list_insert_insert_eq | reflexivity].
Qed.

Lemma set_cell_set_cell (seg : nat) (i v v' : Z) (m : Machine) :
  set_cell seg i v (set_cell seg i v' m) = set_cell seg i v m.
Proof.
  unfold set_cell, set_segs. machine_simpl. rewrite alter_alter.
  rewrite (alter_ext _ (fun mem => poke mem i v)); [reflexivity | ].
  intros. apply poke_poke.
Qed.

Lemma set_cell_set_heap (seg : nat) (i v : Z) (h : list alloc) (m : Machine) :
  set_cell seg i v (set_heap h m) = set_heap h (set_cell seg i v m).
Proof. reflexivity. Qed.

Lemma fresh_pcb_absent (m : gmap nat PCB) : m !! fresh (dom m) = None.
Proof. apply not_elem_of_dom. apply is_fresh. Qed.

Lemma fresh_seg_absent (m : gmap nat (list Z)) : m !! fresh (dom m) = None.
Proof. apply not_elem_of_dom. apply is_fresh. Qed.

(** A refused [createProcess] returns 1 and leaves the global data as it
    found it: what it had allocated is freed again. *)
Lemma createProcess_refused `{P : Platform} (copymem : nat)
    (npmem : option nat) (nprocs : option (list (option Z))) (npc ndp : Z)
    (ns : option (list Z)) (nsp : Z) (m : Machine) (h : list alloc) :
  refuses (heap m) h ->
  createProcess copymem npmem nprocs npc ndp ns nsp m = Some (1, set_heap h m).
Proof.
  intros Hr. unfold createProcess, createThread, malloc.
  destruct m as [pc sg pl tl dl sl gi sc l ui o e hp r].
  machine_simpl. cbn [heap] in Hr.
  inversion Hr; subst; unfold set_pcbs, set_heap, set_segs; machine_simpl.
  - reflexivity.
  - rewrite delete_insert_id by apply fresh_pcb_absent. reflexivity.
  - rewrite insert_insert_eq.
    rewrite delete_insert_id by apply fresh_pcb_absent.
    rewrite delete_insert_id by apply fresh_seg_absent.
    reflexivity.
Qed.

(** C10: when [%] is executed and [malloc] refuses the PCB, the data
    segment or the TCB, the global data afterwards are those before with 0
    in the current cell and 0 in the next one (and the answers of [malloc]
    used up): the same PCBs with the same thread counts and ready lists,
    the same segments, the same process, thread and sleep lists. *)
Theorem fork_failure_is_atomic `{P : Platform} (me : TCB) (m : Machine)
    (cost quanta : Z) (h : list alloc) :
  Z.land (word (Gimem m) (pc me)) IMASK = 37 ->
  refuses (heap m) h ->
  dispatch me cost quanta m =
    Continue (set_pc (pc me + 1) me) cost
      (set_heap h
         (set_cell (cmem me) (Z.land (dp me + 1) DMASK) 0
            (set_cell (cmem me) (dp me) 0 m))).
Proof.
  intros Hop Hr. unfold dispatch. rewrite Hop. cbv beta iota.
  cbn [set_pc pc dp cmem par procs stack sp].
  erewrite createProcess_refused by exact Hr.
  rewrite set_cell_set_heap, set_cell_set_cell. reflexivity.
Qed.

Lemma fork_failure_is_atomic_witness :
  let m := bench SCHEDULE_PROCESS [instr 37 0] [Block [] [] false; NoMem] in
  exists m',
    @dispatch (LP64 true) bench_thread 1 10 m =
      Continue (set_pc 1 bench_thread) 1 m' /\
    pcbs m' = pcbs m /\ pListHead m' = pListHead m /\
    dom (segs m') = dom (segs m) /\ heap m' = [].
Proof.
  intros m. eexists. split.
  - apply (@fork_failure_is_atomic (LP64 true) bench_thread m 1 10 []).
    + vm_compute. reflexivity.
    + apply refuse_dmem.
  - repeat split.
Defined.

(** ** Waking sleepers *)

Lemma dropWaiters_0 mem ptr l : dropWaiters 0 mem ptr l = l.
Proof. destruct l; reflexivity. Qed.


Lemma firstWaiter_spec mem ptr l :
  firstWaiter mem ptr l =
    match waiters mem ptr l with
    | [] => None
    | t :: _ => Some (t, dropWaiters 1 mem ptr l)
    end.
Proof.
  unfold waiters. induction l as [ | t l IH]; [reflexivity | ].
  cbn [firstWaiter List.filter dropWaiters]. fold (waits_on mem ptr t).
  destruct (waits_on mem ptr t).
  - now rewrite dropWaiters_0.
  - rewrite IH. destruct (List.filter _ l); reflexivity.
Qed.




Lemma set_sList_schedule l l' t m :
  set_sList l (schedule t (set_sList l' m)) = schedule t (set_sList l m).
Proof. unfold schedule. machine_simpl. destruct (_ =? _); reflexivity. Qed.


Lemma scheduleAll_set_sList ts l l' m :
  set_sList l (scheduleAll ts (set_sList l' m)) = scheduleAll ts (set_sList l m).
Proof.
  revert m l'. induction ts as [ | t ts IH]; intros m l'; cbn.
  - destruct m; reflexivity.
  - unfold scheduleAll in *. cbn [foldl].
    rewrite <- (set_sList_schedule l' l' t m) at 1. rewrite IH.
    now rewrite set_sList_schedule.
Qed.

Lemma checkSemaphores_spec mem ptr m :
  checkSemaphores mem ptr m =
    match waiters mem ptr (sListHead m) with
    | [] => m
    | t :: _ => schedule t (set_sList (dropWaiters 1 mem ptr (sListHead m)) m)
    end.
Proof.
  unfold checkSemaphores. rewrite firstWaiter_spec.
  destruct (waiters mem ptr (sListHead m)); reflexivity.
Qed.







(** One scan: the first waiter of the sleep list, if there is one, leaves
    the list and is scheduled; the threads before it do not wait on the
    cell. *)
Lemma checkSemaphores_first (mem : nat) (ptr : Z) (m : Machine)
    (l1 l2 : list TCB) (t : TCB) :
  sListHead m = l1 ++ t :: l2 ->
  waiters mem ptr l1 = [] -> waits_on mem ptr t = true ->
  checkSemaphores mem ptr m = schedule t (set_sList (l1 ++ l2) m).
Proof.
  intros Hl H1 Ht. rewrite checkSemaphores_spec, Hl.
  assert (Hw : waiters mem ptr (l1 ++ t :: l2) = t :: waiters mem ptr l2).
  { unfold waiters in *. rewrite List.filter_app, H1. cbn. now rewrite Ht. }
  rewrite Hw. do 2 f_equal. clear Hl Hw.
  induction l1 as [ | x l1 IH]; cbn [dropWaiters app].
  - rewrite Ht. apply dropWaiters_0.
  - unfold waiters in H1. cbn [List.filter] in H1.
    destruct (waits_on mem ptr x); [discriminate | ]. f_equal. auto.
Qed.

(** The waiters left are those after the first [n]; the other sleepers
    stay as they are. *)
Lemma waiters_dropWaiters (n : nat) (mem : nat) (ptr : Z) (l : list TCB) :
  waiters mem ptr (dropWaiters n mem ptr l) = drop n (waiters mem ptr l) /\
  List.filter (fun t => negb (waits_on mem ptr t)) (dropWaiters n mem ptr l)
    = List.filter (fun t => negb (waits_on mem ptr t)) l.
Proof.
  unfold waiters. revert n. induction l as [ | x l IH]; intros n.
  - cbn. now rewrite drop_nil.
  - destruct n; [now rewrite dropWaiters_0 | ].
    cbn [dropWaiters List.filter]. destruct (waits_on mem ptr x) eqn:Hx.
    + cbn [negb drop]. apply IH.
    + cbn [List.filter negb]. rewrite Hx. cbn [negb].
      destruct (IH (S n)) as [IH1 IH2]. now rewrite IH1, IH2.
Qed.





(** ** Procedure calls *)

Lemma procNum_name (w : Z) : procNum w <> NOPROC <-> is_name w.
Proof.
  unfold procNum, is_name, NOPROC.
  destruct (48 <=? w) eqn:H1, (w <=? 57) eqn:H2, (65 <=? w) eqn:H3,
    (w <=? 90) eqn:H4, (97 <=? w) eqn:H5, (w <=? 122) eqn:H6; cbn; lia.
Qed.

Lemma set_pc_set_pc (a b : Z) (me : TCB) : set_pc a (set_pc b me) = set_pc a me.
Proof. reflexivity. Qed.

Lemma set_pc_id (me : TCB) : set_pc (pc me) me = me.
Proof. destruct me; reflexivity. Qed.

Lemma is_name_among (w : Z) :
  is_name w -> In w (seqZ 48 10 ++ seqZ 65 26 ++ seqZ 97 26).
Proof.
  intros Hw. rewrite !in_app_iff, <- !list_elem_of_In, !elem_of_seqZ.
  unfold is_name in Hw. lia.
Qed.

(** The [default] case of the [switch] on a procedure name. *)
Lemma dispatch_call `{P : Platform} (me : TCB) (m : Machine) (cost quanta : Z) :
  let w := word (Gimem m) (pc me) in
  is_name w ->
  dispatch me cost quanta m =
    match proc_at me (procNum w) with
    | Some body =>
        let next := word (Gimem m) (pc me + 1) in
        if (next =? 59) || (next =? 36) then
          Continue (set_pc body me) cost m
        else if sp me =? 0 then
          Continue (set_pc (pc me + 1) me) cost
                   (set_err (err m ++ [NoMemForCall]) m)
        else
          Continue
            (set_pc body
               (set_sp (sp me - 1)
                  (set_stack (<[Z.to_nat (sp me - 1) := pc me + 1]> (stack me))
                             me)))
            cost m
    | None => Continue (set_pc (pc me + 1) me) 0 m
    end.
Proof.
  intros w Hw.
  assert (Hc : to_char w = w).
  { apply to_char_small. unfold is_name in Hw. lia. }
  assert (Hn : (procNum w =? NOPROC) = false).
  { apply Z.eqb_neq. now apply procNum_name. }
  unfold dispatch. fold w. rewrite Hc, Hn.
  cbn [set_pc pc dp cmem par procs stack sp].
  unfold proc_at at 1. cbn [procs].
  fold (proc_at me (procNum w)).
  clear Hc Hn. apply is_name_among in Hw. clearbody w.
  repeat (destruct Hw as [<- | Hw]; [reflexivity | ]).
  destruct Hw.
Qed.

(** C5: a call of a defined procedure that is followed by the word [;]
    sets the PC to the body of the procedure and leaves the stack pointer,
    the call stack and the rest of the thread and of the global data as
    they are; a [$] of the source is such a word, the compiler writes [;]
    for it.  A procedure that ends in a call of itself is run again and
    again on the same stack: however many turns the loop of [doQuanta]
    takes, the thread and its stack are as they were. *)
Theorem tail_call_keeps_the_stack `{P : Platform} (me : TCB) (m : Machine)
    (cost quanta body : Z) :
  let w := word (Gimem m) (pc me) in
  is_name w ->
  proc_at me (procNum w) = Some body ->
  word (Gimem m) (pc me + 1) = 59 ->
  dispatch me cost quanta m = Continue (set_pc body me) cost m /\
  sp (set_pc body me) = sp me /\ stack (set_pc body me) = stack me /\
  (body = pc me ->
   forall n, turns n me cost quanta m = Continue me cost m) /\
  (forall rec s f,
     getNext (fin s) = (36, f) ->
     exists s', recBody rec s = Value (Next s') /\
                word (mimem s') (cp s) = 59 /\ cp s' = cp s + 1).
Proof.
  intros w Hw Hb Hnext.
  assert (Hd : forall q,
             dispatch me cost q m = Continue (set_pc body me) cost m).
  { intros q. rewrite dispatch_call by exact Hw. fold w. rewrite Hb. cbv zeta.
    rewrite Hnext. reflexivity. }
  split; [apply Hd | ]. split; [reflexivity | ]. split; [reflexivity | ]. split.
  - intros -> n. rewrite set_pc_id in Hd. revert quanta.
    induction n as [ | n IH]; intros quanta; [reflexivity | ].
    cbn [turns]. rewrite Hd. apply IH.
  - intros rec s f Hg. unfold recBody. rewrite Hg.
    change (runLength 36 f) with (0, f). cbv beta iota zeta.
    eexists. split; [reflexivity | ]. cbn [mimem cp]. split; [ | reflexivity].
    unfold word. replace (cp s + 1 - 1) with (cp s) by lia.
    now rewrite lookup_insert_eq.
Qed.

Lemma tail_call_keeps_the_stack_witness :
  let me := set_procs (<[10%nat := Some 0]> (procs bench_thread)) bench_thread in
  let m := bench SCHEDULE_PROCESS [65; 59] [] in
  @turns (LP64 true) 1000 me 1 0 m = Continue me 1 m.
Proof.
  intros me m.
  destruct (@tail_call_keeps_the_stack (LP64 true) me m 1 0 0)
    as (_ & _ & _ & Hloop & _).
  - vm_compute. right. left. split; discriminate.
  - vm_compute. reflexivity.
  - vm_compute. reflexivity.
  - apply Hloop. reflexivity.
Defined.

(** The file [:A+A;A]: [A] adds one to the cell and calls itself.  After
    the definition and the first call, which pushes the return address,
    every two turns run the body once more: the cell counts the calls and
    the stack pointer stays where the first call left it. *)
Lemma tail_recursion_example (n : nat) :
  (n <= 300)%nat ->
  match @firstQuanta (LP64 true) (3 + 2 * n) (2 + 2 * Z.of_nat n)
          (text ":A+A;A") (boot SCHEDULE_PROCESS [] [] []) with
  | Some (code, t, m) =>
      code = 0 /\ sp t = STACKSIZE - 1 /\
      cell m (cmem t) (dp t) = @to_char (LP64 true) (Z.of_nat n)
  | None => False
  end.
Proof.
  intros Hn.
  assert (Hall : forallb (fun k =>
     match @firstQuanta (LP64 true) (3 + 2 * k) (2 + 2 * Z.of_nat k)
             (text ":A+A;A") (boot SCHEDULE_PROCESS [] [] []) with
     | Some (code, t, m) =>
         (code =? 0) && (sp t =? STACKSIZE - 1) &&
         (cell m (cmem t) (dp t) =? @to_char (LP64 true) (Z.of_nat k))
     | None => false
     end) (seq 0 301) = true) by (vm_compute; reflexivity).
  rewrite forallb_forall in Hall. specialize (Hall n).
  destruct firstQuanta as [[[code t] m] | ].
  - assert (Hin : In n (seq 0 301)) by (apply in_seq; lia).
    apply Hall in Hin. rewrite !andb_true_iff, !Z.eqb_eq in Hin.
    tauto.
  - assert (Hin : In n (seq 0 301)) by (apply in_seq; lia).
    apply Hall in Hin. discriminate.
Qed.

(** ** Bounds of the stack pointer and of the data pointer *)

Lemma land_DMASK (x : Z) : Z.land x DMASK = x mod DMEM.
Proof. change DMASK with (Z.ones 16). change DMEM with (2 ^ 16). apply Z.land_ones. lia. Qed.

Lemma land_DMASK_range (x : Z) : 0 <= Z.land x DMASK < DMEM.
Proof. rewrite land_DMASK. apply Z.mod_pos_bound. reflexivity. Qed.

Lemma all_ok_pcbs_alter (f : PCB -> PCB) (c : nat) (m : Machine) :
  (forall p, Forall tcb_ok (readyList p) -> Forall tcb_ok (readyList (f p))) ->
  all_ok m -> all_ok (set_pcbs (alter f c (pcbs m)) m).
Proof.
  intros Hf (Ht & Hs & Hp). repeat split; auto. machine_simpl.
  intros c' p' Hl. apply lookup_alter_Some in Hl as [(-> & p & Hl & ->) | [_ Hl]]; eauto.
Qed.

Lemma schedule_ok (t : TCB) (m : Machine) :
  tcb_ok t -> all_ok m -> all_ok (schedule t m).
Proof.
  intros Ht Hm. unfold schedule. destruct (_ =? _).
  - apply all_ok_pcbs_alter; [ | exact Hm]. intros p Hp. cbn.
    apply Forall_app. split; [exact Hp | now constructor].
  - destruct Hm as (H1 & H2 & H3). repeat split; auto. machine_simpl.
    apply Forall_app. split; [exact H1 | now constructor].
Qed.

Lemma all_ok_frame (m m' : Machine) :
  pcbs m' = pcbs m -> tListHead m' = tListHead m -> sListHead m' = sListHead m ->
  all_ok m -> all_ok m'.
Proof. unfold all_ok. intros -> -> ->. auto. Qed.

Lemma malloc_frame (m : Machine) :
  pcbs (snd (malloc m)) = pcbs m /\ tListHead (snd (malloc m)) = tListHead m /\
  sListHead (snd (malloc m)) = sListHead m /\ segs (snd (malloc m)) = segs m /\
  scheduler (snd (malloc m)) = scheduler m.
Proof. unfold malloc. destruct (heap m); repeat split. Qed.

Lemma malloc_ok (m : Machine) : all_ok m -> all_ok (snd (malloc m)).
Proof.
  intros H. destruct (malloc_frame m) as (H1 & H2 & H3 & _).
  now apply (all_ok_frame m).
Qed.

Lemma createThread_ok `{P : Platform} npar pr npc ndp ncmem ns nsp (m : Machine) :
  (0 <= nsp <= STACKSIZE) -> (0 <= ndp < DMEM) -> all_ok m ->
  all_ok (snd (createThread npar pr npc ndp ncmem ns nsp m)).
Proof.
  intros Hsp Hdp Hm. unfold createThread.
  pose proof (malloc_ok m Hm) as Hm1.
  destruct (malloc m) as [[ | jp js jr] m1]; cbn [snd] in *; [exact Hm1 | ].
  apply schedule_ok; [split; assumption | ].
  apply all_ok_pcbs_alter; [ | exact Hm1]. intros p Hp. exact Hp.
Qed.

Lemma all_ok_pcbs_insert (c : nat) (p : PCB) (m : Machine) :
  Forall tcb_ok (readyList p) -> all_ok m ->
  all_ok (set_pcbs (<[c := p]> (pcbs m)) m).
Proof.
  intros Hp (H1 & H2 & H3). repeat split; auto. machine_simpl.
  intros c' p' Hl. apply lookup_insert_Some in Hl as [[_ <-] | [_ Hl]]; eauto.
Qed.

Lemma all_ok_pcbs_delete (c : nat) (m : Machine) :
  all_ok m -> all_ok (set_pcbs (delete c (pcbs m)) m).
Proof.
  intros (H1 & H2 & H3). repeat split; auto. machine_simpl.
  intros c' p' Hl. apply lookup_delete_Some in Hl as [_ Hl]. eauto.
Qed.

Lemma all_ok_set_segs (v : gmap nat (list Z)) (m : Machine) :
  all_ok m -> all_ok (set_segs v m).
Proof. intros H. exact H. Qed.

Lemma all_ok_set_pList (v : list nat) (m : Machine) :
  all_ok m -> all_ok (set_pList v m).
Proof. intros H. exact H. Qed.

Lemma createProcess_ok `{P : Platform} copymem npmem nprocs npc ndp ns nsp
    (m : Machine) :
  (0 <= nsp <= STACKSIZE) -> (0 <= ndp < DMEM) -> all_ok m ->
  match createProcess copymem npmem nprocs npc ndp ns nsp m with
  | Some (_, m') => all_ok m'
  | None => True
  end.
Proof.
  intros Hsp Hdp Hm. unfold createProcess.
  pose proof (malloc_ok m Hm) as Hm1.
  destruct (malloc m) as [[ | jp js jr] m1]; cbn [snd] in *; [exact Hm1 | ].
  set (c := fresh (dom (pcbs m1))). clearbody c.
  set (m1' := set_pcbs (<[c := mkPCB [] npmem 0%nat 0]> (pcbs m1)) m1).
  assert (Hm1' : all_ok m1') by (apply all_ok_pcbs_insert; [constructor | exact Hm1]).
  clearbody m1'.
  pose proof (malloc_ok m1' Hm1') as Hm2.
  destruct (malloc m1') as [[ | jp' js' jr'] m2]; cbn [snd] in *.
  { now apply all_ok_pcbs_delete. }
  set (d := fresh (dom (segs m2))). clearbody d.
  match goal with |- context [createThread _ _ _ _ _ _ _ ?x] => set (m3 := x) end.
  assert (Hm3 : all_ok m3).
  { apply (all_ok_pcbs_insert c _ (set_segs (<[d := []]> (segs m2)) m2));
      [constructor | ]. now apply all_ok_set_segs. }
  clearbody m3.
  pose proof (createThread_ok c nprocs npc ndp d ns nsp m3 Hsp Hdp Hm3) as Hm4.
  destruct (createThread c nprocs npc ndp d ns nsp m3) as [r m4]; cbn [snd] in *.
  destruct r as [ | r | r]; cbn [snd].
  - destruct (jr && _); [exact I | ].
    apply all_ok_set_pList. now apply all_ok_set_segs.
  - apply (all_ok_pcbs_delete c (set_segs (delete d (segs m4)) m4)).
    now apply all_ok_set_segs.
  - apply (all_ok_pcbs_delete c (set_segs (delete d (segs m4)) m4)).
    now apply all_ok_set_segs.
Qed.

Lemma firstWaiter_ok (mem : nat) (ptr : Z) (l : list TCB) :
  Forall tcb_ok l ->
  match firstWaiter mem ptr l with
  | Some (t, rest) => tcb_ok t /\ Forall tcb_ok rest
  | None => True
  end.
Proof.
  induction 1 as [ | x l Hx Hl IH]; cbn [firstWaiter]; [exact I | ].
  destruct (_ && _); [auto | ].
  destruct (firstWaiter mem ptr l) as [[t rest] | ]; [ | exact I].
  destruct IH. auto.
Qed.

Lemma checkSemaphores_ok (mem : nat) (ptr : Z) (m : Machine) :
  all_ok m -> all_ok (checkSemaphores mem ptr m).
Proof.
  intros Hm. unfold checkSemaphores.
  pose proof (firstWaiter_ok mem ptr (sListHead m) (proj1 (proj2 Hm))) as Hf.
  destruct (firstWaiter mem ptr (sListHead m)) as [[t rest] | ]; [ | exact Hm].
  destruct Hf as [Ht Hr]. apply schedule_ok; [exact Ht | ].
  destruct Hm as (H1 & H2 & H3). repeat split; auto.
Qed.

Lemma wakeLoop_ok (n : nat) (mem : nat) (ptr : Z) (m : Machine) :
  all_ok m -> all_ok (wakeLoop n mem ptr m).
Proof.
  revert m. induction n as [ | n IH]; intros m Hm; [exact Hm | ].
  cbn [wakeLoop]. apply IH. destruct (sListHead m); [exact Hm | ].
  now apply checkSemaphores_ok.
Qed.

Lemma tcb_ok_set_dp (x : Z) (t : TCB) :
  tcb_ok t -> tcb_ok (set_dp (Z.land x DMASK) t).
Proof. intros [H1 H2]. split; [exact H1 | apply land_DMASK_range]. Qed.

Ltac ok_done Hme Hm :=
  cbn [thread_of machine_of]; split;
  [ first [ exact Hme
          | apply tcb_ok_set_dp; exact Hme
          | destruct Hme as [? ?]; split; cbn [sp dp set_sp set_pc set_stack set_procs set_cmem];
            unfold STACKSIZE in *; lia ]
  | first [ exact Hm | assumption ] ].

(** A turn of the loop of [doQuanta] keeps the bounds. *)
Lemma dispatch_ok `{P : Platform} (me : TCB) (m : Machine) (cost quanta : Z) :
  tcb_ok me -> all_ok m ->
  tcb_ok (thread_of (dispatch me cost quanta m)) /\
  all_ok (machine_of (dispatch me cost quanta m)).
Proof.
  intros Hme Hm.
  assert (Hpc : forall v, tcb_ok (set_pc v me)) by (intros v; exact Hme).
  assert (Hadj : 0 <= Z.land (dp me + 1) DMASK < DMEM) by apply land_DMASK_range.
  pose proof (createThread_ok (par me) (Some (procs me)) (pc me + 1)
                (Z.land (dp me + 1) DMASK) (cmem me) (Some (stack me)) (sp me)
                (set_cell (cmem me) (Z.land (dp me + 1) DMASK) 1
                   (set_cell (cmem me) (dp me) 0 m))
                (proj1 Hme) Hadj Hm) as HcT.
  pose proof (createProcess_ok (cmem me)
                (par_dmem (set_pc (pc me + 1) me) (set_cell (cmem me) (Z.land (dp me + 1) DMASK) 1
                   (set_cell (cmem me) (dp me) 0 m)))
                (Some (procs me)) (pc me + 1)
                (Z.land (dp me + 1) DMASK) (Some (stack me)) (sp me)
                (set_cell (cmem me) (Z.land (dp me + 1) DMASK) 1
                   (set_cell (cmem me) (dp me) 0 m))
                (proj1 Hme) Hadj Hm) as HcP.
  pose proof (fun n => wakeLoop_ok n (cmem me) (dp me) _ 
     (all_ok_set_segs _ m Hm : all_ok (set_cell (cmem me) (dp me)
         (to_char (cell m (cmem me) (dp me) + Z.shiftr (word (Gimem m) (pc me)) SHIFT)) m))) as Hw.
  unfold dispatch.
  cbn [set_pc pc dp cmem par procs stack sp] in *.
  destruct (Z.land (word (Gimem m) (pc me)) IMASK) as [ | p | p].
  - cbv beta iota. repeat case_match; ok_done Hme Hm.
  - by_opcode p.
    all: try (repeat case_match; ok_done Hme Hm; fail).
    cbn [thread_of machine_of]. split; [exact Hme | apply Hw].
  - cbv beta iota. repeat case_match; ok_done Hme Hm.
Qed.

Lemma firstReady_frame (n : nat) (m : Machine) :
  pcbs (snd (firstReady n m)) = pcbs m /\
  tListHead (snd (firstReady n m)) = tListHead m /\
  sListHead (snd (firstReady n m)) = sListHead m.
Proof.
  revert m. induction n as [ | n IH]; intros m; cbn [firstReady]; [auto | ].
  destruct (pListHead m) as [ | a rest]; [auto | ].
  destruct (ready_of m a); [ | auto].
  destruct (IH (set_pList (rest ++ [a]) m)) as (H1 & H2 & H3).
  rewrite H1, H2, H3. auto.
Qed.

Lemma getNextThread_ok (m m' : Machine) (t : TCB) :
  all_ok m -> getNextThread m = (Some t, m') -> tcb_ok t /\ all_ok m'.
Proof.
  intros Hm. unfold getNextThread. destruct (scheduler m =? SCHEDULE_PROCESS).
  - set (m1 := match lp m with Some _ => _ | None => m end).
    assert (Hm1 : all_ok m1).
    { subst m1. destruct (lp m); [ | exact Hm]. destruct (match pcbs m !! n with Some _ => _ | None => _ end); exact Hm. }
    clearbody m1. destruct (deadLocked m1); [discriminate | ].
    destruct (firstReady_frame (length (pListHead m1)) m1) as (H1 & H2 & H3).
    destruct (firstReady (length (pListHead m1)) m1) as [[a | ] m2]; cbn [snd] in *; [ | discriminate].
    assert (Hm2 : all_ok m2) by (now apply (all_ok_frame m1)).
    unfold ready_of. destruct (pcbs m2 !! a) as [p | ] eqn:Hp; [ | discriminate].
    destruct (readyList p) as [ | b rest] eqn:Hr; [discriminate | ].
    intros [= <- <-].
    pose proof (proj2 (proj2 Hm2) a p Hp) as Hall. rewrite Hr in Hall.
    apply Forall_cons in Hall as [Hb Hrest]. split; [exact Hb | ].
    apply (all_ok_pcbs_alter (set_readyList rest) a (set_lp (Some a) m2));
      [intros; exact Hrest | exact Hm2].
  - destruct (tListHead m) as [ | b rest] eqn:Hl; [discriminate | ].
    intros [= <- <-]. destruct Hm as (H1 & H2 & H3). rewrite Hl in H1.
    apply Forall_cons in H1 as [Hb Hrest]. repeat split; auto; apply Hb.
Qed.

Lemma afterQuanta_ok (c : Z) (t : TCB) (m : Machine) :
  tcb_ok t -> all_ok m -> all_ok (afterQuanta c t m).
Proof.
  intros Ht Hm. unfold afterQuanta.
  destruct c as [ | [ p | [ p | p | ] | ] | p]; try exact Hm.
  - now apply schedule_ok.
  - destruct Hm as (H1 & H2 & H3). repeat split; auto. machine_simpl.
    apply Forall_app. split; [exact H2 | now constructor].
  - set (m1 := set_pcbs _ m).
    assert (Hm1 : all_ok m1).
    { apply all_ok_pcbs_alter; [ | exact Hm]. auto. }
    clearbody m1.
    destruct (match pcbs m1 !! par t with Some _ => _ | None => _ end); [ | exact Hm1].
    unfold makeDead. destruct (_ =? _); exact Hm1.
Qed.

Lemma boot_ok sched stdin hp rs : all_ok (boot sched stdin hp rs).
Proof.
  repeat split; try constructor. cbn. intros c p Hl.
  rewrite lookup_empty in Hl. discriminate.
Qed.

Lemma Compile_loop_ok `{P : Platform} (n : nat) (im im' : gmap Z Z) (f f' : FILE) (c : Z)
    (tsmem : nat) (m m' : Machine) (ok : Z) :
  all_ok m ->
  Compile_loop n im f c tsmem m = Value (ok, im', f', m') -> all_ok m'.
Proof.
  revert im f c m. induction n as [ | n IH]; intros im f c m Hm; cbn [Compile_loop];
    [discriminate | ].
  destruct (feof f); [intros [= _ _ _ <-]; exact Hm | ].
  pose proof (createProcess_ok tsmem (Some tsmem) None c 0 None STACKSIZE m) as Hc.
  destruct (createProcess tsmem (Some tsmem) None c 0 None STACKSIZE m)
    as [[failed m1] | ]; [ | discriminate].
  assert (Hm1 : all_ok m1) by (apply Hc; [unfold STACKSIZE | unfold DMEM | ]; (lia || exact Hm)).
  set (m2 := if failed =? 0 then m1 else _).
  assert (Hm2 : all_ok m2) by (subst m2; destruct (failed =? 0); exact Hm1).
  clearbody m2.
  destruct (recCompile im f c BAD None) as [[np r] | | ]; try discriminate.
  destruct (np =? BAD); [intros [= _ _ _ <-]; exact Hm2 | ].
  destruct (_ =? 33); [intros [= _ _ _ <-]; exact Hm2 | ].
  apply IH. exact Hm2.
Qed.

Lemma loadFile_ok `{P : Platform} src sched stdin hp rs ok m :
  loadFile src (boot sched stdin hp rs) = Value (ok, m) -> all_ok m.
Proof.
  unfold loadFile, Compile.
  destruct (Compile_loop _ _ _ _ _ _) as [[[[ok' im] f] m1] | | ] eqn:E; try discriminate.
  apply Compile_loop_ok in E; [ | apply boot_ok].
  intros [= <- <-]. destruct (ok' =? 0); exact E.
Qed.

Lemma reach_ok `{P : Platform} (m0 : Machine) (o : option TCB) (m : Machine) :
  all_ok m0 -> reach m0 o m ->
  all_ok m /\ match o with Some t => tcb_ok t | None => True end.
Proof.
  intros H0.
  induction 1 as [ | m t m' quanta _ [IH _] Hn
                 | t m cost quanta t' cost' m' _ [IHm IHt] Hd
                 | t m _ [IHm IHt]
                 | t m cost quanta code t' m' _ [IHm IHt] Hd].
  - split; [exact H0 | exact I].
  - destruct (getNextThread_ok _ _ _ IH Hn) as [Ht Hm'].
    split; [ | exact Ht]. unfold turnQuanta.
    destruct (quanta <? 0); [ | exact Hm']. unfold rand.
    destruct (rands m'); exact Hm'.
  - destruct (dispatch_ok t m cost quanta IHt IHm) as [H1 H2].
    rewrite Hd in H1, H2. split; assumption.
  - split; [ | exact I]. now apply afterQuanta_ok.
  - destruct (dispatch_ok t m cost quanta IHt IHm) as [H1 H2].
    rewrite Hd in H1, H2. split; [ | exact I]. now apply afterQuanta_ok.
Qed.

(** The runs of [doQuanta] stay among the states of [reach]. *)
Lemma doQuanta_loop_reach `{P : Platform} (m0 : Machine) (fuel : nat)
    (forever : bool) (t t' : TCB) (cost quanta code : Z) (m m' : Machine) :
  reach m0 (Some t) m ->
  doQuanta_loop fuel forever t cost quanta m = Some (code, t', m') ->
  reach m0 None (afterQuanta code t' m').
Proof.
  revert t cost quanta m. induction fuel as [ | fuel IH]; intros t cost quanta m Hr;
    cbn [doQuanta_loop]; [discriminate | ].
  destruct (forever || (0 <? quanta)).
  - destruct (dispatch t cost quanta m) as [t1 c1 m1 | code1 t1 m1 | t1 m1] eqn:Hd.
    + apply IH. eapply reach_turn; eassumption.
    + intros [= <- <- <-]. eapply reach_return; eassumption.
    + discriminate.
  - intros [= <- <- <-]. now apply reach_timeout.
Qed.

(** *** The cells that a dispatch writes *)









(** ** Programs of one file *)

Lemma cell_set_cell (seg : nat) (i v : Z) (m : Machine) (mem : list Z) :
  segs m !! seg = Some mem -> (0 <= i < Z.of_nat (length mem)) ->
  cell (set_cell seg i v m) seg i = v.
Proof.
  intros Hs Hi. unfold cell, set_cell. machine_simpl.
  rewrite lookup_alter_eq, Hs. cbn. unfold peek, poke.
  rewrite !decide_True by lia.
  rewrite list_lookup_insert_eq by lia. reflexivity.
Qed.

Lemma dispatch_swap_to_parent `{P : Platform} (t : TCB) (m : Machine)
    (cost quanta : Z) (p : PCB) (pm : nat) :
  Z.land (word (Gimem m) (pc t)) IMASK = 126 ->
  pcbs m !! par t = Some p -> pmem p = Some pm -> cmem t <> pm ->
  dispatch t cost quanta m = Continue (set_cmem pm (set_pc (pc t + 1) t)) cost m.
Proof.
  intros Hop Hp Hpm Hne. unfold dispatch. rewrite Hop. cbv beta iota.
  cbn [set_pc par cmem]. rewrite Hp, Hpm.
  rewrite decide_False by congruence. reflexivity.
Qed.

Lemma dispatch_putc `{P : Platform} (t : TCB) (m : Machine) (cost quanta : Z) :
  let w := word (Gimem m) (pc t) in
  Z.land w IMASK = 46 ->
  dispatch t cost quanta m =
    Continue (set_pc (pc t + 1) t) cost
      (set_out (out m ++ replicate (Z.to_nat (Z.shiftr w SHIFT))
                           (PutC (cell m (cmem t) (dp t) mod 256))) m).
Proof. intros w Hop. unfold dispatch. fold w. rewrite Hop. reflexivity. Qed.

Lemma length_zeroed : Z.of_nat (length zeroed) = DMEM.
Proof.
  with_strategy transparent [zeroed] (unfold zeroed).
  rewrite length_replicate. unfold DMEM. lia.
Qed.

(** *** What [malloc] grants *)

Lemma malloc_fields (m : Machine) :
  pcbs (snd (malloc m)) = pcbs m /\ segs (snd (malloc m)) = segs m /\
  pListHead (snd (malloc m)) = pListHead m /\
  tListHead (snd (malloc m)) = tListHead m /\
  scheduler (snd (malloc m)) = scheduler m.
Proof. unfold malloc. destruct (heap m); repeat split. Qed.

Lemma malloc_grants (m : Machine) :
  Forall grants (heap m) ->
  (exists jp js, fst (malloc m) = Block jp js false) /\
  Forall grants (heap (snd (malloc m))).
Proof.
  intros H. unfold malloc. destruct (heap m) as [ | a h] eqn:Hh.
  - split; [now exists [], [] | ]. cbn [snd]. rewrite Hh. constructor.
  - apply Forall_cons in H as [(jp & js & ->) H].
    split; [now exists jp, js | exact H].
Qed.

(** With blocks granted, [createProcess] returns 0: there are a new
    process with a new segment, a copy of [copymem], and its thread. *)
Lemma createProcess_granted `{P : Platform} (copymem : nat)
    (npmem : option nat) (nprocs : option (list (option Z))) (npc ndp : Z)
    (ns : option (list Z)) (nsp : Z) (m : Machine) :
  Forall grants (heap m) ->
  exists c d t m',
    createProcess copymem npmem nprocs npc ndp ns nsp m = Some (0, m') /\
    pcbs m !! c = None /\ segs m !! d = None /\
    (par t, pc t, dp t, cmem t, sp t) = (c, npc, ndp, d, nsp) /\
    segs m' = <[d := default [] (segs m !! copymem)]> (segs m) /\
    pcbs m' =
      <[c := mkPCB (if scheduler m =? SCHEDULE_PROCESS then [t] else [])
                   npmem d 1]> (pcbs m) /\
    tListHead m' =
      (if scheduler m =? SCHEDULE_PROCESS then tListHead m
       else tListHead m ++ [t]) /\
    pListHead m' = pListHead m ++ [c] /\
    scheduler m' = scheduler m /\ Forall grants (heap m').
Proof.
  intros G0. unfold createProcess.
  destruct (malloc_grants m G0) as ((jp & js & E1) & G1).
  destruct (malloc_fields m) as (A1 & A2 & A3 & A4 & A5).
  destruct (malloc m) as [a m1]. cbn [fst snd] in *. subst a.
  pose proof (fresh_pcb_absent (pcbs m1)) as Hc.
  set (c := fresh (dom (pcbs m1))) in *. clearbody c.
  set (m1' := set_pcbs (<[c := mkPCB [] npmem 0%nat 0]> (pcbs m1)) m1).
  assert (G1' : Forall grants (heap m1')) by exact G1.
  destruct (malloc_grants m1' G1') as ((jp' & js' & E2) & G2).
  destruct (malloc_fields m1') as (B1 & B2 & B3 & B4 & B5).
  destruct (malloc m1') as [a m2]. cbn [fst snd] in *. subst a.
  pose proof (fresh_seg_absent (segs m2)) as Hd.
  set (d := fresh (dom (segs m2))) in *. clearbody d.
  set (m3 := set_pcbs (<[c := mkPCB [] npmem d 0]> (pcbs m2))
               (set_segs (<[d := []]> (segs m2)) m2)).
  assert (G3 : Forall grants (heap m3)) by exact G2.
  unfold createThread.
  destruct (malloc_grants m3 G3) as ((jp3 & js3 & E3) & G4).
  destruct (malloc_fields m3) as (C1 & C2 & C3 & C4 & C5).
  destruct (malloc m3) as [a m4]. cbn [fst snd] in *. subst a.
  cbn [andb].
  match goal with
  | |- context [schedule ?x _] => set (t := x)
  end.
  assert (S2 : segs m2 = segs m) by (rewrite B2; exact A2).
  assert (P2 : pcbs m2 = <[c := mkPCB [] npmem 0%nat 0]> (pcbs m)).
  { rewrite B1. subst m1'. cbn [pcbs set_pcbs]. now rewrite A1. }
  assert (Sc4 : scheduler m4 = scheduler m).
  { rewrite C5. subst m3. cbn [scheduler set_pcbs set_segs].
    rewrite B5. exact A5. }
  assert (P4 : pcbs m4 = <[c := mkPCB [] npmem d 0]> (pcbs m)).
  { rewrite C1. subst m3. cbn [pcbs set_pcbs set_segs].
    rewrite P2. apply insert_insert_eq. }
  assert (S4 : segs m4 = <[d := []]> (segs m)).
  { rewrite C2. subst m3. cbn [segs set_pcbs set_segs]. now rewrite S2. }
  assert (T4 : tListHead m4 = tListHead m).
  { rewrite C4. subst m3. cbn [tListHead set_pcbs set_segs].
    rewrite B4. exact A4. }
  assert (L4 : pListHead m4 = pListHead m).
  { rewrite C3. subst m3. cbn [pListHead set_pcbs set_segs].
    rewrite B3. exact A3. }
  clearbody m3. clear m1' G1' B1 B2 B3 B4 B5 C1 C2 C3 C4 C5 G3 P2.
  exists c, d, t. eexists. split; [reflexivity | ].
  split; [now rewrite <- A1 | ]. split; [now rewrite <- S2 | ].
  split; [reflexivity | ].
  unfold schedule. cbn [scheduler set_pcbs]. rewrite Sc4.
  destruct (scheduler m =? SCHEDULE_PROCESS);
    cbn [segs pcbs tListHead pListHead scheduler heap set_segs set_pcbs
         set_pList set_tList];
    rewrite ?S4, ?P4, ?T4, ?L4, ?Sc4.
  - split.
    { rewrite insert_insert_eq. f_equal.
      destruct (decide (copymem = d)) as [-> | Hne].
      - rewrite lookup_insert_eq. rewrite <- S2, Hd. reflexivity.
      - now rewrite lookup_insert_ne. }
    split.
    { apply map_eq. intros k. destruct (decide (c = k)) as [<- | Hne].
      - rewrite !lookup_alter_eq, !lookup_insert_eq. reflexivity.
      - rewrite !lookup_alter_ne, !lookup_insert_ne by done. reflexivity. }
    repeat split; auto.
  - split.
    { rewrite insert_insert_eq. f_equal.
      destruct (decide (copymem = d)) as [-> | Hne].
      - rewrite lookup_insert_eq. rewrite <- S2, Hd. reflexivity.
      - now rewrite lookup_insert_ne. }
    split.
    { apply map_eq. intros k. destruct (decide (c = k)) as [<- | Hne].
      - rewrite !lookup_alter_eq, !lookup_insert_eq. reflexivity.
      - rewrite !lookup_alter_ne, !lookup_insert_ne by done. reflexivity. }
    repeat split; auto.
Qed.

(** *** What a run leaves in place *)

Lemma length_poke (mem : list Z) (i v : Z) : length (poke mem i v) = length mem.
Proof. unfold poke. destruct (decide _); [apply length_insert | reflexivity]. Qed.

Lemma same_layout_refl (m : Machine) : same_layout m m.
Proof. split; eauto. Qed.

Lemma same_layout_trans (m1 m2 m3 : Machine) :
  same_layout m1 m2 -> same_layout m2 m3 -> same_layout m1 m3.
Proof.
  intros [S1 P1] [S2 P2]. split.
  - intros seg mem H. destruct (S1 _ _ H) as (mem1 & H1 & L1).
    destruct (S2 _ _ H1) as (mem2 & H2 & L2). exists mem2.
    split; [exact H2 | congruence].
  - intros pid p H. destruct (P1 _ _ H) as (p1 & H1 & A1 & B1).
    destruct (P2 _ _ H1) as (p2 & H2 & A2 & B2). exists p2.
    split; [exact H2 | split; congruence].
Qed.

Lemma same_layout_frame (m m' : Machine) :
  segs m' = segs m -> pcbs m' = pcbs m -> same_layout m m'.
Proof. intros Hs Hp. unfold same_layout. rewrite Hs, Hp. split; eauto. Qed.

Lemma same_layout_set_cell (seg : nat) (i v : Z) (m : Machine) :
  same_layout m (set_cell seg i v m).
Proof.
  split; [ | eauto]. intros s mem H. unfold set_cell. cbn [segs set_segs].
  destruct (decide (seg = s)) as [<- | Hne].
  - rewrite lookup_alter_eq, H. eexists. split; [reflexivity | ].
    apply length_poke.
  - rewrite lookup_alter_ne by exact Hne. eauto.
Qed.

Lemma same_layout_alter (f : PCB -> PCB) (c : nat) (m : Machine) :
  (forall p, pmem (f p) = pmem p /\ dmem (f p) = dmem p) ->
  same_layout m (set_pcbs (alter f c (pcbs m)) m).
Proof.
  intros Hf. split; [eauto | ]. intros pid p H. cbn [pcbs set_pcbs].
  destruct (decide (c = pid)) as [<- | Hne].
  - rewrite lookup_alter_eq, H. eexists. split; [reflexivity | apply Hf].
  - rewrite lookup_alter_ne by exact Hne. eauto.
Qed.

Lemma schedule_layout (t : TCB) (m : Machine) : same_layout m (schedule t m).
Proof.
  unfold schedule. destruct (_ =? _).
  - apply same_layout_alter. intros p. split; reflexivity.
  - now apply same_layout_frame.
Qed.

Lemma malloc_layout (m : Machine) : same_layout m (snd (malloc m)).
Proof.
  destruct (malloc_fields m) as (H1 & H2 & _). now apply same_layout_frame.
Qed.

Lemma createThread_layout `{P : Platform} npar pr npc ndp ncmem ns nsp
    (m : Machine) :
  same_layout m (snd (createThread npar pr npc ndp ncmem ns nsp m)).
Proof.
  unfold createThread. pose proof (malloc_layout m) as H.
  destruct (malloc m) as [[ | jp js jr] m1]; cbn [snd] in *; [exact H | ].
  apply (same_layout_trans _ _ _ H).
  eapply same_layout_trans; [ | apply schedule_layout].
  apply same_layout_alter. intros p. split; reflexivity.
Qed.

Lemma checkSemaphores_layout (mem : nat) (ptr : Z) (m : Machine) :
  same_layout m (checkSemaphores mem ptr m).
Proof.
  unfold checkSemaphores.
  destruct (firstWaiter mem ptr (sListHead m)) as [[t rest] | ];
    [ | apply same_layout_refl].
  eapply same_layout_trans; [ | apply schedule_layout].
  now apply same_layout_frame.
Qed.

Lemma wakeLoop_layout (n : nat) (mem : nat) (ptr : Z) (m : Machine) :
  same_layout m (wakeLoop n mem ptr m).
Proof.
  revert m. induction n as [ | n IH]; intros m; [apply same_layout_refl | ].
  cbn [wakeLoop]. eapply same_layout_trans; [ | apply IH].
  destruct (sListHead m); [apply same_layout_refl | ].
  apply checkSemaphores_layout.
Qed.

Lemma createProcess_layout `{P : Platform} copymem npmem nprocs npc ndp ns
    nsp (m : Machine) :
  match createProcess copymem npmem nprocs npc ndp ns nsp m with
  | Some (_, m') => same_layout m m'
  | None => True
  end.
Proof.
  unfold createProcess. pose proof (malloc_layout m) as H1.
  destruct (malloc_fields m) as (A1 & A2 & _).
  destruct (malloc m) as [[ | jp js jr] m1]; cbn [snd] in *; [exact H1 | ].
  pose proof (fresh_pcb_absent (pcbs m1)) as Hc.
  set (c := fresh (dom (pcbs m1))) in *. clearbody c.
  set (m1' := set_pcbs (<[c := mkPCB [] npmem 0%nat 0]> (pcbs m1)) m1).
  destruct (malloc_fields m1') as (B1 & B2 & _).
  destruct (malloc m1') as [[ | jp' js' jr'] m2]; cbn [snd] in *.
  { apply same_layout_frame; cbn [segs pcbs set_pcbs].
    - now rewrite B2.
    - rewrite B1. subst m1'. cbn [pcbs set_pcbs].
      rewrite delete_insert_id by exact Hc. exact A1. }
  assert (S2 : segs m2 = segs m) by (now rewrite B2).
  assert (P2 : pcbs m2 = <[c := mkPCB [] npmem 0%nat 0]> (pcbs m)).
  { rewrite B1. subst m1'. cbn [pcbs set_pcbs]. now rewrite A1. }
  rewrite A1 in Hc. clear H1 A1 A2 B1 B2. clearbody m1'.
  pose proof (fresh_seg_absent (segs m2)) as Hd.
  set (d := fresh (dom (segs m2))) in *. clearbody d. rewrite S2 in Hd.
  set (m3 := set_pcbs (<[c := mkPCB [] npmem d 0]> (pcbs m2))
               (set_segs (<[d := []]> (segs m2)) m2)).
  assert (H3 : same_layout m m3).
  { subst m3. split; cbn [segs pcbs set_pcbs set_segs].
    - intros seg mem H. rewrite S2, lookup_insert_ne; [eauto | ].
      intros ->. congruence.
    - intros pid p H. rewrite P2, insert_insert_eq, lookup_insert_ne;
        [eauto | ]. intros ->. congruence. }
  assert (Hc3 : forall pid p, pcbs m !! pid = Some p -> pid <> c)
    by (intros pid p H ->; congruence).
  assert (Hd3 : forall seg mem, segs m !! seg = Some mem -> seg <> d)
    by (intros seg mem H ->; congruence).
  clearbody m3.
  pose proof (createThread_layout c nprocs npc ndp d ns nsp m3) as H4.
  destruct (createThread c nprocs npc ndp d ns nsp m3) as [r m4].
  cbn [snd] in H4. pose proof (same_layout_trans _ _ _ H3 H4) as [S4 P4].
  assert (Hdel : same_layout m
                   (set_pcbs (delete c (pcbs m4))
                      (set_segs (delete d (segs m4)) m4))).
  { split; cbn [segs pcbs set_pcbs set_segs].
    - intros seg mem H. rewrite lookup_delete_ne by (symmetry; eauto). eauto.
    - intros pid p H. rewrite lookup_delete_ne by (symmetry; eauto). eauto. }
  destruct r as [ | r | r]; [ | exact Hdel | exact Hdel].
  destruct (jr && _); [exact I | ].
  split; cbn [segs pcbs set_pcbs set_segs set_pList].
  - intros seg mem H. rewrite lookup_insert_ne by (symmetry; eauto). eauto.
  - eauto.
Qed.

(** A turn of the loop of [doQuanta] leaves the segments and the
    processes in place. *)
Lemma dispatch_layout `{P : Platform} (me : TCB) (m : Machine)
    (cost quanta : Z) :
  same_layout m (machine_of (dispatch me cost quanta m)).
Proof.
  set (m2 := set_cell (cmem me) (Z.land (dp me + 1) DMASK) 1
               (set_cell (cmem me) (dp me) 0 m)).
  assert (H2 : same_layout m m2).
  { subst m2. eapply same_layout_trans; apply same_layout_set_cell. }
  pose proof (createThread_layout (par me) (Some (procs me)) (pc me + 1)
                (Z.land (dp me + 1) DMASK) (cmem me) (Some (stack me))
                (sp me) m2) as HcT.
  pose proof (createProcess_layout (cmem me)
                (par_dmem (set_pc (pc me + 1) me) m2)
                (Some (procs me)) (pc me + 1)
                (Z.land (dp me + 1) DMASK) (Some (stack me)) (sp me)
                m2) as HcP.
  assert (Hset : forall v m1, same_layout m m1 ->
                   same_layout m (set_cell (cmem me) (dp me) v m1)).
  { intros v m1 H. eapply same_layout_trans; [exact H | ].
    apply same_layout_set_cell. }
  assert (Hset' : forall v m1, same_layout m m1 ->
                   same_layout m
                     (set_cell (cmem me) (Z.land (dp me + 1) DMASK) v m1)).
  { intros v m1 H. eapply same_layout_trans; [exact H | ].
    apply same_layout_set_cell. }
  assert (Hfr : forall m1, segs m1 = segs m -> pcbs m1 = pcbs m ->
                  same_layout m m1) by (intros; now apply same_layout_frame).
  unfold dispatch.
  cbn [set_pc pc dp cmem par procs stack sp] in *. fold m2.
  destruct (Z.land (word (Gimem m) (pc me)) IMASK) as [ | p | p].
  - cbv beta iota. repeat case_match; cbn [machine_of];
      first [apply same_layout_refl | apply Hfr; reflexivity].
  - by_opcode p.
    all: try (repeat case_match; cbn [machine_of snd] in *;
              first [ apply same_layout_refl
                    | apply Hset; first [apply same_layout_refl
                                        | apply Hfr; reflexivity]
                    | apply Hfr; reflexivity
                    | exact H2
                    | eapply same_layout_trans; [exact H2 | eassumption]
                    | apply Hset';
                      eapply same_layout_trans; [exact H2 | eassumption] ];
              fail).
    all: try (cbn [machine_of]; eapply same_layout_trans;
              [ | apply wakeLoop_layout]; apply same_layout_set_cell).
    all: try (destruct (createThread _ _ _ _ _ _ _ m2) as [z m3];
              cbn [snd] in HcT;
              destruct z; cbn [machine_of]; try apply Hset';
              eapply same_layout_trans; eassumption).
  - cbv beta iota. repeat case_match; cbn [machine_of];
      first [apply same_layout_refl | apply Hfr; reflexivity].
Qed.

Lemma firstReady_segs (n : nat) (m : Machine) :
  segs (snd (firstReady n m)) = segs m.
Proof.
  revert m. induction n as [ | n IH]; intros m; cbn [firstReady];
    [reflexivity | ].
  destruct (pListHead m) as [ | a rest]; [reflexivity | ].
  destruct (ready_of m a); [ | reflexivity].
  now rewrite IH.
Qed.

Lemma getNextThread_layout (m : Machine) :
  same_layout m (snd (getNextThread m)).
Proof.
  unfold getNextThread. destruct (scheduler m =? SCHEDULE_PROCESS).
  - set (m1 := match lp m with Some _ => _ | None => m end).
    assert (H1 : segs m1 = segs m /\ pcbs m1 = pcbs m).
    { subst m1. destruct (lp m); [ | now split].
      destruct (match pcbs m !! n with Some _ => _ | None => _ end);
        now split. }
    destruct H1 as [S1 P1]. clearbody m1.
    destruct (deadLocked m1); [now apply same_layout_frame | ].
    destruct (firstReady_frame (length (pListHead m1)) m1) as (F1 & _).
    pose proof (firstReady_segs (length (pListHead m1)) m1) as F2.
    destruct (firstReady (length (pListHead m1)) m1) as [[a | ] m2];
      cbn [snd] in *.
    + assert (H2 : same_layout m m2)
        by (apply same_layout_frame; congruence).
      destruct (ready_of m2 a) as [ | b rest]; cbn [snd].
      * eapply same_layout_trans; [exact H2 | ]. now apply same_layout_frame.
      * eapply same_layout_trans; [exact H2 | ].
        eapply same_layout_trans;
          [apply (same_layout_alter (set_readyList rest) a m2);
           intros p; split; reflexivity | ].
        now apply same_layout_frame.
    + apply same_layout_frame; congruence.
  - destruct (tListHead m); cbn [snd]; now apply same_layout_frame.
Qed.

Lemma afterQuanta_layout (c : Z) (t : TCB) (m : Machine) :
  same_layout m (afterQuanta c t m).
Proof.
  unfold afterQuanta.
  destruct c as [ | [ p | [ p | p | ] | ] | p]; try apply same_layout_refl.
  - apply schedule_layout.
  - now apply same_layout_frame.
  - set (m1 := set_pcbs _ m).
    assert (H1 : same_layout m m1).
    { apply same_layout_alter. intros p. split; reflexivity. }
    clearbody m1.
    destruct (match pcbs m1 !! par t with Some _ => _ | None => _ end);
      [ | exact H1].
    eapply same_layout_trans; [exact H1 | ].
    unfold makeDead. destruct (_ =? _);
      [now apply same_layout_frame | apply same_layout_refl].
Qed.

Lemma reach_layout `{P : Platform} (m0 : Machine) (o : option TCB)
    (m : Machine) :
  reach m0 o m -> same_layout m0 m.
Proof.
  induction 1 as [ | m t m' quanta _ IH Hn
                 | t m cost quanta t' cost' m' _ IH Hd
                 | t m _ IH
                 | t m cost quanta code t' m' _ IH Hd].
  - apply same_layout_refl.
  - pose proof (getNextThread_layout m) as H. rewrite Hn in H. cbn [snd] in H.
    eapply same_layout_trans; [exact IH | ].
    eapply same_layout_trans; [exact H | ].
    unfold turnQuanta. destruct (quanta <? 0); [ | apply same_layout_refl].
    unfold rand. destruct (rands m'); cbn [snd];
      now apply same_layout_frame.
  - pose proof (dispatch_layout t m cost quanta) as H. rewrite Hd in H.
    eapply same_layout_trans; eassumption.
  - eapply same_layout_trans; [exact IH | apply afterQuanta_layout].
  - pose proof (dispatch_layout t m cost quanta) as H. rewrite Hd in H.
    eapply same_layout_trans; [exact IH | ].
    eapply same_layout_trans; [exact H | apply afterQuanta_layout].
Qed.

(** *** The processes of the programs *)

Lemma runs_program_frame (m m' : Machine) (pid : nat) (c : Z) :
  pcbs m' = pcbs m -> tListHead m' = tListHead m ->
  scheduler m' = scheduler m ->
  (forall seg, seg <> Gsmem -> segs m' !! seg = segs m !! seg) ->
  runs_program m pid c -> runs_program m' pid c.
Proof.
  intros Hp Ht Hs Hg (p & t & H1 & H2 & H3 & H4 & H5).
  exists p, t. rewrite Hp, Ht, Hs, Hg by exact H3. auto.
Qed.

(** The turn of the loop of [Compile] that starts a program gives it a
    process, and leaves the processes of the programs before it as they
    are. *)
Lemma createProcess_spawns `{P : Platform} (npc : Z) (m : Machine) :
  Forall grants (heap m) -> is_Some (segs m !! Gsmem) ->
  exists c m',
    createProcess Gsmem (Some Gsmem) None npc 0 None STACKSIZE m
      = Some (0, m') /\
    pcbs m !! c = None /\ pListHead m' = pListHead m ++ [c] /\
    runs_program m' c npc /\
    (forall pid c0, runs_program m pid c0 -> runs_program m' pid c0) /\
    (forall pid, is_Some (pcbs m !! pid) -> is_Some (pcbs m' !! pid)) /\
    is_Some (pcbs m' !! c) /\
    segs m' !! Gsmem = segs m !! Gsmem /\ Forall grants (heap m').
Proof.
  intros G [g Hg].
  destruct (createProcess_granted Gsmem (Some Gsmem) None npc 0 None STACKSIZE
              m G)
    as (c & d & t & m' & Hcp & Hc & Hd & Ht & Hs & Hp & Htl & Hpl & Hsc & G').
  injection Ht as T1 T2 T3 T4 T5.
  assert (Hdg : d <> Gsmem) by (intros ->; congruence).
  exists c, m'. split; [exact Hcp | ]. split; [exact Hc | ].
  split; [exact Hpl | ]. split; [ | split; [ | split; [ | split; [ | split]]]].
  - exists (mkPCB (if scheduler m =? SCHEDULE_PROCESS then [t] else [])
                  (Some Gsmem) d 1), t.
    cbn [pmem dmem threads readyList].
    rewrite Hp, Hs, Hsc, Htl, !lookup_insert_eq.
    split; [reflexivity | ]. split; [reflexivity | ]. split; [exact Hdg | ].
    split; [now eexists | ]. split; [reflexivity | ].
    split; [exact T1 | ]. split; [exact T2 | ]. split; [exact T3 | ].
    split; [exact T4 | ]. split; [exact T5 | ].
    destruct (scheduler m =? SCHEDULE_PROCESS); [reflexivity | ].
    apply elem_of_app. right. now left.
  - intros pid c0 (p & t0 & H1 & H2 & H3 & [x H4] & H5 & H6).
    exists p, t0. rewrite Hp, Hs, Hsc, Htl.
    rewrite lookup_insert_ne by (intros ->; congruence).
    rewrite lookup_insert_ne by (intros E; rewrite <- E in H4; congruence).
    split; [exact H1 | ]. split; [exact H2 | ]. split; [exact H3 | ].
    split; [now exists x | ]. split; [exact H5 | ].
    destruct H6 as (A1 & A2 & A3 & A4 & A5 & A6).
    repeat (split; [assumption | ]).
    destruct (scheduler m =? SCHEDULE_PROCESS); [exact A6 | ].
    apply elem_of_app. now left.
  - intros pid [p Hpid]. rewrite Hp.
    rewrite lookup_insert_ne by (intros ->; congruence). now exists p.
  - rewrite Hp, lookup_insert_eq. now eexists.
  - rewrite Hs. now rewrite lookup_insert_ne.
  - exact G'.
Qed.

Lemma Compile_loop_programs `{P : Platform} (n : nat) (im : gmap Z Z)
    (f : FILE) (c : Z) (m : Machine) (ok : Z) (im' : gmap Z Z) (f' : FILE)
    (m' : Machine) :
  Forall grants (heap m) -> is_Some (segs m !! Gsmem) ->
  NoDup (pListHead m) ->
  (forall pid, pid ∈ pListHead m -> is_Some (pcbs m !! pid)) ->
  Compile_loop n im f c Gsmem m = Value (ok, im', f', m') ->
  exists new,
    pListHead m' = pListHead m ++ new /\ NoDup (pListHead m') /\
    Forall2 (runs_program m') new (program_starts n im f c) /\
    (forall pid c0, runs_program m pid c0 -> runs_program m' pid c0) /\
    segs m' !! Gsmem = segs m !! Gsmem.
Proof.
  revert im f c m.
  induction n as [ | n IH]; intros im f c m G Hg Hnd Hin;
    cbn [Compile_loop program_starts]; [intros Hr; discriminate Hr | ].
  destruct (feof f).
  { intros [= _ _ _ <-]. exists []. rewrite app_nil_r.
    split; [reflexivity | ]. split; [exact Hnd | ].
    split; [constructor | ]. split; [auto | reflexivity]. }
  destruct (createProcess_spawns c m G Hg)
    as (c0 & m1 & -> & Hc0 & Hpl & Hnew & Hold & Hdom & Hc1 & Hs1 & G1).
  change (0 =? 0) with true. cbv iota.
  assert (Hnd1 : NoDup (pListHead m1)).
  { rewrite Hpl. apply NoDup_app. split; [exact Hnd | ].
    split; [ | apply NoDup_singleton].
    intros x Hx Hx'. apply list_elem_of_singleton in Hx'. subst x.
    destruct (Hin c0 Hx) as [p Hp]. congruence. }
  assert (Hin1 : forall pid, pid ∈ pListHead m1 -> is_Some (pcbs m1 !! pid)).
  { intros pid Hpid. rewrite Hpl in Hpid.
    apply elem_of_app in Hpid as [Hpid | Hpid]; [auto | ].
    apply list_elem_of_singleton in Hpid. now subst pid. }
  assert (Hg1 : is_Some (segs m1 !! Gsmem)) by (now rewrite Hs1).
  assert (Hone : forall m2,
             pcbs m2 = pcbs m1 -> tListHead m2 = tListHead m1 ->
             scheduler m2 = scheduler m1 -> segs m2 = segs m1 ->
             pListHead m2 = pListHead m1 ->
             exists new,
               pListHead m2 = pListHead m ++ new /\ NoDup (pListHead m2) /\
               Forall2 (runs_program m2) new [c] /\
               (forall pid c1, runs_program m pid c1 -> runs_program m2 pid c1)
               /\ segs m2 !! Gsmem = segs m !! Gsmem).
  { intros m2 E1 E2 E3 E4 E5.
    assert (Hfr : forall pid c1, runs_program m1 pid c1 ->
                                 runs_program m2 pid c1).
    { intros pid c1. apply runs_program_frame; auto. intros. now rewrite E4. }
    exists [c0]. rewrite E5, E4. split; [exact Hpl | ].
    split; [exact Hnd1 | ]. split; [ | split; [auto | exact Hs1]].
    constructor; [now apply Hfr | constructor]. }
  destruct (recCompile im f c BAD None) as [[np r] | | ];
    try (intros Hr; discriminate Hr).
  destruct (np =? BAD); cbn [orb].
  { intros [= _ _ _ <-]. now apply Hone. }
  destruct (word (mimem r) (np - 1) =? 33).
  { intros [= _ _ _ <-]. now apply Hone. }
  intros Hrun.
  destruct (IH _ _ _ m1 G1 Hg1 Hnd1 Hin1 Hrun)
    as (new & E1 & E2 & E3 & E4 & E5).
  exists (c0 :: new). split; [now rewrite E1, Hpl, <- app_assoc | ].
  split; [exact E2 | ].
  split; [ | split; [auto | now rewrite E5]].
  constructor; [now apply E4 | exact E3].
Qed.

(** C4: in the global data that a file leaves when it is loaded (the
    blocks asked of [malloc] granted, those of the PCBs with NULL for
    ready list), the process list has one process for each program that
    [Compile] started, in their order: the process has the system segment
    [Gsmem] for parent segment and another segment for data segment, and
    one thread, scheduled, which starts at the first word of the program
    in the data segment of the process.  In every state of a run from
    there the system segment is there with its [DMEM] cells and these
    processes have it for parent segment; a thread of such a process that
    executes [~] from another segment goes on in [Gsmem]; and when the
    running thread, its current segment being [Gsmem], adds to a cell, a
    thread whose current segment is [Gsmem] and whose data pointer is on
    the same cell outputs the new value with its next [.]. *)
Theorem programs_share_the_system_segment `{P : Platform} (src : list Z)
    (sched : Z) (stdin : list Z) (hp : list alloc) (rs : list Z) (ok : Z)
    (m : Machine) :
  Forall grants hp ->
  loadFile src (boot sched stdin hp rs) = Value (ok, m) ->
  (NoDup (pListHead m) /\
   Forall2 (runs_program m) (pListHead m)
     (program_starts (S (S (length src))) ∅ (fopen src) 0)) /\
  forall o m1, reach m o m1 ->
    (exists mem, segs m1 !! Gsmem = Some mem /\
                 Z.of_nat (length mem) = DMEM) /\
    (forall pid c, runs_program m pid c ->
       exists p, pcbs m1 !! pid = Some p /\
                 pmem p = Some Gsmem /\ dmem p <> Gsmem) /\
    (forall t p cost quanta,
       Z.land (word (Gimem m1) (pc t)) IMASK = 126 ->
       pcbs m1 !! par t = Some p -> pmem p = Some Gsmem ->
       cmem t <> Gsmem ->
       dispatch t cost quanta m1 =
         Continue (set_cmem Gsmem (set_pc (pc t + 1) t)) cost m1) /\
    (forall t1 t2 cost1 quanta1 cost2 quanta2,
       o = Some t1 ->
       let n := Z.shiftr (word (Gimem m1) (pc t1)) SHIFT in
       let k := Z.shiftr (word (Gimem m1) (pc t2)) SHIFT in
       Z.land (word (Gimem m1) (pc t1)) IMASK = 43 ->
       Z.land (word (Gimem m1) (pc t2)) IMASK = 46 ->
       cmem t1 = Gsmem -> cmem t2 = Gsmem -> dp t2 = dp t1 ->
       let m2 := machine_of (dispatch t1 cost1 quanta1 m1) in
       out (machine_of (dispatch t2 cost2 quanta2 m2)) =
         out m1 ++
         replicate (Z.to_nat k)
           (PutC (to_char (cell m1 Gsmem (dp t1) + n) mod 256))).
Proof.
  intros G Hl. pose proof (loadFile_ok _ _ _ _ _ _ _ Hl) as Hok.
  unfold loadFile, Compile in Hl.
  destruct (Compile_loop _ _ _ _ _ _) as [[[[ok' im] f] m1] | | ] eqn:E;
    try discriminate Hl.
  injection Hl as -> Hm.
  assert (B1 : is_Some (segs (boot sched stdin hp rs) !! Gsmem)).
  { cbn [segs boot]. rewrite lookup_singleton_eq. eauto. }
  assert (B2 : NoDup (pListHead (boot sched stdin hp rs)))
    by apply NoDup_nil_2.
  assert (B3 : forall pid, pid ∈ pListHead (boot sched stdin hp rs) ->
                           is_Some (pcbs (boot sched stdin hp rs) !! pid)).
  { intros pid Hp. cbn [pListHead boot] in Hp.
    apply not_elem_of_nil in Hp. destruct Hp. }
  destruct (Compile_loop_programs _ _ _ _ (boot sched stdin hp rs) _ _ _ _
              G B1 B2 B3 E)
    as (new & E1 & E2 & E3 & _ & E5).
  clear B1 B2 B3.
  cbn [pListHead boot app] in E1.
  change (segs (boot sched stdin hp rs) !! Gsmem) with
    (({[Gsmem := zeroed]} : gmap nat (list Z)) !! Gsmem) in E5.
  rewrite lookup_singleton_eq in E5.
  assert (Hfr : forall pid c, runs_program m1 pid c -> runs_program m pid c).
  { intros pid c. subst m. apply runs_program_frame;
      destruct (ok =? 0); try reflexivity.
    intros seg Hne. unfold memsetGsmem. cbn [segs set_segs set_Gimem].
    now rewrite lookup_insert_ne by congruence. }
  assert (Hpl : pListHead m = pListHead m1)
    by (subst m; now destruct (ok =? 0)).
  assert (Hg : segs m !! Gsmem = Some zeroed).
  { subst m. destruct (ok =? 0); [exact E5 | ].
    unfold memsetGsmem. cbn [segs set_segs set_Gimem].
    apply lookup_insert_eq. }
  split.
  { rewrite Hpl. split; [exact E2 | ]. rewrite E1.
    change (Gimem (boot sched stdin hp rs)) with (∅ : gmap Z Z) in E3.
    change (bytes (fopen src)) with src in E3.
    eapply Forall2_impl; [exact E3 | ]. intros pid c. apply Hfr. }
  intros o m2 Hr.
  destruct (reach_layout _ _ _ Hr) as [LS LP].
  destruct (reach_ok _ _ _ Hok Hr) as [Hm2 Ht].
  destruct (LS _ _ Hg) as (mem & Hmem & Hlen).
  split; [ | split; [ | split]].
  - exists mem. split; [exact Hmem | ]. rewrite Hlen. apply length_zeroed.
  - intros pid c (p & t & H1 & H2 & H3 & _).
    destruct (LP _ _ H1) as (p' & H1' & H2' & H3'). exists p'.
    split; [exact H1' | ]. split; congruence.
  - intros t p cost quanta Hop Hp Hpm Hne.
    now apply (dispatch_swap_to_parent t m2 cost quanta p Gsmem).
  - intros t1 t2 cost1 quanta1 cost2 quanta2 -> n k Hop1 Hop2 Hc1 Hc2 Hdp m3.
    subst m3 n k.
    pose proof (dispatch_plus t1 m2 cost1 quanta1 Hop1) as H1. cbv zeta in H1.
    rewrite H1. clear H1.
    change (machine_of (Continue ?a ?b ?c)) with c.
    set (m3 := set_cell _ _ _ m2).
    assert (Hop2' : Z.land (word (Gimem m3) (pc t2)) IMASK = 46) by exact Hop2.
    pose proof (dispatch_putc t2 m3 cost2 quanta2 Hop2') as H2. cbv zeta in H2.
    rewrite H2. clear H2.
    change (out (machine_of (Continue ?a ?b (set_out ?x ?c)))) with x.
    change (out m3) with (out m2). change (Gimem m3) with (Gimem m2).
    subst m3. rewrite Hc2, Hdp, Hc1.
    rewrite (cell_set_cell Gsmem _ _ m2 mem Hmem); [reflexivity | ].
    destruct Ht as [_ Hd]. rewrite Hlen, length_zeroed. exact Hd.
Qed.

Lemma programs_share_the_system_segment_witness :
  match @loadFile (LP64 true) (text "~+++@~.")
          (boot SCHEDULE_PROCESS [] [] []) with
  | Value (_, m) =>
      exists p q, pListHead m = [p; q] /\ p <> q /\
                  runs_program m p 0 /\ runs_program m q 3
  | Fuel | Fault => False
  end.
Proof.
  assert (Hrun :
    match @loadFile (LP64 true) (text "~+++@~.")
            (boot SCHEDULE_PROCESS [] [] []) with
    | Value _ => true
    | Fuel | Fault => false
    end = true) by (vm_compute; reflexivity).
  destruct (@loadFile (LP64 true) (text "~+++@~.")
              (boot SCHEDULE_PROCESS [] [] [])) as [[ok m] | | ] eqn:Hl;
    [ | discriminate Hrun | discriminate Hrun].
  destruct (@programs_share_the_system_segment (LP64 true) _ _ _ _ _ _ _
              (Forall_nil_2 grants) Hl) as [[Hnd Hall] _].
  assert (Hs : program_starts (S (S (length (text "~+++@~.")))) ∅
                 (fopen (text "~+++@~.")) 0 = [0; 3])
    by (vm_compute; reflexivity).
  rewrite Hs in Hall.
  destruct (pListHead m) as [ | p [ | q [ | x l]]];
    try (exfalso; inversion Hall as [ | ? ? ? ? ? Hall1]; subst;
         try inversion Hall1 as [ | ? ? ? ? ? Hall2]; subst;
         try inversion Hall2; fail).
  exists p, q. split; [reflexivity | ].
  apply Forall2_cons in Hall as [Hp Hall].
  apply Forall2_cons in Hall as [Hq _].
  split; [ | split; assumption].
  apply NoDup_cons in Hnd as [Hnd _]. intros ->. apply Hnd. now left.
Defined.

(** The file [~+++@~.]: the first program goes to the system segment and
    leaves 3 in its first cell, the second program goes there too and
    prints the cell.  Under either scheduler with the default quantum the
    output is the byte 3, and both processes have ended. *)
Lemma sentinel_example `{P : Platform} (sched : Z) :
  sched = SCHEDULE_PROCESS \/ sched = SCHEDULE_THREAD ->
  match runFile 20 DEFAULTQUANTA (text "~+++@~.") (boot sched [] [] []) with
  | Some m => out m = [PutC 3] /\ length (dpListHead m) = 2%nat
  | None => False
  end.
Proof.
  destruct P as [[ | ] si sp]; intros [-> | ->]; vm_compute; split; reflexivity.
Qed.

(** The file [+++@.]: without [~] each program works on the data segment
    of its own process, a copy of the system segment; the second program
    prints 0. *)
Lemma private_segments_example `{P : Platform} (sched : Z) :
  sched = SCHEDULE_PROCESS \/ sched = SCHEDULE_THREAD ->
  match runFile 20 DEFAULTQUANTA (text "+++@.") (boot sched [] [] []) with
  | Some m => out m = [PutC 0]
  | None => False
  end.
Proof.
  destruct P as [[ | ] si sp]; intros [-> | ->]; vm_compute; reflexivity.
Qed.

(** ** The clear loop *)

Lemma dispatch_open `{P : Platform} (t : TCB) (m : Machine) (cost quanta : Z) :
  let w := word (Gimem m) (pc t) in
  Z.land w IMASK = 91 ->
  dispatch t cost quanta m =
    Continue (if cell m (cmem t) (dp t) =? 0
              then set_pc (pc t + 1 + Z.shiftr w SHIFT) t
              else set_pc (pc t + 1) t) cost m.
Proof.
  intros w Hop. unfold dispatch. fold w. rewrite Hop. cbv beta iota.
  cbn [set_pc pc cmem dp]. destruct (_ =? 0); reflexivity.
Qed.

Lemma dispatch_close `{P : Platform} (t : TCB) (m : Machine) (cost quanta : Z) :
  let w := word (Gimem m) (pc t) in
  Z.land w IMASK = 93 ->
  dispatch t cost quanta m =
    Continue (if cell m (cmem t) (dp t) =? 0
              then set_pc (pc t + 1) t
              else set_pc (pc t + 1 - Z.shiftr w SHIFT) t) cost m.
Proof.
  intros w Hop. unfold dispatch. fold w. rewrite Hop. cbv beta iota.
  cbn [set_pc pc cmem dp]. destruct (_ =? 0); reflexivity.
Qed.

Lemma dispatch_minus `{P : Platform} (t : TCB) (m : Machine) (cost quanta : Z) :
  let w := word (Gimem m) (pc t) in
  Z.land w IMASK = 45 ->
  dispatch t cost quanta m =
    Continue (set_pc (pc t + 1) t) cost
      (set_cell (cmem t) (dp t)
         (to_char (cell m (cmem t) (dp t) - Z.shiftr w SHIFT)) m).
Proof. intros w Hop. unfold dispatch. fold w. rewrite Hop. reflexivity. Qed.

Lemma dispatch_zero `{P : Platform} (t : TCB) (m : Machine) (cost quanta : Z) :
  Z.land (word (Gimem m) (pc t)) IMASK = 34 ->
  dispatch t cost quanta m =
    Continue (set_pc (pc t + 1) t) cost (set_cell (cmem t) (dp t) 0 m).
Proof. intros Hop. unfold dispatch. rewrite Hop. reflexivity. Qed.

Lemma peek_poke (mem : list Z) (i v : Z) :
  peek mem i <> 0 -> peek (poke mem i v) i = v.
Proof.
  unfold peek, poke. case_decide; [ | congruence].
  intros Hne. destruct (mem !! Z.to_nat i) eqn:Hl; [ | now cbn in Hne].
  rewrite list_lookup_insert_eq; [reflexivity | ].
  now apply lookup_lt_Some in Hl.
Qed.

Lemma cell_set_cell_live (seg : nat) (i v : Z) (m : Machine) :
  cell m seg i <> 0 -> cell (set_cell seg i v m) seg i = v.
Proof.
  unfold cell, set_cell. machine_simpl. rewrite lookup_alter_eq.
  destruct (segs m !! seg) as [mem | ]; cbn; [apply peek_poke | congruence].
Qed.

Lemma poke_same (mem : list Z) (i : Z) : poke mem i (peek mem i) = mem.
Proof.
  unfold peek, poke. case_decide; [ | reflexivity].
  destruct (mem !! Z.to_nat i) eqn:Hl; cbn.
  - now apply list_insert_id.
  - apply list_insert_ge. now apply lookup_ge_None.
Qed.

Lemma set_segs_id (m : Machine) : set_segs (segs m) m = m.
Proof. destruct m; reflexivity. Qed.

Lemma set_cell_same (seg : nat) (i : Z) (m : Machine) :
  set_cell seg i (cell m seg i) m = m.
Proof.
  unfold set_cell, cell. destruct (segs m !! seg) as [mem | ] eqn:Hs.
  - rewrite alter_id; [apply set_segs_id | ].
    intros x Hx. rewrite Hs in Hx. injection Hx as <-. apply poke_same.
  - rewrite alter_id'; [apply set_segs_id | exact Hs].
Qed.

Lemma cell_set_cell_zero (seg : nat) (i : Z) (m : Machine) :
  cell (set_cell seg i 0 m) seg i = 0.
Proof.
  unfold cell, set_cell. machine_simpl. rewrite lookup_alter_eq.
  destruct (segs m !! seg) as [mem | ]; cbn; [ | reflexivity].
  unfold peek, poke. case_decide; [ | reflexivity].
  destruct (decide (Z.to_nat i < length mem)%nat).
  - now rewrite list_lookup_insert_eq.
  - rewrite list_insert_ge by lia. rewrite lookup_ge_None_2 by lia. reflexivity.
Qed.

Lemma to_char_idem `{P : Platform} (z : Z) : to_char (to_char z) = to_char z.
Proof.
  unfold to_char. destruct char_signed.
  - replace ((z + 128) mod 256 - 128 + 128) with ((z + 128) mod 256) by lia.
    now rewrite Zmod_mod.
  - apply Zmod_mod.
Qed.

Lemma to_char_zero `{P : Platform} (z : Z) : to_char z = 0 <-> z mod 256 = 0.
Proof.
  rewrite <- (to_char_mod z). unfold to_char. destruct char_signed.
  - pose proof (Z.mod_pos_bound (z + 128) 256 eq_refl).
    set (x := (z + 128) mod 256) in *.
    destruct (Z_lt_ge_dec x 128).
    + replace (x - 128) with (x + 128 + (-1) * 256) by lia.
      rewrite Z_mod_plus_full, Z.mod_small by lia. lia.
    + rewrite Z.mod_small by lia. lia.
  - rewrite Zmod_mod. reflexivity.
Qed.

(** The three words of [[-]] as the compiler leaves them when it keeps the
    loop, at [a], [a + 1] and [a + 2] of instruction memory. *)
Section ClearLoop.
Context {P : Platform}.
Variables (m : Machine) (a cost : Z).
Hypothesis Hopen : word (Gimem m) a = instr 91 2.
Hypothesis Hbody : word (Gimem m) (a + 1) = instr 45 1.
Hypothesis Hclose : word (Gimem m) (a + 2) = instr 93 2.

Lemma at_open (t : TCB) (quanta : Z) :
  dispatch (set_pc a t) cost quanta m =
    Continue (set_pc (if cell m (cmem t) (dp t) =? 0 then a + 3 else a + 1) t)
             cost m.
Proof.
  rewrite dispatch_open; cbn [set_pc pc cmem dp]; rewrite Hopen;
    [ | reflexivity].
  change (Z.shiftr (instr 91 2) SHIFT) with 2.
  destruct (_ =? 0); rewrite set_pc_set_pc; [f_equal; f_equal; lia | reflexivity].
Qed.

Lemma at_body (t : TCB) (quanta : Z) (M : Machine) :
  Gimem M = Gimem m ->
  dispatch (set_pc (a + 1) t) cost quanta M =
    Continue (set_pc (a + 2) t) cost
      (set_cell (cmem t) (dp t) (to_char (cell M (cmem t) (dp t) - 1)) M).
Proof.
  intros HM.
  rewrite dispatch_minus; cbn [set_pc pc cmem dp]; rewrite HM, Hbody;
    [ | reflexivity].
  change (Z.shiftr (instr 45 1) SHIFT) with 1. rewrite set_pc_set_pc.
  f_equal. f_equal. lia.
Qed.

Lemma at_close (t : TCB) (quanta : Z) (M : Machine) :
  Gimem M = Gimem m ->
  dispatch (set_pc (a + 2) t) cost quanta M =
    Continue (set_pc (if cell M (cmem t) (dp t) =? 0 then a + 3 else a + 1) t)
             cost M.
Proof.
  intros HM.
  rewrite dispatch_close; cbn [set_pc pc cmem dp]; rewrite HM, Hclose;
    [ | reflexivity].
  change (Z.shiftr (instr 93 2) SHIFT) with 2.
  destruct (_ =? 0); rewrite set_pc_set_pc; f_equal; f_equal; lia.
Qed.

Lemma clear_loop_from_close (k : nat) (t : TCB) (x quanta : Z) :
  cell m (cmem t) (dp t) <> 0 ->
  to_char x = x -> x mod 256 = Z.of_nat k ->
  exists n,
    turns n (set_pc (a + 2) t) cost quanta
          (set_cell (cmem t) (dp t) x m) =
      Continue (set_pc (a + 3) t) cost (set_cell (cmem t) (dp t) 0 m).
Proof.
  intros Hlive. revert x quanta. induction k as [ | k IH]; intros x quanta Hx Hk.
  - assert (x = 0) as -> by (rewrite <- Hx; now apply to_char_zero).
    exists 1%nat. cbn [turns]. rewrite at_close by reflexivity.
    rewrite cell_set_cell_live by exact Hlive. reflexivity.
  - assert (x <> 0) by (intros ->; rewrite Zmod_0_l in Hk; lia).
    destruct (IH (to_char (x - 1)) (quanta - cost - cost)) as [n Hn].
    + apply to_char_idem.
    + pose proof (Z.mod_pos_bound x 256 eq_refl).
      rewrite to_char_mod. rewrite Zminus_mod, Hk.
      change (1 mod 256) with 1.
      replace (Z.of_nat (S k) - 1) with (Z.of_nat k) by lia.
      apply Z.mod_small. lia.
    + exists (S (S n)). cbn [turns]. rewrite at_close by reflexivity.
      rewrite cell_set_cell_live by exact Hlive.
      apply Z.eqb_neq in H. rewrite H.
      rewrite at_body by reflexivity.
      rewrite cell_set_cell_live by exact Hlive.
      rewrite set_cell_set_cell. exact Hn.
Qed.

Lemma clear_loop_run (t : TCB) (quanta : Z) :
  exists n,
    turns n (set_pc a t) cost quanta m =
      Continue (set_pc (a + 3) t) cost (set_cell (cmem t) (dp t) 0 m).
Proof.
  destruct (Z.eqb_spec (cell m (cmem t) (dp t)) 0) as [Hz | Hlive].
  - exists 1%nat. cbn [turns]. rewrite at_open, Hz. cbn [Z.eqb].
    pose proof (set_cell_same (cmem t) (dp t) m) as Hsame.
    rewrite Hz in Hsame. now rewrite Hsame.
  - set (x := to_char (cell m (cmem t) (dp t) - 1)).
    destruct (clear_loop_from_close (Z.to_nat (x mod 256)) t x
                (quanta - cost - cost) Hlive) as [n Hn].
    + apply to_char_idem.
    + pose proof (Z.mod_pos_bound x 256 eq_refl). lia.
    + exists (S (S n)). cbn [turns]. rewrite at_open.
      apply Z.eqb_neq in Hlive. rewrite Hlive.
      rewrite at_body by reflexivity. exact Hn.
Qed.

End ClearLoop.

Lemma word_insert_eq (im : gmap Z Z) (i v : Z) : word (<[i := v]> im) i = v.
Proof. unfold word. now rewrite lookup_insert_eq. Qed.

Lemma word_insert_ne (im : gmap Z Z) (i j v : Z) :
  i <> j -> word (<[i := v]> im) j = word im j.
Proof. intros H. unfold word. now rewrite lookup_insert_ne. Qed.

(** The immediate that [shl] leaves in a word: the low 24 bits of [v],
    read as a signed number. *)
Lemma shl_shiftl (v : Z) : shl v = Z.shiftl (imm24 v) SHIFT.
Proof.
  unfold shl, int32, imm24, SHIFT. rewrite !Z.shiftl_mul_pow2 by lia.
  change (2 ^ 8) with 256.
  replace (v * 256 + 2147483648) with ((v + 8388608) * 256) by lia.
  change 4294967296 with (16777216 * 256).
  rewrite Zmult_mod_distr_r. lia.
Qed.

Lemma imm24_small (v : Z) : -8388608 <= v < 8388608 -> imm24 v = v.
Proof. intros H. unfold imm24. rewrite Z.mod_small by lia. lia. Qed.

Lemma shl_small (v : Z) :
  -8388608 <= v < 8388608 -> shl v = Z.shiftl v SHIFT.
Proof. intros H. now rewrite shl_shiftl, imm24_small. Qed.

Lemma instr_shl (k v : Z) :
  -8388608 <= v < 8388608 -> Z.lor k (shl v) = instr k v.
Proof. intros H. unfold instr. now rewrite shl_small. Qed.

Lemma word_orImm_eq (im : gmap Z Z) (i v : Z) :
  word (orImm im i v) i = Z.lor (word im i) (shl v).
Proof. apply word_insert_eq. Qed.

Lemma word_orImm_ne (im : gmap Z Z) (i j v : Z) :
  i <> j -> word (orImm im i v) j = word im j.
Proof. apply word_insert_ne. Qed.

Lemma getNext_cons (f : FILE) (c : Z) (rest : list Z) :
  bytes f = c :: rest -> recognized c = true -> getNext_done f = BAD ->
  getNext f = (c, mkFILE rest (at_eof f) BAD).
Proof.
  intros Hb Hr Hd. unfold getNext. rewrite Hd, Hb. cbn [skipCrap Z.eqb BAD GOOD].
  rewrite Hr.
  assert (Hc : (c =? EOF) = false).
  { apply Z.eqb_neq. intros ->. discriminate Hr. }
  now rewrite Hc.
Qed.

Lemma recLoop_S (fuel : nat) (s : frame) :
  0 <= cp s < IMEM ->
  recLoop (S fuel) s =
    match recBody (recLoop fuel) s with
    | Value (Next s') => recLoop fuel s'
    | Value (Ret np s') => Value (np, s')
    | Fuel => Fuel
    | Fault => Fault
    end.
Proof.
  intros H. cbn [recLoop].
  assert (Hg : (cp s <? 0) || (IMEM <=? cp s) = false) by lia.
  now rewrite Hg.
Qed.

Lemma clear_loop_compiles (k : nat) (s : frame) (rest : list Z) :
  bytes (fin s) = 91 :: 45 :: 93 :: rest ->
  getNext_done (fin s) = BAD ->
  0 <= cp s -> cp s + 2 < IMEM ->
  let prev := word (mimem s) (cp s - 1) in
  exists s',
    recBody (recLoop (S (S k))) s = Value (Next s') /\
    bytes (fin s') = rest /\
    (op s', ll s', pi s', bf s') = (op s, ll s, pi s, bf s) /\
    (forall i, i < cp s -> word (mimem s') i = word (mimem s) i) /\
    if (cp s =? 0) || (Z.land prev IMASK =? 93) || (prev =? 34) || (prev =? 64)
    then cp s' = cp s
    else word (mimem s') (cp s) = 34 /\ cp s' = cp s + 1.
Proof.
  intros Hb Hd Hcp Hmax prev.
  destruct s as [im [bs eof dn] o c l p b].
  cbn [fin bytes getNext_done cp mimem op ll pi bf] in *.
  subst bs dn. unfold recBody.
  cbn [fin bytes getNext_done cp mimem op ll pi bf].
  rewrite (getNext_cons _ 91 (45 :: 93 :: rest)) by reflexivity.
  cbn [bytes at_eof getNext_done]. change (runLength 91 ?f) with (0, f).
  cbv beta iota zeta.
  unfold enter. rewrite recLoop_S by (cbn [cp]; lia). unfold recBody at 1.
  cbn [fin bytes getNext_done cp mimem op ll pi bf].
  rewrite (getNext_cons _ 45 (93 :: rest)) by reflexivity.
  cbn [bytes at_eof getNext_done].
  unfold runLength. change (repeatable 45) with true. cbv iota.
  rewrite (getNext_cons _ 93 rest) by reflexivity.
  cbn [bytes at_eof getNext_done runLoop]. change (93 =? 45) with false.
  cbv beta iota zeta. unfold unGetNext. change (93 =? EOF) with false.
  cbv beta iota zeta. cbn [bytes at_eof getNext_done].
  rewrite recLoop_S by (cbn [cp]; lia). unfold recBody at 1.
  cbn [fin bytes getNext_done cp mimem op ll pi bf].
  rewrite (getNext_cons _ 93 rest) by reflexivity.
  change (runLength 93 ?f) with (0, f).
  cbv beta iota zeta. cbn [bytes at_eof getNext_done].
  cbn [fin bytes getNext_done cp mimem op ll pi bf].
  change (Z.lor 93 (shl 0)) with 93.
  change (Z.lor 91 (shl 0)) with 91.
  change (Z.lor 45 (shl 1)) with 301.
  replace (c + 1 - 1) with c by lia.
  rewrite !word_insert_ne by lia. rewrite word_insert_eq.
  change (negb (91 =? 91)) with false. change (0 =? 0) with true.
  cbv iota. cbn [mimem fin].
  assert (Hnb : (c + 1 + 1 + 1 =? BAD) = false) by (apply Z.eqb_neq; unfold BAD; lia).
  rewrite Hnb. clear Hnb.
  replace (c + 1 + 1 + 1 - (c + 1)) with 2 by lia.
  replace (c + 1 + 1 + 1 - 1) with (c + 1 + 1) by lia.
  replace (c + 1 - 2) with (c - 1) by lia.
  rewrite !(word_orImm_ne _ _ (c - 1)) by lia.
  rewrite !(word_insert_ne _ _ (c - 1)) by lia. fold prev.
  assert (E1 : (c + 1 =? 1) = (c =? 0)) by lia. rewrite E1.
  destruct ((c =? 0) || (Z.land prev IMASK =? 93) || (prev =? 34)
            || (prev =? 64)).
  - eexists. split; [reflexivity | ]. cbn [mimem cp fin bytes op ll pi bf].
    split; [reflexivity | ]. split; [reflexivity | ].
    split; [ | lia].
    intros i Hi. rewrite !word_orImm_ne, !word_insert_ne by lia. reflexivity.
  - assert (E2 : (c + 1 + 2 =? c + 1 + 1 + 1) = true) by (apply Z.eqb_eq; lia).
    rewrite E2.
    rewrite !(word_orImm_ne _ _ (c + 1)) by lia.
    rewrite (word_insert_ne _ _ (c + 1)) by lia. rewrite word_insert_eq.
    cbn [andb Z.eqb Pos.eqb].
    eexists. split; [reflexivity | ]. cbn [mimem cp fin bytes op ll pi bf].
    split; [reflexivity | ]. split; [reflexivity | ].
    split; [ | split; [apply word_insert_eq | reflexivity]].
    intros i Hi. rewrite word_insert_ne, !word_orImm_ne, !word_insert_ne by lia.
    reflexivity.
Qed.

(** ** Breaks and continues *)

Lemma lor_shift_low (w x k : Z) :
  0 <= k < 256 -> Z.lor w (Z.shiftl x SHIFT) = k -> w = k.
Proof.
  intros Hk H. apply Z.bits_inj'. intros n Hn.
  assert (Hb : Z.testbit (Z.lor w (Z.shiftl x SHIFT)) n = Z.testbit k n)
    by now rewrite H.
  rewrite Z.lor_spec in Hb. unfold SHIFT in Hb.
  destruct (Z_lt_ge_dec n 8) as [Hlt | Hge].
  - rewrite Z.shiftl_spec_low in Hb by lia. now rewrite orb_false_r in Hb.
  - assert (Hk0 : Z.testbit k n = false).
    { destruct (Z.eq_dec k 0) as [-> | Hk0]; [apply Z.bits_0 | ].
      apply Z.bits_above_log2; [lia | ].
      assert (Z.log2 k < 8) by (apply Z.log2_lt_pow2; lia). lia. }
    rewrite Hk0 in Hb. apply orb_false_iff in Hb as [Hb _]. now rewrite Hb, Hk0.
Qed.

Lemma is_bc_orImm (w x : Z) : is_bc (Z.lor w (shl x)) -> is_bc w.
Proof.
  rewrite shl_shiftl.
  intros [H | H]; [left | right]; eapply lor_shift_low; try exact H; lia.
Qed.

Lemma backFill_loop_spec (n : nat) (im : gmap Z Z) (start end_ i : Z) :
  Z.of_nat n = Z.max 0 (end_ - start) ->
  word (backFill_loop n im start end_) i =
    if (start <=? i) && (i <? end_) then
      if word im i =? 39 then Z.lor 124 (shl (end_ - i - 1))
      else if word im i =? 96 then Z.lor 124 (shl (end_ - i - 2))
      else word im i
    else word im i.
Proof.
  revert im start. induction n as [ | n IH]; intros im start Hn.
  - cbn [backFill_loop].
    assert (H : (start <=? i) && (i <? end_) = false) by lia. now rewrite H.
  - cbn [backFill_loop]. assert (Hlt : (start <? end_) = true) by lia.
    rewrite Hlt. rewrite IH by lia.
    destruct (Z.eq_dec i start) as [-> | Hne].
    + assert (H1 : (start + 1 <=? start) && (start <? end_) = false) by lia.
      assert (H2 : (start <=? start) && (start <? end_) = true) by lia.
      rewrite H1, H2.
      destruct (word im start =? 39); [apply word_insert_eq | ].
      destruct (word im start =? 96); [apply word_insert_eq | reflexivity].
    + assert (Hw : forall v, word (<[start := v]> im) i = word im i)
        by (intros v; apply word_insert_ne; lia).
      assert (Hsame :
        word (if word im start =? 39
              then <[start := Z.lor 124 (shl (end_ - start - 1))]> im
              else if word im start =? 96
                   then <[start := Z.lor 124 (shl (end_ - start - 2))]> im
                   else im) i = word im i).
      { destruct (_ =? 39); [apply Hw | ]. destruct (_ =? 96); [apply Hw | easy]. }
      rewrite Hsame.
      assert (Hr : (start + 1 <=? i) && (i <? end_) = (start <=? i) && (i <? end_)) by lia.
      now rewrite Hr.
Qed.

Lemma backFill_spec (im : gmap Z Z) (start end_ i : Z) :
  word (backFill im start end_) i =
    if (start <=? i) && (i <? end_) then
      if word im i =? 39 then Z.lor 124 (shl (end_ - i - 1))
      else if word im i =? 96 then Z.lor 124 (shl (end_ - i - 2))
      else word im i
    else word im i.
Proof. unfold backFill. apply backFill_loop_spec. lia. Qed.

Ltac by_char cc :=
  let p := fresh "p" in
  destruct cc as [ | p | p];
  [ | do 7 (try (destruct p as [p | p | ])) | try (destruct p as [p | p | ])].

Lemma special_among (cc : Z) :
  special cc = true ->
  In cc [126; 36; 91; 123; 40; 58; 93; 125; 124; 41; 59; 96; 39; 64; 33; -1].
Proof.
  by_char cc; cbv beta iota delta [special]; intros H;
    first [discriminate H | cbn; tauto].
Qed.

Lemma recBody_other (rec : frame -> run (Z * frame)) (s : frame) :
  let cc := (getNext (fin s)).1 in
  let rf := runLength cc (getNext (fin s)).2 in
  special cc = false ->
  recBody rec s =
    Value (Next (mkFrame (<[cp s := Z.lor cc (shl rf.1)]> (mimem s))
                         rf.2 (op s) (cp s + 1) (ll s) (pi s) (bf s))).
Proof.
  intros cc rf. subst rf. unfold recBody. fold cc.
  destruct (getNext (fin s)) as [cc' f1]. cbn [fst snd] in *. subst cc.
  destruct (runLength cc' f1) as [rl f2]. cbn [fst snd].
  by_char cc'; cbv beta iota zeta delta [special]; intros H;
    first [discriminate H | reflexivity].
Qed.

Ltac words :=
  repeat first
    [ rewrite word_insert_eq
    | rewrite word_orImm_eq
    | rewrite word_insert_ne by lia
    | rewrite word_orImm_ne by lia ].

Lemma not_bc_lor (w x : Z) : ~ is_bc w -> ~ is_bc (Z.lor w (shl x)).
Proof. intros H Hb. apply H. eapply is_bc_orImm, Hb. Qed.

Lemma not_bc_const (k x : Z) :
  k <> 39 -> k <> 96 -> ~ is_bc (Z.lor k (shl x)).
Proof. intros H1 H2. apply not_bc_lor. intros [H | H]; contradiction. Qed.

Lemma runLength_plain (cc : Z) (f : FILE) :
  repeatable cc = false -> runLength cc f = (0, f).
Proof. intros H. unfold runLength. now rewrite H. Qed.

Lemma entry_Inv (im : gmap Z Z) (f : FILE) (c l : Z) (p : option Z) :
  0 < c -> word im (c - 1) <> 64 -> (word im (c - 1) = 58 -> l = BAD) ->
  Inv c (enter im f c l p).
Proof.
  intros Hc H64 H58. unfold Inv, enter. cbn [cp op mimem ll bf].
  repeat split; try lia; auto.
Qed.

Lemma recBody_other_inv (rec : frame -> run (Z * frame)) (lo : Z) (s : frame) :
  special (getNext (fin s)).1 = false ->
  Inv lo s ->
  exists s', recBody rec s = Value (Next s') /\ Inv lo s' /\ Keep lo s s'.
Proof.
  intros Hsp (Hlo & Hop & Hk & H64 & H58 & Hll & Hbc).
  rewrite recBody_other by exact Hsp. eexists. split; [reflexivity | ].
  set (cc := (getNext (fin s)).1) in *.
  unfold Inv, Keep. cbn [cp op mimem ll bf pi]. words.
  repeat split; try lia; auto.
  - intros i Hi Hb. destruct (Z.eq_dec i (cp s)) as [-> | Hne].
    + revert Hb. words. intros Hb. apply is_bc_orImm in Hb.
      destruct Hb as [-> | ->]; discriminate Hsp.
    + revert Hb. words. apply Hbc. lia.
  - intros i Hi. now words.
Qed.

Ltac open_body cc f1 :=
  unfold recBody;
  destruct (getNext (fin _)) as [cc f1]; cbn [fst] in *.

Lemma swap_ok rec lo s :
  (getNext (fin s)).1 = 126 -> Inv lo s -> turn_ok lo s (recBody rec s).
Proof.
  intros Hcc (Hlo & Hop & Hk & H64 & H58 & Hll & Hbc). open_body cc f1.
  subst cc. destruct (runLength 126 f1) as [rl f2]. cbv beta iota zeta.
  unfold turn_ok, Inv, Keep. cbn [cp op mimem ll bf pi]. words.
  assert (Hcp : cp s <= (if Z.land rl 1 =? 0 then cp s + 1 - 1 else cp s + 1)
                <= cp s + 1) by (destruct (_ =? 0); lia).
  repeat split; try lia; auto.
  - intros i Hi Hb. destruct (Z.eq_dec i (cp s)) as [-> | Hne].
    + exfalso. revert Hb. words. apply not_bc_const; discriminate.
    + revert Hb. words. apply Hbc. lia.
  - intros i Hi. now words.
Qed.

Lemma dollar_ok rec lo s :
  (getNext (fin s)).1 = 36 -> Inv lo s -> turn_ok lo s (recBody rec s).
Proof.
  intros Hcc (Hlo & Hop & Hk & H64 & H58 & Hll & Hbc). open_body cc f1.
  subst cc. rewrite runLength_plain by reflexivity. cbv beta iota zeta.
  unfold turn_ok, Inv, Keep. cbn [cp op mimem ll bf pi]. words.
  repeat split; try lia; auto.
  - intros i Hi Hb. destruct (Z.eq_dec i (cp s)) as [-> | Hne].
    + revert Hb. replace (cp s + 1 - 1) with (cp s) by lia. words.
      intros [H | H]; discriminate H.
    + revert Hb. words. apply Hbc. lia.
  - intros i Hi. now words.
Qed.

Lemma break_ok rec lo s :
  (getNext (fin s)).1 = 39 \/ (getNext (fin s)).1 = 96 ->
  Inv lo s -> turn_ok lo s (recBody rec s).
Proof.
  intros Hcc (Hlo & Hop & Hk & H64 & H58 & Hll & Hbc). open_body cc f1.
  assert (Hor : forall b, Z.lor b 1 <> 0).
  { intros b Hb. apply Z.lor_eq_0_iff in Hb as [_ Hb]. discriminate Hb. }
  destruct Hcc as [-> | ->]; rewrite runLength_plain by reflexivity;
    cbv beta iota zeta; destruct (ll s =? BAD) eqn:Hl;
    unfold turn_ok; try (intros H; now contradiction H).
  all: apply Z.eqb_neq in Hl.
  all: unfold Inv, Keep; cbn [cp op mimem ll bf pi]; words.
  all: repeat split; try lia; auto; try (intros; now words).
  all: intros; contradiction.
Qed.

Lemma end_ok rec lo s :
  (getNext (fin s)).1 = 64 \/ (getNext (fin s)).1 = 33 \/
  (getNext (fin s)).1 = -1 ->
  Inv lo s -> turn_ok lo s (recBody rec s).
Proof.
  intros Hcc (Hlo & Hop & Hk & H64 & H58 & Hll & Hbc). open_body cc f1.
  assert (Hno : (op s =? -1) || (word (<[cp s := 64]> (mimem s)) (op s) =? 64) = false
             /\ (op s =? -1) || (word (<[cp s := 33]> (mimem s)) (op s) =? 64) = false
             /\ (op s =? -1) || (word (<[cp s := -1]> (mimem s)) (op s) =? 64) = false).
  { words. apply Z.eqb_neq in H64. rewrite H64.
    assert (Hm : (op s =? -1) = false) by lia. now rewrite Hm. }
  destruct Hno as (N1 & N2 & N3).
  destruct Hcc as [-> | [-> | ->]]; rewrite runLength_plain by reflexivity;
    cbv beta iota zeta.
  - change (Z.lor 64 (shl 0)) with 64. rewrite N1.
    unfold turn_ok. intros H. now contradiction H.
  - change (Z.lor 33 (shl 0)) with 33. rewrite N2.
    unfold turn_ok. intros H. now contradiction H.
  - change (Z.lor (-1) (shl 0)) with (-1). rewrite N3.
    unfold turn_ok. intros H. now contradiction H.
Qed.

Lemma backFill_no_bc (im : gmap Z Z) (start end_ i : Z) :
  start <= i < end_ -> ~ is_bc (word (backFill im start end_) i).
Proof.
  intros Hi. rewrite backFill_spec.
  assert (Hr : (start <=? i) && (i <? end_) = true) by lia. rewrite Hr.
  destruct (Z.eqb_spec (word im i) 39); [apply not_bc_const; discriminate | ].
  destruct (Z.eqb_spec (word im i) 96); [apply not_bc_const; discriminate | ].
  intros [H | H]; contradiction.
Qed.

Lemma backFill_outside (im : gmap Z Z) (start end_ i : Z) :
  i < start -> word (backFill im start end_) i = word im i.
Proof.
  intros Hi. rewrite backFill_spec.
  assert (Hr : (start <=? i) && (i <? end_) = false) by lia. now rewrite Hr.
Qed.

Lemma close_ok rec lo s (k : Z) :
  (k = 91 \/ k = 123) ->
  (getNext (fin s)).1 = k + 2 -> Inv lo s -> turn_ok lo s (recBody rec s).
Proof.
  intros Hkk Hcc (Hlo & Hop & Hk & H64 & H58 & Hll & Hbc). open_body cc f1.
  assert (Hgoal : forall w, (w = 93 \/ w = 125) ->
    turn_ok lo s
      (if negb (word (<[cp s := w]> (mimem s)) (op s) =? w - 2)
       then Value (Ret BAD (mkFrame (<[cp s := w]> (mimem s)) f1 (op s)
                              (cp s + 1) (ll s) (pi s) (bf s)))
       else Value (Ret (cp s + 1)
                     (mkFrame (if bf s =? 0 then <[cp s := w]> (mimem s)
                               else backFill (<[cp s := w]> (mimem s))
                                             (op s + 1) (cp s + 1))
                              f1 (op s) (cp s + 1) (ll s) (pi s) (bf s))))).
  { intros w Hw. words. destruct (Z.eqb_spec (word (mimem s) (op s)) (w - 2)) as [He | Hne];
      cbn [negb]; unfold turn_ok; [ | intros H; now contradiction H].
    intros _.
    assert (Hoplo : op s = lo - 1) by (destruct Hk as [Hk | Hk]; [exact Hk | lia]).
    unfold Post. cbn [mimem pi]. split; [lia | ]. split; [ | split].
    - intros i Hi. destruct (bf s =? 0); [now words | ].
      rewrite backFill_outside by lia. now words.
    - destruct (bf s =? 0); [now words | ].
      rewrite backFill_outside by lia. now words.
    - left. split; [reflexivity | ]. intros i Hi.
      destruct (Z.eqb_spec (bf s) 0) as [Hb0 | Hb1].
      + destruct (Z.eq_dec i (cp s)) as [-> | Hne].
        * words. intros [H | H]; lia.
        * words. intros Hb. apply (Hbc i) in Hb; [contradiction | lia].
      + apply backFill_no_bc. lia. }
  destruct Hkk as [-> | ->]; cbn in Hcc; subst cc;
    rewrite runLength_plain by reflexivity; cbv beta iota zeta.
  - apply (Hgoal 93). now left.
  - apply (Hgoal 125). now right.
Qed.

Lemma else_ok rec lo s :
  (getNext (fin s)).1 = 124 -> Inv lo s -> turn_ok lo s (recBody rec s).
Proof.
  intros Hcc (Hlo & Hop & Hk & H64 & H58 & Hll & Hbc). open_body cc f1.
  subst cc. rewrite runLength_plain by reflexivity. cbv beta iota zeta.
  change (Z.lor 124 (shl 0)) with 124. words.
  destruct (Z.eqb_spec (word (mimem s) (op s)) 40) as [He | Hne]; cbn [negb];
    unfold turn_ok; [ | intros H; now contradiction H].
  unfold Inv, Keep. cbn [cp op mimem ll bf pi].
  replace (cp s + 1 - 1) with (cp s) by lia. words.
  repeat split; try lia; auto; try discriminate.
  - intros i Hi Hb. destruct (Z.eq_dec i (cp s)) as [-> | Hne].
    + revert Hb. words. intros [H | H]; discriminate H.
    + destruct (Z.eq_dec i (op s)) as [-> | Hne'].
      * exfalso. revert Hb. words. rewrite He. apply not_bc_const; discriminate.
      * revert Hb. words. apply Hbc. lia.
  - intros i Hi. now words.
  - destruct (Z.eq_dec (op s) (lo - 1)) as [<- | Hne].
    + words. rewrite He. intros Hb. exfalso. revert Hb.
      apply not_bc_const; discriminate.
    + now words.
Qed.

Lemma fi_ok rec lo s :
  (getNext (fin s)).1 = 41 -> Inv lo s -> turn_ok lo s (recBody rec s).
Proof.
  intros Hcc (Hlo & Hop & Hk & H64 & H58 & Hll & Hbc). open_body cc f1.
  subst cc. rewrite runLength_plain by reflexivity. cbv beta iota zeta.
  change (Z.lor 41 (shl 0)) with 41. words.
  destruct (negb (word (mimem s) (op s) =? 40)
            && negb (word (mimem s) (op s) =? 124)) eqn:Hw;
    unfold turn_ok; [intros H; now contradiction H | ].
  assert (Hopw : ~ is_bc (word (mimem s) (op s))).
  { intros [H | H]; rewrite H in Hw; discriminate Hw. }
  assert (Hframe : forall x,
    (forall i, i < lo - 1 ->
       word (orImm (<[cp s := 41]> (mimem s)) (op s) x) i = word (mimem s) i) /\
    (is_bc (word (orImm (<[cp s := 41]> (mimem s)) (op s) x) (lo - 1)) ->
     is_bc (word (mimem s) (lo - 1)))).
  { intros x. split; [intros i Hi; now words | ].
    destruct (Z.eq_dec (op s) (lo - 1)) as [<- | Hne].
    - words. apply is_bc_orImm.
    - now words. }
  destruct (Z.eqb_spec (bf s) 0) as [Hb0 | Hb1].
  - intros _. unfold Post. cbn [mimem pi]. split; [lia | ].
    split; [apply Hframe | ]. split; [apply Hframe | ].
    left. split; [reflexivity | ]. intros i Hi.
    destruct (Z.eq_dec i (op s)) as [-> | Hne].
    + words. now apply not_bc_lor.
    + words. intros Hb. apply (Hbc i) in Hb; [contradiction | lia].
  - destruct (pi s) as [v | ] eqn:Hpi; [ | exact I].
    intros _. unfold Post. cbn [mimem pi]. split; [lia | ].
    split; [apply Hframe | ]. split; [apply Hframe | ].
    right. split; [intros Hl; now apply Hll in Hl | ].
    exists v, (bf s). rewrite Hpi. auto.
Qed.

Lemma semi_ok rec lo s :
  (getNext (fin s)).1 = 59 -> Inv lo s -> turn_ok lo s (recBody rec s).
Proof.
  intros Hcc (Hlo & Hop & Hk & H64 & H58 & Hll & Hbc). open_body cc f1.
  subst cc. rewrite runLength_plain by reflexivity. cbv beta iota zeta.
  change (Z.lor 59 (shl 0)) with 59. words.
  destruct (Z.eqb_spec (word (mimem s) (op s)) 58) as [He | Hne]; cbn [negb];
    unfold turn_ok; [ | intros H; now contradiction H].
  intros _.
  assert (Hoplo : op s = lo - 1) by (destruct Hk as [Hk | Hk]; [exact Hk | lia]).
  assert (Hb0 : bf s = 0) by auto.
  unfold Post. cbn [mimem pi]. split; [lia | ]. split; [ | split].
  - intros i Hi. now words.
  - rewrite <- Hoplo. words. apply is_bc_orImm.
  - left. split; [reflexivity | ]. intros i Hi.
    destruct (Z.eq_dec i (cp s)) as [-> | Hne].
    + words. intros [H | H]; discriminate H.
    + words. intros Hb. apply (Hbc i) in Hb; [contradiction | lia].
Qed.

(** What the caller knows of instruction memory when a nested activation
    entered at [c = cp s + 1] has returned [np] without touching [bf]. *)
Lemma nested_clean (rec : frame -> run (Z * frame)) (lo : Z) (s : frame)
    (im : gmap Z Z) (f : FILE) (l : Z) (p : option Z) (np : Z) (r : frame)
    (k : Z) :
  nested_ok rec -> Inv lo s ->
  im = <[cp s := k]> (mimem s) -> k <> 64 -> ~ is_bc k -> (k = 58 -> l = BAD) ->
  rec (enter im f (cp s + 1) l p) = Value (np, r) -> np <> BAD ->
  cp s + 1 <= np /\
  (forall i, i < cp s -> word (mimem r) i = word (mimem s) i) /\
  ~ is_bc (word (mimem r) (cp s)) /\
  ((pi r = p /\ forall i, cp s + 1 <= i < np -> ~ is_bc (word (mimem r) i)) \/
   (l <> BAD /\ exists v x, p = Some v /\ x <> 0 /\ pi r = Some (Z.lor v x))).
Proof.
  intros Hrec (Hlo & Hop & Hk & H64 & H58 & Hll & Hbc) -> Hk64 Hkbc Hk58 Hr Hnp.
  assert (HI : Inv (cp (enter (<[cp s := k]> (mimem s)) f (cp s + 1) l p))
                   (enter (<[cp s := k]> (mimem s)) f (cp s + 1) l p)).
  { cbn [enter cp]. apply entry_Inv; [lia | | ];
      replace (cp s + 1 - 1) with (cp s) by lia; now words. }
  pose proof (Hrec _ _ _ Hr Hnp HI) as Hpost. clear HI.
  - destruct Hpost as (H1 & H2 & H3 & H4). cbn [enter cp mimem pi ll] in *.
    split; [exact H1 | ]. split; [ | split].
    + intros i Hi. rewrite H2 by lia. now words.
    + intros Hb. replace (cp s + 1 - 1) with (cp s) in H3 by lia.
      apply H3 in Hb. revert Hb. now words.
    + exact H4.
Qed.

Lemma loop_ok rec lo s (k : Z) :
  (k = 91 \/ k = 123) -> nested_ok rec ->
  (getNext (fin s)).1 = k -> Inv lo s -> turn_ok lo s (recBody rec s).
Proof.
  intros Hkk Hrec Hcc HI. pose proof HI as (Hlo & Hop & Hk & H64 & H58 & Hll & Hbc).
  open_body cc f1. subst cc.
  assert (Hgoal : forall (np : Z) (r : frame) (c' : Z) (q : bool),
    rec (enter (<[cp s := k]> (mimem s)) f1 (cp s + 1) (cp s + 1) None)
      = Value (np, r) -> np <> BAD ->
    (c' = cp s \/ c' = np \/ (c' = cp s + 1 /\ q = true)) ->
    let im2 := orImm (orImm (mimem r) (cp s) (np - (cp s + 1)))
                     (np - 1) (np - (cp s + 1)) in
    turn_ok lo s
      (Value (Next (mkFrame (if q then <[cp s := 34]> im2 else im2)
                            (fin r) (op s) c' (ll s) (pi s) (bf s))))).
  { intros np r c' q Hr Hnp Hc' im2.
    destruct (nested_clean rec lo s _ f1 (cp s + 1) None np r k Hrec HI eq_refl)
      as (N1 & N2 & N3 & N4); auto.
    { destruct Hkk as [-> | ->]; discriminate. }
    { destruct Hkk as [-> | ->]; intros [H | H]; discriminate H. }
    { destruct Hkk as [-> | ->]; discriminate. }
    destruct N4 as [[_ N4] | (_ & v & x & Hv & _)]; [ | discriminate Hv].
    assert (Hlow : forall i, i < cp s ->
              word (if q then <[cp s := 34]> im2 else im2) i = word (mimem s) i).
    { intros i Hi. subst im2. destruct q; words; now apply N2. }
    assert (Hnobc : forall i, cp s <= i < np ->
              ~ is_bc (word (if q then <[cp s := 34]> im2 else im2) i)).
    { intros i Hi. subst im2.
      assert (Hbase : ~ is_bc (word (mimem r) i)).
      { destruct (Z.eq_dec i (cp s)) as [-> | Hne]; [exact N3 | apply N4; lia]. }
      assert (H2 : ~ is_bc (word (orImm (orImm (mimem r) (cp s) (np - (cp s + 1)))
                                  (np - 1) (np - (cp s + 1))) i)).
      { destruct (Z.eq_dec i (np - 1)) as [-> | Hn1].
        - words. apply not_bc_lor.
          destruct (Z.eq_dec (np - 1) (cp s)) as [He | Hn2].
          + rewrite He. words. apply not_bc_lor. now rewrite <- He.
          + now words.
        - words. destruct (Z.eq_dec i (cp s)) as [-> | Hn2].
          + words. now apply not_bc_lor.
          + now words. }
      destruct q; [ | exact H2].
      destruct (Z.eq_dec i (cp s)) as [-> | Hn2].
      - words. intros [H | H]; discriminate H.
      - now words. }
    unfold turn_ok, Inv, Keep. cbn [cp op mimem ll bf pi].
    rewrite !Hlow by lia.
    repeat split; try lia; auto.
    - intros i Hi Hb. destruct (Z_lt_ge_dec i (cp s)) as [Hlt | Hge].
      + rewrite Hlow in Hb by lia. apply (Hbc i); [lia | exact Hb].
      + exfalso. apply (Hnobc i); [ | exact Hb].
        destruct Hc' as [-> | [-> | [-> _]]]; lia.
    - intros i Hi. apply Hlow. lia. }
  destruct (rec (enter (<[cp s := k]> (mimem s)) f1 (cp s + 1) (cp s + 1) None))
    as [[np r] | | ] eqn:Hr.
  2, 3: destruct Hkk as [-> | ->]; rewrite runLength_plain by reflexivity;
        cbv beta iota zeta; change (Z.lor ?a (shl 0)) with a;
        rewrite Hr; exact I.
  destruct Hkk as [-> | ->]; rewrite runLength_plain by reflexivity;
    cbv beta iota zeta; replace (cp s + 1 - 1) with (cp s) by lia.
  - change (Z.lor 91 (shl 0)) with 91. rewrite Hr.
    destruct (Z.eqb_spec np BAD) as [-> | Hnp];
      [unfold turn_ok; intros H; now contradiction H | ].
    destruct (_ || _).
    + apply (Hgoal np r _ false eq_refl Hnp). left. lia.
    + destruct (_ && _).
      * apply (Hgoal np r _ true eq_refl Hnp). right. right. auto.
      * apply (Hgoal np r _ false eq_refl Hnp). right. now left.
  - change (Z.lor 123 (shl 0)) with 123. rewrite Hr.
    destruct (Z.eqb_spec np BAD) as [-> | Hnp];
      [unfold turn_ok; intros H; now contradiction H | ].
    destruct (_ && _).
    + apply (Hgoal np r _ false eq_refl Hnp). left. lia.
    + apply (Hgoal np r _ false eq_refl Hnp). right. now left.
Qed.

Lemma if_ok rec lo s :
  nested_ok rec ->
  (getNext (fin s)).1 = 40 -> Inv lo s -> turn_ok lo s (recBody rec s).
Proof.
  intros Hrec Hcc HI. pose proof HI as (Hlo & Hop & Hk & H64 & H58 & Hll & Hbc).
  open_body cc f1. subst cc. rewrite runLength_plain by reflexivity.
  cbv beta iota zeta. change (Z.lor 40 (shl 0)) with 40.
  destruct (rec (enter (<[cp s := 40]> (mimem s)) f1 (cp s + 1) (ll s)
                       (Some (bf s)))) as [[np r] | | ] eqn:Hr;
    [ | exact I | exact I].
  destruct (Z.eqb_spec np BAD) as [-> | Hnp];
    [unfold turn_ok; intros H; now contradiction H | ].
  destruct (nested_clean rec lo s _ f1 (ll s) (Some (bf s)) np r 40 Hrec HI
              eq_refl) as (N1 & N2 & N3 & N4); auto; try discriminate.
  { intros [H | H]; discriminate H. }
  unfold turn_ok, Inv, Keep. cbn [cp op mimem ll bf pi].
  rewrite !N2 by lia.
  assert (Hbf : (default (bf s) (pi r) = bf s /\
                 forall i, cp s + 1 <= i < np -> ~ is_bc (word (mimem r) i)) \/
                (ll s <> BAD /\ default (bf s) (pi r) <> 0)).
  { destruct N4 as [[Hp N4] | (Hl & v & x & Hv & Hx & Hp)].
    - left. rewrite Hp. auto.
    - right. split; [exact Hl | ]. rewrite Hp. cbn.
      intros H0. apply Z.lor_eq_0_iff in H0 as [_ H0]. contradiction. }
  repeat split; try lia; auto.
  - intros i Hi Hb. destruct Hbf as [[-> N4'] | [_ Hne]]; [ | exact Hne].
    destruct (Z_lt_ge_dec i (cp s)) as [Hlt | Hge].
    + rewrite N2 in Hb by lia. apply (Hbc i); [lia | exact Hb].
    + exfalso. destruct (Z.eq_dec i (cp s)) as [-> | Hn2]; [now apply N3 | ].
      apply (N4' i); [lia | exact Hb].
  - intros i Hi. apply N2. lia.
Qed.

Lemma def_ok rec lo s :
  nested_ok rec ->
  (getNext (fin s)).1 = 58 -> Inv lo s -> turn_ok lo s (recBody rec s).
Proof.
  intros Hrec Hcc HI. pose proof HI as (Hlo & Hop & Hk & H64 & H58 & Hll & Hbc).
  open_body cc f1. subst cc. rewrite runLength_plain by reflexivity.
  cbv beta iota zeta. change (Z.lor 58 (shl 0)) with 58.
  destruct (rec (enter (<[cp s := 58]> (mimem s)) f1 (cp s + 1) BAD None))
    as [[np r] | | ] eqn:Hr; [ | exact I | exact I].
  destruct (Z.eqb_spec np BAD) as [-> | Hnp];
    [unfold turn_ok; intros H; now contradiction H | ].
  destruct (nested_clean rec lo s _ f1 BAD None np r 58 Hrec HI eq_refl)
    as (N1 & N2 & N3 & N4); auto; try discriminate.
  { intros [H | H]; discriminate H. }
  destruct N4 as [[_ N4] | (_ & v & x & Hv & _)]; [ | discriminate Hv].
  unfold turn_ok, Inv, Keep. cbn [cp op mimem ll bf pi].
  rewrite !N2 by lia.
  repeat split; try lia; auto.
  - intros i Hi Hb. destruct (Z_lt_ge_dec i (cp s)) as [Hlt | Hge].
    + rewrite N2 in Hb by lia. apply (Hbc i); [lia | exact Hb].
    + exfalso. destruct (Z.eq_dec i (cp s)) as [-> | Hn2]; [now apply N3 | ].
      apply (N4 i); [lia | exact Hb].
  - intros i Hi. apply N2. lia.
Qed.

(** Every turn of the loop of [recCompile] keeps the invariant, and a
    return is as [Post] says. *)
Lemma recBody_inv rec lo s :
  nested_ok rec -> Inv lo s -> turn_ok lo s (recBody rec s).
Proof.
  intros Hrec HI. destruct (special (getNext (fin s)).1) eqn:Hsp.
  - apply special_among in Hsp. cbn [In] in Hsp.
    destruct Hsp as [H | [H | [H | [H | [H | [H | [H | [H | [H | [H | [H |
                    [H | [H | [H | [H | [H | []]]]]]]]]]]]]]]]]; symmetry in H.
    + now apply swap_ok.
    + now apply dollar_ok.
    + apply (loop_ok rec lo s 91); auto.
    + apply (loop_ok rec lo s 123); auto.
    + now apply if_ok.
    + now apply def_ok.
    + apply (close_ok rec lo s 91); auto.
    + apply (close_ok rec lo s 123); auto.
    + now apply else_ok.
    + now apply fi_ok.
    + now apply semi_ok.
    + apply break_ok; auto.
    + apply break_ok; auto.
    + apply end_ok; auto.
    + apply end_ok; auto.
    + apply end_ok; auto.
  - destruct (recBody_other_inv rec lo s Hsp HI) as (s' & -> & H1 & H2).
    now split.
Qed.

Lemma Keep_Post (lo : Z) (s s' : frame) (np : Z) (r : frame) :
  Keep lo s s' -> Post lo s' np r -> Post lo s np r.
Proof.
  intros (K1 & K2 & K3 & K4) (P1 & P2 & P3 & P4).
  split; [exact P1 | ]. split; [ | split].
  - intros i Hi. rewrite P2 by exact Hi. now apply K3.
  - auto.
  - rewrite K1, K2 in P4. exact P4.
Qed.

(** The activations of [recCompile] are as [Post] says, whatever the
    fuel. *)
Lemma recLoop_Post (fuel : nat) (lo : Z) (s : frame) (np : Z) (r : frame) :
  recLoop fuel s = Value (np, r) -> np <> BAD -> Inv lo s -> Post lo s np r.
Proof.
  revert lo s np r. induction fuel as [ | fuel IH]; intros lo s np r Hrun Hnp HI;
    [discriminate Hrun | ].
  assert (Hrec : nested_ok (recLoop fuel)).
  { intros sn np' rn H1 H2 H3. now apply IH. }
  pose proof (recBody_inv (recLoop fuel) lo s Hrec HI) as Hturn.
  cbn [recLoop] in Hrun.
  destruct ((cp s <? 0) || (IMEM <=? cp s)); [discriminate Hrun | ].
  destruct (recBody (recLoop fuel) s) as [[s' | np' r'] | | ];
    try discriminate Hrun.
  - destruct Hturn as [HI' HK]. apply (Keep_Post lo s s'); [exact HK | ].
    now apply IH.
  - injection Hrun as -> ->. now apply Hturn.
Qed.

Lemma recLoop_nested_ok (fuel : nat) : nested_ok (recLoop fuel).
Proof. intros sn np rn H1 H2 H3. now apply (recLoop_Post fuel). Qed.

Ltac ground_eqb :=
  repeat match goal with
  | |- context [Z.eqb (Zpos ?a) (Zpos ?b)] =>
      let v := eval vm_compute in (Z.eqb (Zpos a) (Zpos b)) in
      change (Z.eqb (Zpos a) (Zpos b)) with v
  end.

Lemma loop_turn (rec : frame -> run (Z * frame)) (lo k : Z) (s : frame) :
  nested_ok rec -> Inv lo s -> (k = 91 \/ k = 123) ->
  op s = lo - 1 -> word (mimem s) (lo - 1) = k ->
  loop_turn_ok lo k s (recBody rec s).
Proof.
  intros Hrec HI Hkk Hop1 Hw.
  pose proof HI as (Hlo & Hop & Hk & H64 & H58 & Hll & Hbc).
  destruct (special (getNext (fin s)).1) eqn:Hsp.
  2: { rewrite recBody_other by exact Hsp. unfold loop_turn_ok.
       cbn [op mimem]. words. auto. }
  apply special_among in Hsp. cbn [In] in Hsp.
  destruct Hsp as [H | [H | [H | [H | [H | [H | [H | [H | [H | [H | [H |
                  [H | [H | [H | [H | [H | []]]]]]]]]]]]]]]]]; symmetry in H.
  all: unfold loop_turn_ok; open_body cc f1; subst cc.
  all: first [rewrite runLength_plain by reflexivity
             | destruct (runLength _ f1) as [rl f2]].
  all: cbv beta iota zeta.
  all: words; rewrite ?Hop1, ?Hw.
  - (* ~ *) cbn [op mimem]. words. auto.
  - (* $ *) cbn [op mimem]. words. auto.
  - (* [ *)
    destruct (rec _) as [[np r] | | ] eqn:Hr; [ | exact I | exact I].
    destruct (Z.eqb_spec np BAD) as [-> | Hnp];
      [intros Hn; now contradiction Hn | ].
    destruct (nested_clean rec lo s _ f1 (cp s + 1) None np r 91 Hrec HI
                eq_refl) as (N1 & N2 & _); auto; try discriminate.
    { intros [H | H]; discriminate H. }
    destruct (_ || _); [ | destruct (_ && _)]; cbn [op mimem]; words;
      rewrite N2 by lia; auto.
  - (* { *)
    destruct (rec _) as [[np r] | | ] eqn:Hr; [ | exact I | exact I].
    destruct (Z.eqb_spec np BAD) as [-> | Hnp];
      [intros Hn; now contradiction Hn | ].
    destruct (nested_clean rec lo s _ f1 (cp s + 1) None np r 123 Hrec HI
                eq_refl) as (N1 & N2 & _); auto; try discriminate.
    { intros [H | H]; discriminate H. }
    destruct (_ && _); cbn [op mimem]; words; rewrite N2 by lia; auto.
  - (* ( *)
    destruct (rec _) as [[np r] | | ] eqn:Hr; [ | exact I | exact I].
    destruct (Z.eqb_spec np BAD) as [-> | Hnp];
      [intros Hn; now contradiction Hn | ].
    destruct (nested_clean rec lo s _ f1 (ll s) (Some (bf s)) np r 40 Hrec HI
                eq_refl) as (N1 & N2 & _); auto; try discriminate.
    { intros [H | H]; discriminate H. }
    cbn [op mimem]. rewrite N2 by lia. auto.
  - (* : *)
    destruct (rec _) as [[np r] | | ] eqn:Hr; [ | exact I | exact I].
    destruct (Z.eqb_spec np BAD) as [-> | Hnp];
      [intros Hn; now contradiction Hn | ].
    destruct (nested_clean rec lo s _ f1 BAD None np r 58 Hrec HI
                eq_refl) as (N1 & N2 & _); auto; try discriminate.
    { intros [H | H]; discriminate H. }
    cbn [op mimem]. rewrite N2 by lia. auto.
  - (* ] *)
    destruct Hkk as [-> | ->]; ground_eqb; cbn [negb];
      [ | intros Hn; now contradiction Hn].
    intros _. cbn [mimem]. replace (lo - 1 + 1) with lo by lia.
    change (Z.lor 93 (shl 0)) with 93. auto.
  - (* } *)
    destruct Hkk as [-> | ->]; ground_eqb; cbn [negb];
      [intros Hn; now contradiction Hn | ].
    intros _. cbn [mimem]. replace (lo - 1 + 1) with lo by lia.
    change (Z.lor 125 (shl 0)) with 125. auto.
  - (* | *)
    destruct Hkk as [-> | ->]; ground_eqb; cbn [negb];
      intros Hn; now contradiction Hn.
  - (* ) *)
    destruct Hkk as [-> | ->]; ground_eqb; cbn [negb andb];
      intros Hn; now contradiction Hn.
  - (* ; *)
    destruct Hkk as [-> | ->]; ground_eqb; cbn [negb];
      intros Hn; now contradiction Hn.
  - (* ` *)
    destruct (ll s =? BAD); [intros Hn; now contradiction Hn | ].
    cbn [op mimem]. words. auto.
  - (* ' *)
    destruct (ll s =? BAD); [intros Hn; now contradiction Hn | ].
    cbn [op mimem]. words. auto.
  - (* @ *)
    assert (Hm : (lo - 1 =? -1) = false) by lia. rewrite Hm.
    destruct Hkk as [-> | ->]; ground_eqb; cbn [orb];
      intros Hn; now contradiction Hn.
  - (* ! *)
    assert (Hm : (lo - 1 =? -1) = false) by lia. rewrite Hm.
    destruct Hkk as [-> | ->]; ground_eqb; cbn [orb];
      intros Hn; now contradiction Hn.
  - (* EOF *)
    assert (Hm : (lo - 1 =? -1) = false) by lia. rewrite Hm.
    destruct Hkk as [-> | ->]; ground_eqb; cbn [orb];
      intros Hn; now contradiction Hn.
Qed.

Lemma instr_opcode (o x : Z) : 0 <= o < 256 -> Z.land (instr o x) IMASK = o.
Proof.
  intros Ho. unfold instr, IMASK, SHIFT. change 255 with (Z.ones 8).
  rewrite Z.land_ones by lia. rewrite <- (Z.mod_small o (2 ^ 8)) at 2 by lia.
  rewrite <- !Z.land_ones by lia. rewrite Z.land_lor_distr_l.
  replace (Z.land (Z.shiftl x 8) (Z.ones 8)) with 0; [apply Z.lor_0_r | ].
  symmetry. rewrite Z.land_ones by lia. rewrite Z.shiftl_mul_pow2 by lia.
  apply Z.mod_mul. lia.
Qed.

Lemma instr_imm (o x : Z) : 0 <= o < 256 -> Z.shiftr (instr o x) SHIFT = x.
Proof.
  intros Ho. unfold instr, SHIFT. rewrite Z.shiftr_lor.
  rewrite Z.shiftr_shiftl_l by lia. rewrite Z.sub_diag, Z.shiftl_0_r.
  rewrite (Z.shiftr_div_pow2 o) by lia. rewrite Z.div_small by lia.
  apply Z.lor_0_l.
Qed.





(** Beyond that distance the jump does not reach: a break 2^23 words
    before the end of its loop becomes a [|] whose immediate is -2^23. *)
Lemma break_offset_wraps :
  let im := backFill {[ 0 := 39 ]} 0 8388609 in
  word im 0 = Z.lor 124 (shl 8388608) /\
  Z.land (word im 0) IMASK = 124 /\ Z.shiftr (word im 0) SHIFT = -8388608.
Proof.
  intros im.
  assert (H : word im 0 = Z.lor 124 (shl 8388608)).
  { subst im. rewrite backFill_spec. reflexivity. }
  rewrite H. repeat split.
Qed.


(** ** The clear loop, compiled *)

(** A loop [[ ... ]] whose body compiles is dropped where the cell is
    known to be 0: the turn goes on with [cp] back on the word of the
    [[], which the next turn overwrites. *)
Lemma loop_dropped (k : nat) (s : frame) (f1 : FILE) (np : Z) (r : frame) :
  0 <= cp s -> getNext (fin s) = (91, f1) ->
  recLoop k (enter (<[cp s := 91]> (mimem s)) f1 (cp s + 1) (cp s + 1) None)
    = Value (np, r) ->
  np <> BAD ->
  let prev := word (mimem s) (cp s - 1) in
  cp s = 0 \/ Z.land prev IMASK = 93 \/ prev = 34 \/ prev = 64 ->
  exists im',
    recBody (recLoop k) s =
      Value (Next (mkFrame im' (fin r) (op s) (cp s) (ll s) (pi s) (bf s))) /\
    forall i, i < cp s -> word im' i = word (mimem s) i.
Proof.
  intros Hcp Hget Hrun Hnp prev Hdrop.
  assert (HI : Inv (cp s + 1)
                 (enter (<[cp s := 91]> (mimem s)) f1 (cp s + 1) (cp s + 1) None)).
  { apply entry_Inv; [lia | | ]; replace (cp s + 1 - 1) with (cp s) by lia;
      rewrite word_insert_eq; discriminate. }
  destruct (recLoop_Post k _ _ np r Hrun Hnp HI) as (P1 & P2 & _).
  cbn [enter mimem] in P2.
  unfold recBody. rewrite Hget. rewrite runLength_plain by reflexivity.
  cbv beta iota zeta. change (Z.lor 91 (shl 0)) with 91. rewrite Hrun.
  apply Z.eqb_neq in Hnp. rewrite Hnp.
  replace (cp s + 1 - 1) with (cp s) by lia.
  replace (cp s + 1 - 2) with (cp s - 1) by lia.
  rewrite !(word_orImm_ne _ _ (cp s - 1)) by lia.
  rewrite (P2 (cp s - 1)) by lia. rewrite word_insert_ne by lia. fold prev.
  assert (Ht : (cp s + 1 =? 1) || (Z.land prev IMASK =? 93) || (prev =? 34)
               || (prev =? 64) = true).
  { destruct Hdrop as [H | [H | [H | H]]]; rewrite ?H.
    - replace (cp s + 1 =? 1) with true by lia. reflexivity.
    - rewrite Z.eqb_refl. now rewrite orb_true_r.
    - rewrite (Z.eqb_refl 34). now rewrite !orb_true_r.
    - rewrite (Z.eqb_refl 64). now rewrite !orb_true_r. }
  rewrite Ht. eexists. split; [reflexivity | ].
  intros i Hi. rewrite !word_orImm_ne by lia. rewrite P2 by lia.
  now rewrite word_insert_ne by lia.
Qed.

(** The file [[-]]: the loop opens the program, the compiler drops it and
    emits no double quote; the file [+[-][-]]: the second loop follows a
    double quote and is dropped as well. *)
Lemma clear_loop_is_dropped_at_start :
  match recCompile ∅ (fopen (text "[-]")) 0 BAD None with
  | Value (np, r) => listing (mimem r) 0 (Z.to_nat np) = [(64, 0)]
  | Fuel | Fault => False
  end /\
  match recCompile ∅ (fopen (text "+[-][-]")) 0 BAD None with
  | Value (np, r) =>
      listing (mimem r) 0 (Z.to_nat np) = [(43, 1); (34, 0); (64, 0)]
  | Fuel | Fault => False
  end.
Proof. vm_compute. split; reflexivity. Qed.

(** C9, amended: from any state, the three words that [[-]] compiles to
    when the loop is kept, run to their end, and the one word of the
    double quote leave the same thread and the same global data, but for
    the PC (past the three words, past the one word) and the instruction
    memory they stand in: the current cell is 0 and nothing else has
    changed.  The compiler, reading [[-]] with room for three words, drops
    the loop when the [[] would be the first word of instruction memory or
    the word before it is a [ ] ], a double quote or a [@]: the turn goes
    on with [cp] where it was; everywhere else it leaves the double quote
    there and goes on one word further.  In both cases the rest of the
    stream, the other locals and the words before [cp] are untouched.  The
    drop is the same for every loop [[ ... ]] whose body compiles: its
    test comes before the one for the clear loop. *)
Theorem clear_loop_is_double_quote `{P : Platform} :
  (forall (t : TCB) (m : Machine) (imq : gmap Z Z) (b cost quanta : Z),
     word (Gimem m) (pc t) = instr 91 2 ->
     word (Gimem m) (pc t + 1) = instr 45 1 ->
     word (Gimem m) (pc t + 2) = instr 93 2 ->
     word imq b = 34 ->
     let m' := set_cell (cmem t) (dp t) 0 m in
     (exists n, turns n t cost quanta m = Continue (set_pc (pc t + 3) t) cost m') /\
     dispatch (set_pc b t) cost quanta (set_Gimem imq m) =
       Continue (set_pc (b + 1) t) cost (set_Gimem imq m') /\
     cell m' (cmem t) (dp t) = 0) /\
  (forall (k : nat) (s : frame) (rest : list Z),
     bytes (fin s) = 91 :: 45 :: 93 :: rest ->
     getNext_done (fin s) = BAD ->
     0 <= cp s -> cp s + 2 < IMEM ->
     let prev := word (mimem s) (cp s - 1) in
     exists s',
       recBody (recLoop (S (S k))) s = Value (Next s') /\
       bytes (fin s') = rest /\
       (op s', ll s', pi s', bf s') = (op s, ll s, pi s, bf s) /\
       (forall i, i < cp s -> word (mimem s') i = word (mimem s) i) /\
       if (cp s =? 0) || (Z.land prev IMASK =? 93) || (prev =? 34)
          || (prev =? 64)
       then cp s' = cp s
       else word (mimem s') (cp s) = 34 /\ cp s' = cp s + 1) /\
  (forall (k : nat) (s : frame) (f1 : FILE) (np : Z) (r : frame),
     0 <= cp s -> getNext (fin s) = (91, f1) ->
     recLoop k (enter (<[cp s := 91]> (mimem s)) f1 (cp s + 1) (cp s + 1) None)
       = Value (np, r) ->
     np <> BAD ->
     let prev := word (mimem s) (cp s - 1) in
     cp s = 0 \/ Z.land prev IMASK = 93 \/ prev = 34 \/ prev = 64 ->
     exists im',
       recBody (recLoop k) s =
         Value (Next (mkFrame im' (fin r) (op s) (cp s) (ll s) (pi s) (bf s))) /\
       forall i, i < cp s -> word im' i = word (mimem s) i).
Proof.
  split; [ | split].
  - intros t m imq b cost quanta Ho Hb Hc Hq m'. split; [ | split].
    + destruct (clear_loop_run m (pc t) cost Ho Hb Hc t quanta) as [n Hn].
      exists n. now rewrite set_pc_id in Hn.
    + rewrite dispatch_zero; [reflexivity | ].
      cbn [set_pc pc]. change (Gimem (set_Gimem imq m)) with imq.
      now rewrite Hq.
    + apply cell_set_cell_zero.
  - apply clear_loop_compiles.
  - apply loop_dropped.
Qed.

Lemma clear_loop_is_double_quote_witness :
  let m := set_cell Gsmem 0 5
             (bench SCHEDULE_PROCESS [instr 91 2; instr 45 1; instr 93 2] []) in
  let kept := enter {[ 0 := instr 43 1 ]} (fopen (text "[-].")) 1 BAD None in
  let dropped := enter ∅ (fopen (text "[-].")) 0 BAD None in
  let after := enter {[ 0 := 34 ]} (fopen (text "[+>]")) 1 BAD None in
  (exists n,
     @turns (LP64 true) n bench_thread 1 0 m =
       Continue (set_pc 3 bench_thread) 1 (set_cell Gsmem 0 0 m)) /\
  (exists s', recBody (recLoop 2) kept = Value (Next s') /\
              word (mimem s') 1 = 34 /\ cp s' = 2) /\
  (exists s', recBody (recLoop 2) dropped = Value (Next s') /\ cp s' = 0) /\
  (exists s', recBody (recLoop 5) after = Value (Next s') /\ cp s' = 1 /\
              bytes (fin s') = []).
Proof.
  intros m kept dropped after.
  destruct (@clear_loop_is_double_quote (LP64 true)) as (Hrun & Hclear & Hdrop).
  split; [ | split; [ | split]].
  - destruct (Hrun bench_thread m {[ 0 := 34 ]} 0 1 0) as [Hn _];
      [vm_compute; reflexivity .. | ].
    exact Hn.
  - destruct (Hclear 0%nat kept [46]) as (s' & Hs & _ & _ & _ & Hc);
      [reflexivity | reflexivity | vm_compute; discriminate | reflexivity | ].
    exists s'. split; [exact Hs | ]. destruct Hc as [Hw Hcp].
    split; [exact Hw | exact Hcp].
  - destruct (Hclear 0%nat dropped [46]) as (s' & Hs & _ & _ & _ & Hc);
      [reflexivity | reflexivity | vm_compute; discriminate | reflexivity | ].
    exists s'. split; [exact Hs | exact Hc].
  - pose (f1 := (getNext (fin after)).2).
    destruct (recLoop 5 (enter (<[cp after := 91]> (mimem after))
                f1 (cp after + 1) (cp after + 1) None))
      as [[np r] | | ] eqn:Hr; [ | vm_compute in Hr; discriminate Hr ..].
    destruct (Hdrop 5%nat after f1 np r) as (im' & Hs & _);
      [vm_compute; discriminate | reflexivity | exact Hr
      | vm_compute in Hr; injection Hr as <- _; discriminate
      | right; right; left; reflexivity | ].
    eexists. split; [exact Hs | ]. split; [reflexivity | ].
    vm_compute in Hr. injection Hr as _ <-. reflexivity.
Defined.

(** ** The compiler returns *)

Lemma recognized_not_EOF (c : Z) : recognized c = true -> c <> EOF.
Proof. intros H ->. discriminate H. Qed.

Lemma skipCrap_spec (bs : list Z) :
  ((skipCrap bs).1 = EOF /\ (skipCrap bs).2 = []) \/
  (recognized (skipCrap bs).1 = true /\
   (length (skipCrap bs).2 < length bs)%nat).
Proof.
  induction bs as [ | c rest IH]; [now left | ].
  cbn [skipCrap]. destruct (recognized c) eqn:Hc.
  - right. cbn [fst snd length]. split; [exact Hc | lia].
  - destruct IH as [IH | [IH1 IH2]]; [now left | right].
    split; [exact IH1 | cbn [length]; lia].
Qed.

(** [getNext] answers [EOF] at the end of the file, which it marks, or a
    character of its [switch], which it has read. *)
Lemma getNext_spec (f : FILE) :
  done_at_eof f ->
  done_at_eof (getNext f).2 /\
  (((getNext f).1 = EOF /\ at_eof (getNext f).2 = true /\
    (ahead (getNext f).2 <= ahead f)%nat) \/
   (recognized (getNext f).1 = true /\ getNext_done (getNext f).2 <> GOOD /\
    (ahead (getNext f).2 < ahead f)%nat)).
Proof.
  intros Hf. unfold getNext.
  destruct (Z.eqb_spec (getNext_done f) GOOD) as [Hd | Hd].
  - cbn [fst snd]. split; [exact Hf | left]. auto.
  - pose proof (skipCrap_spec (bytes f)) as Hs.
    destruct (skipCrap (bytes f)) as [c rest]. cbn [fst snd] in Hs.
    destruct Hs as [[-> ->] | [Hc Hlen]].
    + change (EOF =? EOF) with true. cbv iota. cbn [fst snd].
      split; [intros _; reflexivity | left].
      unfold ahead. cbn [bytes at_eof length]. repeat split; lia.
    + pose proof (recognized_not_EOF c Hc) as Hne.
      apply Z.eqb_neq in Hne. rewrite Hne. cbn [fst snd].
      split; [intros H; now apply Hf | right].
      unfold ahead. cbn [bytes getNext_done]. auto.
Qed.

(** The loop of the run length stops because the next character is
    another one, not because the model has counted its turns out; the
    character it stops on is read ahead. *)
Lemma runLoop_spec (n : nat) (cc rl np : Z) (f : FILE) :
  cc <> EOF -> done_at_eof f ->
  (np <> EOF -> getNext_done f <> GOOD) ->
  (weight np f <= n)%nat ->
  let r := runLoop n cc rl np f in
  r.1.2 <> cc /\ done_at_eof r.2 /\
  (r.1.2 <> EOF -> getNext_done r.2 <> GOOD) /\
  (weight r.1.2 r.2 <= weight np f)%nat.
Proof.
  intros Hcc. revert rl np f.
  induction n as [ | n IH]; intros rl np f Hf Hd Hw r; subst r.
  - cbn [runLoop fst snd]. repeat split; auto.
    unfold weight in Hw. destruct (Z.eqb_spec np EOF) as [-> | Hne]; [auto | lia].
  - cbn [runLoop]. destruct (Z.eqb_spec np cc) as [-> | Hne].
    + pose proof (getNext_spec f Hf) as [Hf' Hg].
      destruct (getNext f) as [np' f']. cbn [fst snd] in *.
      assert (Hw' : (weight np' f' <= n)%nat /\
                    (weight np' f' <= weight cc f)%nat /\
                    (np' <> EOF -> getNext_done f' <> GOOD)).
      { unfold weight in *. apply Z.eqb_neq in Hcc. rewrite Hcc in *.
        destruct Hg as [(-> & _ & Hl) | (Hr & Hd' & Hl)].
        - change (EOF =? EOF) with true. cbv iota.
          split; [lia | ]. split; [lia | ]. intros H; now contradiction H.
        - apply recognized_not_EOF, Z.eqb_neq in Hr. rewrite Hr.
          split; [lia | ]. split; [lia | auto]. }
      destruct Hw' as (W1 & W2 & W3).
      destruct (IH (rl + 1) np' f' Hf' W3 W1) as (R1 & R2 & R3 & R4).
      repeat split; auto. lia.
    + cbn [fst snd]. repeat split; auto.
Qed.

Lemma repeatable_not_EOF (cc : Z) : repeatable cc = true -> cc <> EOF.
Proof. intros H ->. discriminate H. Qed.

(** The run length leaves the stream no longer than it was. *)
Lemma runLength_spec (cc : Z) (f : FILE) :
  done_at_eof f ->
  done_at_eof (runLength cc f).2 /\ (ahead (runLength cc f).2 <= ahead f)%nat.
Proof.
  intros Hf. unfold runLength. destruct (repeatable cc) eqn:Hrep;
    [ | cbn [snd]; auto].
  pose proof (repeatable_not_EOF cc Hrep) as Hcc.
  pose proof (getNext_spec f Hf) as [Hf1 Hg].
  destruct (getNext f) as [np f1]. cbn [fst snd] in *.
  assert (Hd1 : np <> EOF -> getNext_done f1 <> GOOD).
  { destruct Hg as [(-> & _) | (_ & Hd & _)]; [intros H; now contradiction H | auto]. }
  assert (Hw1 : (weight np f1 <= S (length (bytes f1)))%nat).
  { unfold weight, ahead. destruct (np =? EOF); lia. }
  pose proof (runLoop_spec (S (length (bytes f1))) cc 1 np f1 Hcc Hf1 Hd1 Hw1)
    as (R1 & R2 & R3 & R4).
  cbv zeta in R1, R2, R3, R4.
  destruct (runLoop (S (length (bytes f1))) cc 1 np f1) as [[rl np'] f2].
  cbn [fst snd] in *.
  assert (Hw : (weight np f1 <= ahead f)%nat).
  { unfold weight. destruct Hg as [(-> & _ & Hl) | (Hr & _ & Hl)].
    - change (EOF =? EOF) with true. cbv iota. lia.
    - apply recognized_not_EOF, Z.eqb_neq in Hr. rewrite Hr. lia. }
  unfold unGetNext. unfold weight in R4, Hw.
  revert R4. destruct (Z.eqb_spec np' EOF) as [He | Hne]; intros R4.
  - split; [exact R2 | lia].
  - split; [intros H; cbn [getNext_done] in H; now apply R3 in H | ].
    unfold ahead in *. cbn [bytes length]. lia.
Qed.

Lemma recBody_reads (rec : frame -> run (Z * frame)) (s : frame) :
  rec_reads rec -> done_at_eof (fin s) -> turn_reads rec s (recBody rec s).
Proof.
  intros Hrec Hs.
  pose proof (getNext_spec (fin s) Hs) as [Hf1 Hg].
  assert (Hother : special (getNext (fin s)).1 = false ->
                   turn_reads rec s (recBody rec s)).
  { intros Hsp. rewrite recBody_other by exact Hsp.
    destruct Hg as [(He & _) | (Hr & Hd & Hl)];
      [rewrite He in Hsp; discriminate Hsp | ].
    pose proof (runLength_spec (getNext (fin s)).1 (getNext (fin s)).2 Hf1)
      as [R1 R2].
    cbn [turn_reads fin]. split; [exact R1 | lia]. }
  destruct (special (getNext (fin s)).1) eqn:Hsp; [ | now apply Hother].
  clear Hother. apply special_among in Hsp. unfold recBody.
  pose proof (runLength_spec (getNext (fin s)).1 (getNext (fin s)).2 Hf1)
    as [R1 R2].
  destruct (getNext (fin s)) as [cc f1]. cbn [fst snd] in *.
  destruct (runLength cc f1) as [rl f2] eqn:Hrl. cbn [fst snd] in *.
  assert (Hpast : cc = EOF \/ (ahead f2 < ahead (fin s))%nat).
  { destruct Hg as [(He & _) | (_ & _ & Hl)]; [now left | right; lia]. }
  assert (Hret : past (fin s) f2).
  { split; [exact R1 | ].
    destruct Hg as [(He & Ha & Hl) | (_ & _ & Hl)]; [right | left; lia].
    subst cc. unfold runLength in Hrl. cbn in Hrl. injection Hrl as _ <-.
    auto. }
  assert (Hafter : forall r, past f2 (fin r) -> cc <> EOF ->
            done_at_eof (fin r) /\ (ahead (fin r) < ahead (fin s))%nat /\
            past (fin s) (fin r)).
  { intros r [Q1 Q2] Hne.
    assert (Hl : (ahead f2 < ahead (fin s))%nat)
      by (destruct Hpast as [He | Hl]; [contradiction | exact Hl]).
    split; [exact Q1 | ]. split; [lia | ]. split; [exact Q1 | left; lia]. }
  assert (Hnext : cc <> EOF ->
            done_at_eof f2 /\ (ahead f2 < ahead (fin s))%nat).
  { intros Hne. split; [exact R1 | ].
    destruct Hpast as [He | Hl]; [contradiction | exact Hl]. }
  cbn [In] in Hsp.
  destruct Hsp as [H | [H | [H | [H | [H | [H | [H | [H | [H | [H | [H |
                  [H | [H | [H | [H | [H | []]]]]]]]]]]]]]]]]; subst cc;
    cbv beta iota zeta.
  all: try (destruct (rec _) as [[np r] | | ] eqn:Hr;
            [ destruct (Hafter r (Hrec _ np r Hr R1)) as (A1 & A2 & A3);
              [discriminate | ]
            | cbn [turn_reads]; eexists; split; [exact Hr | ];
              cbn [fin enter]; apply Hnext; discriminate
            | exact I ]).
  all: repeat match goal with
       | |- turn_reads _ _ (if ?b then _ else _) => destruct b
       | |- turn_reads _ _ (match pi ?s with _ => _ end) => destruct (pi s)
       end.
  all: cbn [turn_reads fin]; auto.
  all: try (apply Hnext; discriminate).
Qed.

Lemma recLoop_reads (n : nat) : rec_reads (recLoop n).
Proof.
  induction n as [ | n IH]; intros s np r Hrun Hs; [discriminate Hrun | ].
  pose proof (recBody_reads (recLoop n) s IH Hs) as Hturn.
  cbn [recLoop] in Hrun.
  destruct ((cp s <? 0) || (IMEM <=? cp s)); [discriminate Hrun | ].
  destruct (recBody (recLoop n) s) as [[s' | np' r'] | | ];
    try discriminate Hrun.
  - destruct Hturn as [Hs' Hl].
    destruct (IH s' np r Hrun Hs') as [Q1 Q2].
    split; [exact Q1 | ]. destruct Q2 as [Q2 | [Q2 Q3]];
      [left; lia | right; split; [exact Q2 | lia]].
  - injection Hrun as -> ->. exact Hturn.
Qed.

(** [recCompile] returns: a turn of its loop reads a byte of the source
    or returns, and the count of the model is one more than the bytes
    there are. *)
Lemma recLoop_returns (n : nat) (s : frame) :
  done_at_eof (fin s) -> (ahead (fin s) < n)%nat -> recLoop n s <> Fuel.
Proof.
  revert s. induction n as [ | n IH]; intros s Hs Hn; [lia | ].
  pose proof (recBody_reads (recLoop n) s (recLoop_reads n) Hs) as Hturn.
  cbn [recLoop].
  destruct ((cp s <? 0) || (IMEM <=? cp s)); [discriminate | ].
  destruct (recBody (recLoop n) s) as [[s' | np' r'] | | ];
    try discriminate.
  - destruct Hturn as [Hs' Hl]. apply IH; [exact Hs' | lia].
  - destruct Hturn as (sn & Hf & Hsn & Hl). exfalso.
    apply (IH sn Hsn); [lia | exact Hf].
Qed.

Lemma recCompile_returns (im : gmap Z Z) (f : FILE) (c l : Z) (p : option Z) :
  done_at_eof f -> recCompile im f c l p <> Fuel.
Proof.
  intros Hf. unfold recCompile. apply recLoop_returns; [exact Hf | ].
  unfold ahead. cbn [fin enter]. lia.
Qed.

Lemma Compile_loop_returns `{P : Platform} (n : nat) (im : gmap Z Z)
    (f : FILE) (c : Z) (tsmem : nat) (m : Machine) :
  done_at_eof f -> (ahead f + (if at_eof f then 0 else 1) < n)%nat ->
  Compile_loop n im f c tsmem m <> Fuel.
Proof.
  revert im f c m. induction n as [ | n IH]; intros im f c m Hf Hn; [lia | ].
  cbn [Compile_loop]. unfold feof. destruct (at_eof f) eqn:He; [discriminate | ].
  destruct (createProcess _ _ _ _ _ _ _ m) as [[failed m1] | ];
    [ | discriminate].
  pose proof (recCompile_returns im f c BAD None Hf) as Hret.
  destruct (recCompile im f c BAD None) as [[np r] | | ] eqn:Hrun;
    [ | contradiction | discriminate].
  destruct (np =? BAD); [discriminate | ].
  destruct (_ =? 33); [discriminate | ].
  destruct (recLoop_reads _ _ _ _ Hrun Hf) as [Q1 Q2]. cbn [fin enter] in Q2.
  apply IH; [exact Q1 | ].
  destruct Q2 as [Q2 | [Q2 Q3]]; [destruct (at_eof (fin r)); lia | ].
  rewrite Q2. lia.
Qed.

(** [Compile] returns, and so does the part of [main] that loads a
    file. *)
Lemma loadFile_returns `{P : Platform} (src : list Z) (m : Machine) :
  loadFile src m <> Fuel.
Proof.
  unfold loadFile, Compile.
  assert (Hf : done_at_eof (fopen src)) by (intros H; discriminate H).
  pose proof (Compile_loop_returns (S (S (length (bytes (fopen src)))))
                (Gimem m) (fopen src) 0 Gsmem m Hf) as Hret.
  destruct (Compile_loop _ _ _ _ _ _) as [[[[ok im] f'] m1] | | ];
    [discriminate | | discriminate].
  exfalso. apply Hret; [ | reflexivity].
  unfold ahead. cbn [at_eof fopen]. lia.
Qed.

(** * Further properties of the code *)

(** ** Arithmetic on cells *)

(** Two integers that agree modulo 256 are the same [char]. *)
Lemma to_char_eq `{P : Platform} (a b : Z) :
  a mod 256 = b mod 256 -> to_char a = to_char b.
Proof.
  intros H. unfold to_char. destruct char_signed; [ | exact H].
  f_equal. rewrite <- (Zplus_mod_idemp_l a), <- (Zplus_mod_idemp_l b).
  now rewrite H.
Qed.

Lemma to_char_add_sub `{P : Platform} (v n : Z) :
  to_char (to_char (v + n) - n) = to_char v.
Proof.
  apply to_char_eq. rewrite <- Zminus_mod_idemp_l, to_char_mod.
  rewrite Zminus_mod_idemp_l. f_equal. lia.
Qed.

Lemma to_char_add_add `{P : Platform} (v a b : Z) :
  to_char (to_char (v + a) + b) = to_char (v + (a + b)).
Proof.
  apply to_char_eq. rewrite <- Zplus_mod_idemp_l, to_char_mod.
  rewrite Zplus_mod_idemp_l. f_equal. lia.
Qed.

Lemma Gimem_set_cell (seg : nat) (i v : Z) (m : Machine) :
  Gimem (set_cell seg i v m) = Gimem m.
Proof. reflexivity. Qed.

(** X1: [+ n] followed by [- n] leaves the machine as it was, whatever n
    and whatever the signedness of [char], when the cell holds a [char]:
    the two wrap-arounds cancel. *)
Theorem plus_then_minus_restores `{P : Platform} (t : TCB) (m : Machine)
    (mem : list Z) (cost quanta n : Z) :
  word (Gimem m) (pc t) = instr 43 n ->
  word (Gimem m) (pc t + 1) = instr 45 n ->
  segs m !! cmem t = Some mem -> 0 <= dp t < Z.of_nat (length mem) ->
  to_char (cell m (cmem t) (dp t)) = cell m (cmem t) (dp t) ->
  turns 2 t cost quanta m = Continue (set_pc (pc t + 2) t) cost m.
Proof.
  intros Hp Hm Hseg Hdp Hv. cbn [turns].
  pose proof (dispatch_plus t m cost quanta) as H1. cbv zeta in H1.
  rewrite H1 by (rewrite Hp; apply instr_opcode; lia). clear H1.
  rewrite Hp, instr_imm by lia.
  set (m1 := set_cell (cmem t) (dp t) _ m).
  pose proof (dispatch_minus (set_pc (pc t + 1) t) m1 cost (quanta - cost))
    as H2. cbv zeta in H2. cbn [set_pc pc cmem dp] in H2.
  change (Gimem m1) with (Gimem m) in H2.
  rewrite H2 by (rewrite Hm; apply instr_opcode; lia). clear H2.
  rewrite Hm, instr_imm by lia. subst m1.
  rewrite (cell_set_cell _ _ _ _ mem Hseg Hdp).
  rewrite set_cell_set_cell, to_char_add_sub, Hv, set_cell_same.
  f_equal. unfold set_pc. cbn. f_equal. lia.
Qed.

Lemma plus_then_minus_restores_witness :
  let m := set_segs {[ Gsmem := [250; 7] ]}
             (bench SCHEDULE_PROCESS [instr 43 9; instr 45 9] []) in
  @turns (LP64 false) 2 bench_thread 1 10 m = Continue (set_pc 2 bench_thread) 1 m.
Proof.
  intros m.
  apply (@plus_then_minus_restores (LP64 false) bench_thread m [250; 7] 1 10 9);
    vm_compute; try reflexivity.
  split; [discriminate | reflexivity].
Defined.

Lemma segs_set_cell (seg : nat) (i v : Z) (m : Machine) (mem : list Z) :
  segs m !! seg = Some mem ->
  segs (set_cell seg i v m) !! seg = Some (poke mem i v).
Proof.
  intros H. unfold set_cell. cbn [segs set_segs].
  rewrite lookup_alter_eq, H. reflexivity.
Qed.

Lemma turns_run_of_plus `{P : Platform} (k : nat) (t : TCB) (m : Machine)
    (mem : list Z) (cost quanta : Z) :
  (forall i, 0 <= i < Z.of_nat (S k) -> word (Gimem m) (pc t + i) = instr 43 1) ->
  segs m !! cmem t = Some mem -> 0 <= dp t < Z.of_nat (length mem) ->
  turns (S k) t cost quanta m =
    Continue (set_pc (pc t + Z.of_nat (S k)) t) cost
      (set_cell (cmem t) (dp t)
         (to_char (cell m (cmem t) (dp t) + Z.of_nat (S k))) m).
Proof.
  revert t m mem quanta.
  induction k as [ | k IH]; intros t m mem quanta Hw Hseg Hdp.
  - cbn [turns]. pose proof (dispatch_plus t m cost quanta) as H1.
    cbv zeta in H1. specialize (Hw 0). rewrite Z.add_0_r in Hw.
    rewrite H1 by (rewrite Hw by lia; apply instr_opcode; lia).
    rewrite Hw, instr_imm by lia. reflexivity.
  - change (turns (S (S k)) t cost quanta m) with
      (match dispatch t cost quanta m with
       | Continue me' cost' m' => turns (S k) me' cost' (quanta - cost') m'
       | Return code me' m' => Return code me' m'
       | Undefined me' m' => Undefined me' m'
       end).
    pose proof (dispatch_plus t m cost quanta) as H1. cbv zeta in H1.
    pose proof (Hw 0) as Hw0. rewrite Z.add_0_r in Hw0.
    rewrite H1 by (rewrite Hw0 by lia; apply instr_opcode; lia). clear H1.
    rewrite Hw0, instr_imm by lia.
    set (m1 := set_cell (cmem t) (dp t) _ m).
    rewrite (IH (set_pc (pc t + 1) t) m1 (poke mem (dp t)
               (to_char (cell m (cmem t) (dp t) + 1)))).
    + cbn [set_pc pc cmem dp]. subst m1.
      rewrite (cell_set_cell _ _ _ _ mem Hseg Hdp).
      rewrite set_cell_set_cell, to_char_add_add.
      f_equal; [ | do 2 f_equal; lia].
      unfold set_pc. cbn. f_equal. lia.
    + intros i Hi. cbn [set_pc pc]. change (Gimem m1) with (Gimem m).
      replace (pc t + 1 + i) with (pc t + (i + 1)) by lia. apply Hw. lia.
    + cbn [set_pc cmem]. now apply segs_set_cell.
    + cbn [set_pc dp]. now rewrite length_poke.
Qed.

(** X2: a run of k words [+ 1] and the one word [+ k], which is what the
    compiler writes for k plus signs in a row, leave the same data: the
    cell holds the [char] of its value plus k, and nothing else has
    changed; only the PC (k words on, one word on) tells them apart. *)
Theorem run_of_plus_is_one_word `{P : Platform} (k : nat) (t : TCB)
    (m : Machine) (mem : list Z) (im : gmap Z Z) (cost quanta : Z) :
  (0 < k)%nat ->
  (forall i, 0 <= i < Z.of_nat k -> word (Gimem m) (pc t + i) = instr 43 1) ->
  word im (pc t) = instr 43 (Z.of_nat k) ->
  segs m !! cmem t = Some mem -> 0 <= dp t < Z.of_nat (length mem) ->
  let m' := set_cell (cmem t) (dp t)
              (to_char (cell m (cmem t) (dp t) + Z.of_nat k)) m in
  turns k t cost quanta m = Continue (set_pc (pc t + Z.of_nat k) t) cost m' /\
  dispatch t cost quanta (set_Gimem im m) =
    Continue (set_pc (pc t + 1) t) cost (set_Gimem im m').
Proof.
  intros Hk Hw Him Hseg Hdp m'. split.
  - destruct k as [ | k]; [lia | ]. now apply (turns_run_of_plus k t m mem).
  - pose proof (dispatch_plus t (set_Gimem im m) cost quanta) as H1.
    cbv zeta in H1. change (Gimem (set_Gimem im m)) with im in H1.
    rewrite H1 by (rewrite Him; apply instr_opcode; lia).
    rewrite Him, instr_imm by lia. reflexivity.
Qed.

Lemma run_of_plus_is_one_word_witness :
  let m := set_segs {[ Gsmem := [254; 7] ]}
             (bench SCHEDULE_PROCESS [instr 43 1; instr 43 1; instr 43 1] []) in
  let m' := set_cell Gsmem 0 1 m in
  @turns (LP64 false) 3 bench_thread 1 10 m = Continue (set_pc 3 bench_thread) 1 m' /\
  @dispatch (LP64 false) bench_thread 1 10 (set_Gimem {[ 0 := instr 43 3 ]} m) =
    Continue (set_pc 1 bench_thread) 1 (set_Gimem {[ 0 := instr 43 3 ]} m').
Proof.
  intros m m'.
  apply (@run_of_plus_is_one_word (LP64 false) 3 bench_thread m [254; 7]
           {[ 0 := instr 43 3 ]} 1 10); try (vm_compute; reflexivity).
  - lia.
  - intros i Hi. assert (i = 0 \/ i = 1 \/ i = 2) as [-> | [-> | ->]] by lia;
      vm_compute; reflexivity.
  - vm_compute. split; [discriminate | reflexivity].
Defined.

(** ** Input *)




(** ** Calls and returns *)

Lemma stack_at_insert (t : TCB) (i j v : Z) :
  0 <= i -> 0 <= j ->
  stack_at (set_stack (<[Z.to_nat i := v]> (stack t)) t) j =
    if (i =? j) && (i <? Z.of_nat (length (stack t))) then v else stack_at t j.
Proof.
  intros Hi Hj. unfold stack_at. cbn [stack set_stack].
  destruct (decide (0 <= j)) as [_ | Hn]; [ | lia].
  destruct (Z.eqb_spec i j) as [-> | Hne]; cbn [andb].
  - destruct (Z.ltb_spec j (Z.of_nat (length (stack t)))) as [Hlt | Hge].
    + rewrite list_lookup_insert_eq by lia. reflexivity.
    + rewrite list_insert_ge by lia. reflexivity.
  - rewrite list_lookup_insert_ne by lia. reflexivity.
Qed.

(** X4: a call that is not a tail call pushes the address of the next
    word in the slot below the stack pointer and touches no other slot;
    a [;] met later with the stack pointer and this slot as the call left
    them resumes after the call, with the stack pointer of before the
    call. *)
Theorem call_then_return_resumes `{P : Platform} (t : TCB) (m : Machine)
    (cost quanta body : Z) :
  let w := word (Gimem m) (pc t) in
  is_name w ->
  proc_at t (procNum w) = Some body ->
  word (Gimem m) (pc t + 1) <> 59 -> word (Gimem m) (pc t + 1) <> 36 ->
  0 < sp t <= STACKSIZE ->
  Z.of_nat (length (stack t)) = STACKSIZE ->
  exists t1,
    dispatch t cost quanta m = Continue t1 cost m /\
    pc t1 = body /\ sp t1 = sp t - 1 /\ stack_at t1 (sp t1) = pc t + 1 /\
    (forall j, 0 <= j -> j <> sp t1 -> stack_at t1 j = stack_at t j) /\
    forall (t2 : TCB) (m2 : Machine) (cost2 quanta2 : Z),
      Z.land (word (Gimem m2) (pc t2)) IMASK = 59 ->
      sp t2 = sp t1 -> stack_at t2 (sp t2) = pc t + 1 ->
      dispatch t2 cost2 quanta2 m2 =
        Continue (set_sp (sp t) (set_pc (pc t + 1) t2)) cost2 m2.
Proof.
  intros w Hname Hbody H59 H36 Hsp Hlen.
  pose proof (dispatch_call t m cost quanta Hname) as Hd. cbv zeta in Hd.
  fold w in Hd. rewrite Hbody in Hd.
  apply Z.eqb_neq in H59, H36. rewrite H59, H36 in Hd. cbn [orb] in Hd.
  assert (Hs0 : (sp t =? 0) = false) by lia. rewrite Hs0 in Hd.
  eexists. split; [exact Hd | ]. cbn [pc sp set_pc set_sp].
  split; [reflexivity | ]. split; [reflexivity | ]. split; [ | split].
  - change (stack_at (set_pc ?b (set_sp ?s ?x)) ?j) with (stack_at x j).
    rewrite stack_at_insert by lia.
    assert (Hin : (sp t - 1 =? sp t - 1) && (sp t - 1 <? Z.of_nat (length (stack t))) = true) by lia.
    now rewrite Hin.
  - intros j Hj Hne.
    change (stack_at (set_pc ?b (set_sp ?s ?x)) ?j) with (stack_at x j).
    rewrite stack_at_insert by lia.
    assert (Hin : (sp t - 1 =? j) = false) by lia. now rewrite Hin.
  - intros t2 m2 cost2 quanta2 Hop Hsp2 Hslot.
    unfold dispatch. rewrite Hop. cbv beta iota zeta.
    cbn [set_pc sp pc].
    assert (Hns : (sp t2 =? STACKSIZE) = false) by lia. rewrite Hns.
    change (stack_at (set_pc ?b ?x) ?j) with (stack_at x j).
    rewrite Hslot, Hsp2. unfold set_sp, set_pc. cbn. f_equal. f_equal. lia.
Qed.

Lemma call_then_return_resumes_witness :
  let t := set_procs (<[10%nat := Some 5]> (procs bench_thread)) bench_thread in
  let m := bench SCHEDULE_PROCESS [65; instr 43 1; 64; 64; 64; 59] [] in
  exists t1,
    @dispatch (LP64 true) t 1 10 m = Continue t1 1 m /\
    pc t1 = 5 /\ sp t1 = 1023 /\
    @dispatch (LP64 true) t1 1 9 m =
      Continue (set_sp 1024 (set_pc 1 t1)) 1 m.
Proof.
  intros t m.
  assert (Hw : word (Gimem m) (pc t) = 65) by (vm_compute; reflexivity).
  pose proof (@call_then_return_resumes (LP64 true) t m 1 10 5) as H.
  cbv zeta in H. rewrite Hw in H.
  destruct H as (t1 & Hd & Hpc & Hsp & Hslot & _ & Hret);
    [unfold is_name; lia | reflexivity | vm_compute; discriminate
    | vm_compute; discriminate | vm_compute; split; [reflexivity | discriminate]
    | reflexivity | ].
  exists t1. split; [exact Hd | ]. split; [exact Hpc | ]. split; [exact Hsp | ].
  apply Hret; [rewrite Hpc; vm_compute; reflexivity | reflexivity | exact Hslot].
Defined.

(** ** Swapping segments *)

Lemma dispatch_swap `{P : Platform} (t : TCB) (m : Machine)
    (cost quanta : Z) (p : PCB) :
  Z.land (word (Gimem m) (pc t)) IMASK = 126 ->
  pcbs m !! par t = Some p ->
  dispatch t cost quanta m =
    Continue
      (if decide (Some (cmem t) = pmem p) then
         set_cmem (dmem p) (set_pc (pc t + 1) t)
       else match pmem p with
            | Some pm => set_cmem pm (set_pc (pc t + 1) t)
            | None => set_pc (pc t + 1) t
            end) cost m.
Proof.
  intros Hop Hp. unfold dispatch. rewrite Hop. cbv beta iota zeta.
  cbn [set_pc par cmem]. rewrite Hp.
  destruct (decide _); [reflexivity | ]. now destruct (pmem p).
Qed.

(** X5: [~] ignores its run length.  In a process without parent segment
    it does nothing.  In a process with one, a thread that is in the
    segment of its process or in the parent segment goes to the other one,
    and a second [~] brings it back: two swaps leave the thread where it
    was. *)
Theorem swap_twice_is_identity `{P : Platform} (t : TCB) (m : Machine)
    (cost quanta : Z) (p : PCB) :
  Z.land (word (Gimem m) (pc t)) IMASK = 126 ->
  Z.land (word (Gimem m) (pc t + 1)) IMASK = 126 ->
  pcbs m !! par t = Some p ->
  (pmem p = None ->
   dispatch t cost quanta m = Continue (set_pc (pc t + 1) t) cost m) /\
  (forall pm, pmem p = Some pm -> cmem t = dmem p \/ cmem t = pm ->
   (exists t1, dispatch t cost quanta m = Continue t1 cost m /\
               cmem t1 = (if decide (cmem t = pm) then dmem p else pm)) /\
   turns 2 t cost quanta m = Continue (set_pc (pc t + 2) t) cost m).
Proof.
  intros Hop1 Hop2 Hp. split.
  - intros Hn. rewrite (dispatch_swap t m cost quanta p Hop1 Hp), Hn.
    destruct (decide _) as [H | _]; [discriminate H | reflexivity].
  - intros pm Hpm Hin.
    pose proof (dispatch_swap t m cost quanta p Hop1 Hp) as H1.
    rewrite Hpm in H1. split.
    + eexists. split; [exact H1 | ].
      destruct (decide (Some (cmem t) = Some pm)) as [[= He] | Hne];
        destruct (decide (cmem t = pm)) as [He' | Hne']; try reflexivity;
        congruence.
    + cbn [turns]. rewrite H1.
      assert (Hback : forall t1, par t1 = par t -> pc t1 = pc t + 1 ->
                dispatch t1 cost (quanta - cost) m =
                  Continue
                    (if decide (Some (cmem t1) = Some pm) then
                       set_cmem (dmem p) (set_pc (pc t + 2) t1)
                     else set_cmem pm (set_pc (pc t + 2) t1)) cost m).
      { intros t1 Hpar Hpc.
        rewrite (dispatch_swap t1 m cost (quanta - cost) p);
          [ | now rewrite Hpc | now rewrite Hpar].
        rewrite Hpm, Hpc. replace (pc t + 1 + 1) with (pc t + 2) by lia.
        reflexivity. }
      destruct (decide (Some (cmem t) = Some pm)) as [[= He] | Hne].
      * rewrite Hback by reflexivity. cbn [set_cmem cmem].
        destruct (decide (Some (dmem p) = Some pm)) as [[= Hd] | Hnd];
          f_equal; unfold set_cmem, set_pc; cbn [par procs pc dp cmem stack sp];
          destruct t as [a1 a2 a3 a4 a5 a6 a7]; cbn [par procs pc dp cmem stack sp] in *; congruence.
      * assert (Hc : cmem t = dmem p) by (destruct Hin; congruence).
        rewrite Hback by reflexivity. cbn [set_cmem cmem].
        destruct (decide (Some pm = Some pm)) as [_ | Hn]; [ | congruence].
        f_equal. unfold set_cmem, set_pc. cbn [par procs pc dp cmem stack sp].
        destruct t as [a1 a2 a3 a4 a5 a6 a7]; cbn [par procs pc dp cmem stack sp] in *; congruence.
Qed.

Lemma swap_twice_is_identity_witness :
  let m := set_pcbs {[ 0%nat := mkPCB [] (Some 7%nat) Gsmem 1 ]}
             (bench SCHEDULE_PROCESS [instr 126 1; instr 126 3] []) in
  @turns (LP64 true) 2 bench_thread 1 10 m = Continue (set_pc 2 bench_thread) 1 m.
Proof.
  intros m.
  destruct (@swap_twice_is_identity (LP64 true) bench_thread m 1 10
              (mkPCB [] (Some 7%nat) Gsmem 1)) as [_ H];
    [vm_compute; reflexivity | vm_compute; reflexivity | reflexivity | ].
  destruct (H 7%nat) as [_ H2]; [reflexivity | left; reflexivity | exact H2].
Defined.

(** ** The quantum *)

(** X6: the tick budget of a turn of [execute]: a quantum that is not
    negative is used as it is and no random number is drawn; a negative
    one draws a random number for each turn and gives a budget between 1
    and 128, never the 0 that would let the thread run forever. *)
Theorem turnQuanta_range (quanta : Z) (m : Machine) :
  (0 <= quanta -> turnQuanta quanta m = (quanta, m)) /\
  (quanta < 0 ->
   1 <= (turnQuanta quanta m).1 <= 128 /\
   (turnQuanta quanta m).2 = (rand m).2 /\
   (turnQuanta quanta m).1 = (rand m).1 mod 128 + 1).
Proof.
  unfold turnQuanta. split.
  - intros H. assert (Hq : (quanta <? 0) = false) by lia. now rewrite Hq.
  - intros H. assert (Hq : (quanta <? 0) = true) by lia. rewrite Hq.
    destruct (rand m) as [r m1]. cbn [fst snd].
    change 127 with (Z.ones 7). rewrite Z.land_ones by lia.
    pose proof (Z.mod_pos_bound r (2 ^ 7) ltac:(lia)) as Hb.
    change (2 ^ 7) with 128 in *. repeat split; lia.
Qed.

Lemma doQuanta_loop_forever `{P : Platform} (fuel : nat) (me : TCB)
    (cost q : Z) (m : Machine) (code : Z) (t' : TCB) (m' : Machine) :
  doQuanta_loop fuel true me cost q m = Some (code, t', m') ->
  exists n t0 c0 q0 m0,
    turns n me cost q m = Continue t0 c0 m0 /\
    dispatch t0 c0 q0 m0 = Return code t' m'.
Proof.
  revert me m q cost. induction fuel as [ | fuel IH]; intros me m q cost Hrun;
    [discriminate Hrun | ].
  cbn [doQuanta_loop orb] in Hrun.
  destruct (dispatch me cost q m) as [me1 cost1 m1 | code1 me1 m1 | me1 m1]
    eqn:Hd.
  - destruct (IH _ _ _ _ Hrun) as (n & t0 & c0 & q0 & m0 & Ht & Hr).
    exists (S n), t0, c0, q0, m0. split; [ | exact Hr].
    cbn [turns]. now rewrite Hd.
  - injection Hrun as <- <- <-.
    exists 0%nat, me, cost, q, m. split; [reflexivity | exact Hd].
  - discriminate Hrun.
Qed.

(** X7: with the quantum 0, [doQuanta] does not count ticks: when it
    returns, it is through a [return] of the instruction it has just
    dispatched ([*], [@], [;] on an empty stack, [_] on too small a
    cell), after the turns before it, never because the time is up. *)
Theorem zero_quantum_never_times_out `{P : Platform} (fuel : nat) (me : TCB)
    (m : Machine) (code : Z) (t' : TCB) (m' : Machine) :
  doQuanta fuel me 0 m = Some (code, t', m') ->
  exists n t0 c0 q0 m0,
    turns n me 1 0 m = Continue t0 c0 m0 /\
    dispatch t0 c0 q0 m0 = Return code t' m'.
Proof. apply doQuanta_loop_forever. Qed.

Lemma zero_quantum_never_times_out_witness :
  let m := set_segs {[ Gsmem := [0] ]}
             (bench SCHEDULE_PROCESS [instr 43 1; 42] []) in
  exists n t0 c0 q0 m0 t' m',
    @turns (LP64 true) n bench_thread 1 0 m = Continue t0 c0 m0 /\
    @dispatch (LP64 true) t0 c0 q0 m0 = Return 0 t' m'.
Proof.
  intros m.
  destruct (@doQuanta (LP64 true) 5 bench_thread 0 m) as [[[code t'] m'] | ] eqn:Hrun;
    [ | vm_compute in Hrun; discriminate Hrun].
  assert (Hc : code = 0).
  { assert (H : option_map (fun r => r.1.1) (@doQuanta (LP64 true) 5 bench_thread 0 m)
                = Some 0) by (vm_compute; reflexivity).
    rewrite Hrun in H. now injection H. }
  subst code.
  destruct (@zero_quantum_never_times_out (LP64 true) 5 bench_thread m 0 t' m' Hrun)
    as (n & t0 & c0 & q0 & m0 & H1 & H2).
  exists n, t0, c0, q0, m0, t', m'. split; assumption.
Defined.

(** ** A fork that succeeds *)

(** X8: when [%] is executed and [malloc] grants the PCB, the data segment
    and the TCB.  The ready list of the new PCB is what [malloc] left in
    the block: under the process scheduler a block that does not hold NULL
    there sends [schedule] through memory that holds no list, and the
    instruction has no defined result.  In every other case there are a
    new process and a new segment.  The new segment is a copy of the
    current segment of the forking thread as it is after the two stores of
    [%]: 0 in the current cell, 1 in the next one.  The parent segment of
    the new process is the segment of the process of the forking thread,
    also when this thread is in another segment.  The new process has one
    thread, which starts after the [%], on the next cell of the new
    segment, and is scheduled: in the ready list of the process under the
    process scheduler, on the thread list under the thread scheduler; the
    process is at the end of the process list. *)
Theorem fork_gives_a_private_copy `{P : Platform} (me : TCB) (m : Machine)
    (cost quanta : Z) (a' : alloc) (jp0 jp : list (option Z))
    (js0 js : list Z) (jr jr' : bool) (h : list alloc) (mem : list Z)
    (p : PCB) :
  Z.land (word (Gimem m) (pc me)) IMASK = 37 ->
  heap m = Block jp0 js0 jr :: a' :: Block jp js jr' :: h -> a' <> NoMem ->
  segs m !! cmem me = Some mem -> pcbs m !! par me = Some p ->
  let ndp := Z.land (dp me + 1) DMASK in
  let copy := poke (poke mem (dp me) 0) ndp 1 in
  if jr && (scheduler m =? SCHEDULE_PROCESS)
  then exists t' m', dispatch me cost quanta m = Undefined t' m'
  else
    exists c d m' q,
      dispatch me cost quanta m = Continue (set_pc (pc me + 1) me) cost m' /\
      pcbs m !! c = None /\ segs m !! d = None /\
      let child :=
        mkTCB c (memcpy_ptrs (resize (Z.to_nat NUMPROC) None jp) (procs me)
                             (NUMPROC * sizeof_int))
              (pc me + 1) ndp d
              (memcpy_ptrs (resize (Z.to_nat STACKSIZE) 0 js) (stack me)
                           (STACKSIZE * sizeof_int))
              (sp me) in
      segs m' = <[d := copy]> (<[cmem me := copy]> (segs m)) /\
      pcbs m' = <[c := q]> (pcbs m) /\
      pmem q = Some (dmem p) /\ dmem q = d /\ threads q = 1 /\
      (scheduler m = SCHEDULE_PROCESS -> readyList q = [child]) /\
      tListHead m' =
        (if scheduler m =? SCHEDULE_PROCESS then tListHead m
         else tListHead m ++ [child]) /\
      pListHead m' = pListHead m ++ [c] /\ heap m' = h.
Proof.
  intros Hop Hheap Ha' Hseg Hp ndp copy.
  unfold dispatch. rewrite Hop. cbv beta iota zeta.
  cbn [set_pc pc dp cmem par procs stack sp]. fold ndp.
  unfold par_dmem. cbn [set_pc par].
  unfold createProcess, createThread, malloc, schedule.
  destruct m as [pcs sg pl tl dl sl gi sc l ui o e hp r].
  unfold set_cell. machine_simpl. cbn [heap segs pcbs scheduler] in *. subst hp.
  rewrite Hp.
  destruct a' as [ | ja' jb' jc']; [contradiction | ].
  unfold set_pcbs, set_heap, set_segs, set_tList, set_pList; machine_simpl.
  set (sg2 := alter _ (cmem me) (alter _ (cmem me) sg)).
  assert (Hsg2 : sg2 = <[cmem me := copy]> sg).
  { subst sg2. apply map_eq. intros k.
    destruct (decide (cmem me = k)) as [<- | Hne].
    - rewrite !lookup_alter_eq, lookup_insert_eq, Hseg. reflexivity.
    - rewrite !lookup_alter_ne, lookup_insert_ne by done. reflexivity. }
  set (c := fresh (dom pcs)).
  assert (Hc : pcs !! c = None) by apply fresh_pcb_absent.
  set (d := fresh (dom sg2)).
  assert (Hd2 : sg2 !! d = None) by apply fresh_seg_absent.
  assert (Hd : sg !! d = None).
  { rewrite Hsg2 in Hd2. apply lookup_insert_None in Hd2. tauto. }
  assert (Hdc : d <> cmem me).
  { intros He. rewrite He, Hseg in Hd. discriminate Hd. }
  clearbody c d.
  rewrite insert_insert_eq.
  destruct (sc =? SCHEDULE_PROCESS) eqn:Hs; machine_simpl.
  - destruct jr; cbn [andb].
    + eexists _, _. reflexivity.
    + exists c, d. eexists. eexists. split; [reflexivity | ]. machine_simpl.
      split; [exact Hc | ]. split; [exact Hd | ].
      split; [ | split].
      * rewrite insert_insert_eq. rewrite lookup_insert_ne by done.
        rewrite Hsg2, lookup_insert_eq. reflexivity.
      * rewrite alter_alter. apply map_eq. intros k.
        destruct (decide (c = k)) as [<- | Hne].
        -- rewrite lookup_alter_eq, !lookup_insert_eq. reflexivity.
        -- rewrite lookup_alter_ne, !lookup_insert_ne by done. reflexivity.
      * repeat split; reflexivity.
  - rewrite andb_false_r.
    exists c, d. eexists. eexists. split; [reflexivity | ]. machine_simpl.
    split; [exact Hc | ]. split; [exact Hd | ].
    split; [ | split].
    + rewrite insert_insert_eq. rewrite lookup_insert_ne by done.
      rewrite Hsg2, lookup_insert_eq. reflexivity.
    + apply map_eq. intros k.
      destruct (decide (c = k)) as [<- | Hne].
      * rewrite lookup_alter_eq, !lookup_insert_eq. reflexivity.
      * rewrite lookup_alter_ne, !lookup_insert_ne by done. reflexivity.
    + repeat split; try reflexivity. intros Hsc. lia.
Qed.

Lemma fork_gives_a_private_copy_witness :
  let heap3 jr := [Block [] [] jr; Block [] [] false; Block [] [] false] in
  let m := set_heap (heap3 false)
             (set_segs {[ Gsmem := [5; 6; 7] ]}
                (bench SCHEDULE_PROCESS [instr 37 0] [])) in
  (exists c d m',
     @dispatch (LP64 true) bench_thread 1 10 m =
       Continue (set_pc 1 bench_thread) 1 m' /\
     segs m !! d = None /\
     segs m' !! d = Some [0; 1; 7] /\
     pListHead m' = [c] /\
     exists q child, pcbs m' !! c = Some q /\ readyList q = [child] /\
                     par child = c /\ cmem child = d /\ dp child = 1) /\
  (exists t' m', @dispatch (LP64 true) bench_thread 1 10
                   (set_heap (heap3 true) m) = Undefined t' m').
Proof.
  intros heap3 m. split.
  - pose proof (@fork_gives_a_private_copy (LP64 true) bench_thread m 1 10
                  (Block [] [] false) [] [] [] [] false false [] [5; 6; 7]
                  (mkPCB [] None Gsmem 1)) as H.
    destruct H as (c & d & m' & q & Hd & _ & Hfresh & Hsegs & Hpcbs & _ & _ & _
                   & Hrl & _ & Hpl & _);
      [vm_compute; reflexivity | reflexivity | discriminate
      | reflexivity | reflexivity | ].
    exists c, d, m'. split; [exact Hd | ]. split; [exact Hfresh | ].
    split; [rewrite Hsegs, lookup_insert_eq; reflexivity | ].
    split; [exact Hpl | ].
    exists q. eexists. split; [rewrite Hpcbs; apply lookup_insert_eq | ].
    split; [apply Hrl; reflexivity | ]. repeat split.
  - exact (@fork_gives_a_private_copy (LP64 true) bench_thread
             (set_heap (heap3 true) m) 1 10
             (Block [] [] false) [] [] [] [] true false [] [5; 6; 7]
             (mkPCB [] None Gsmem 1)
             ltac:(vm_compute; reflexivity) eq_refl ltac:(discriminate)
             eq_refl eq_refl).
Defined.

(** ** The thread-fair scheduler *)

Lemma scheduleAll_thread (ts : list TCB) (m : Machine) :
  scheduler m <> SCHEDULE_PROCESS ->
  scheduleAll ts m = set_tList (tListHead m ++ ts) m.
Proof.
  intros Hs. apply Z.eqb_neq in Hs. revert m Hs.
  induction ts as [ | t ts IH]; intros m Hs.
  - cbn. rewrite app_nil_r. now destruct m.
  - unfold scheduleAll in *. cbn [foldl]. rewrite IH.
    + unfold schedule. rewrite Hs. cbn [tListHead set_tList].
      rewrite <- app_assoc. reflexivity.
    + unfold schedule. now rewrite Hs.
Qed.

Lemma nextThreads_thread (n : nat) (m : Machine) :
  scheduler m <> SCHEDULE_PROCESS ->
  nextThreads n m =
    (take n (tListHead m), set_tList (drop n (tListHead m)) m).
Proof.
  intros Hs. apply Z.eqb_neq in Hs. revert m Hs.
  induction n as [ | n IH]; intros m Hs.
  - cbn. now destruct m.
  - cbn [nextThreads]. unfold getNextThread. rewrite Hs.
    destruct (tListHead m) as [ | b rest] eqn:Hl.
    + cbn. rewrite <- Hl. now destruct m.
    + rewrite IH by exact Hs. reflexivity.
Qed.

(** X9: under the thread-fair scheduler the run queue is first in, first
    out: after the threads [ts] have been scheduled, the next calls of
    [getNextThread] return the threads that were queued before, in their
    order, then [ts] in the order of scheduling, then NULL; nothing but
    the queue changes. *)
Theorem thread_scheduler_is_fifo (n : nat) (ts : list TCB) (m : Machine) :
  scheduler m <> SCHEDULE_PROCESS ->
  nextThreads n (scheduleAll ts m) =
    (take n (tListHead m ++ ts), set_tList (drop n (tListHead m ++ ts)) m) /\
  ((length (tListHead m ++ ts) <= n)%nat ->
   getNextThread (nextThreads n (scheduleAll ts m)).2 =
     (None, set_tList [] m)).
Proof.
  intros Hs. rewrite scheduleAll_thread by exact Hs.
  rewrite nextThreads_thread by exact Hs. cbn [tListHead set_tList snd].
  split; [reflexivity | ]. intros Hn. rewrite drop_ge by exact Hn.
  unfold getNextThread. cbn [scheduler set_tList tListHead].
  apply Z.eqb_neq in Hs. now rewrite Hs.
Qed.

Lemma thread_scheduler_is_fifo_witness :
  let a := set_pc 1 bench_thread in
  let b := set_pc 2 bench_thread in
  let c := set_pc 3 bench_thread in
  let m := set_tList [a] (bench SCHEDULE_THREAD [] []) in
  (nextThreads 5 (scheduleAll [b; c] m)).1 = [a; b; c].
Proof.
  intros a b c m.
  destruct (thread_scheduler_is_fifo 5 [b; c] m) as [H _]; [discriminate | ].
  rewrite H. reflexivity.
Defined.

(** ** The process-fair scheduler *)

Lemma firstReady_spec (n : nat) (m : Machine) (l1 l2 : list nat) (a : nat) :
  pListHead m = l1 ++ a :: l2 ->
  Forall (fun c => ready_of m c = []) l1 -> ready_of m a <> [] ->
  (length l1 < n)%nat ->
  firstReady n m = (Some a, set_pList (l2 ++ l1) m).
Proof.
  revert m l1 l2. induction n as [ | n IH]; intros m l1 l2 Hl Hno Ha Hn; [lia | ].
  cbn [firstReady]. rewrite Hl. destruct l1 as [ | c l1]; cbn [app].
  - destruct (ready_of m a); [contradiction | ]. now rewrite app_nil_r.
  - apply Forall_cons in Hno as [Hc Hno]. rewrite Hc.
    rewrite (IH _ l1 (l2 ++ [c])).
    + cbn [set_pList pListHead]. rewrite <- app_assoc. reflexivity.
    + cbn [set_pList pListHead]. rewrite <- app_assoc. reflexivity.
    + exact Hno.
    + exact Ha.
    + cbn [length] in Hn. lia.
Qed.

Lemma deadLocked_false (m : Machine) (l1 l2 : list nat) (a : nat) :
  pListHead m = l1 ++ a :: l2 -> ready_of m a <> [] -> deadLocked m = false.
Proof.
  intros Hl Ha. unfold deadLocked. rewrite Hl, forallb_app. cbn [forallb].
  destruct (ready_of m a); [contradiction | ].
  cbn [andb]. apply andb_false_r.
Qed.

Lemma deadLocked_true (m : Machine) :
  Forall (fun c => ready_of m c = []) (pListHead m) -> deadLocked m = true.
Proof.
  intros H. unfold deadLocked. apply forallb_forall. intros c Hc.
  rewrite Forall_forall in H. rewrite H; [reflexivity | ].
  now apply list_elem_of_In.
Qed.

(** X10: the process-fair scheduler.  The process that ran last goes back
    to the end of the process list if it still has a thread (to the list
    of the dead if it has none).  If no process of the list has a ready
    thread, [getNextThread] returns NULL.  Otherwise it takes the first
    process of the list that has one, finding it within one round of the
    list, and returns the first thread of its ready list; the processes
    before it have moved to the end of the list in their order. *)
Theorem process_scheduler_takes_first_ready (m : Machine) :
  scheduler m = SCHEDULE_PROCESS ->
  let dead :=
    match lp m with
    | Some l => match pcbs m !! l with
                | Some p => threads p =? 0
                | None => false
                end
    | None => false
    end in
  let queue := pListHead m ++
    match lp m with Some l => if dead then [] else [l] | None => [] end in
  let m1 := set_pList queue
    (match lp m with
     | Some l => if dead then set_dpList (dpListHead m ++ [l]) m else m
     | None => m
     end) in
  (Forall (fun c => ready_of m c = []) queue -> getNextThread m = (None, m1)) /\
  (forall l1 l2 a b bs,
     queue = l1 ++ a :: l2 ->
     Forall (fun c => ready_of m c = []) l1 -> ready_of m a = b :: bs ->
     getNextThread m =
       (Some b,
        set_lp (Some a)
          (set_pcbs (alter (set_readyList bs) a (pcbs m))
             (set_pList (l2 ++ l1) m1)))).
Proof.
  intros Hs dead queue m1. unfold getNextThread. rewrite Hs.
  change (SCHEDULE_PROCESS =? SCHEDULE_PROCESS) with true. cbv iota.
  set (m0 := match lp m with Some _ => _ | None => m end).
  assert (Hm0 : m0 = m1).
  { subst m0 m1 queue dead. destruct (lp m) as [l | ].
    - destruct (match pcbs m !! l with Some _ => _ | None => _ end).
      + rewrite app_nil_r. now destruct m.
      + reflexivity.
    - rewrite app_nil_r. now destruct m. }
  rewrite Hm0. clear m0 Hm0.
  assert (Hready : forall c, ready_of m1 c = ready_of m c).
  { intros c. subst m1. unfold ready_of. destruct (lp m); [ | reflexivity].
    now destruct dead. }
  assert (Hq : pListHead m1 = queue) by reflexivity.
  split.
  - intros Hno. rewrite deadLocked_true; [reflexivity | ].
    rewrite Hq. eapply Forall_impl; [exact Hno | ].
    intros c Hc. now rewrite Hready.
  - intros l1 l2 a b bs Hl Hno Ha.
    rewrite (deadLocked_false m1 l1 l2 a); [ | now rewrite Hq | rewrite Hready, Ha; discriminate].
    rewrite (firstReady_spec _ m1 l1 l2 a).
    + unfold ready_of at 1. cbn [pcbs set_pList]. fold (ready_of m1 a).
      rewrite Hready, Ha.
      assert (Hpc : pcbs m1 = pcbs m).
      { subst m1. cbn [pcbs set_pList]. destruct (lp m); [ | reflexivity].
        now destruct dead. }
      now rewrite Hpc.
    + now rewrite Hq.
    + eapply Forall_impl; [exact Hno | ]. intros c Hc. now rewrite Hready.
    + rewrite Hready, Ha. discriminate.
    + rewrite Hq, Hl, length_app. cbn [length]. lia.
Qed.

Lemma process_scheduler_takes_first_ready_witness :
  let a := set_pc 1 bench_thread in
  let m := set_lp (Some 0%nat)
             (set_pList [1%nat; 2%nat]
                (set_pcbs {[ 0%nat := mkPCB [] None Gsmem 1;
                             1%nat := mkPCB [] None Gsmem 1;
                             2%nat := mkPCB [a] None Gsmem 1 ]}
                   (bench SCHEDULE_PROCESS [] []))) in
  exists m', getNextThread m = (Some a, m') /\
             pListHead m' = [0%nat; 1%nat] /\ lp m' = Some 2%nat.
Proof.
  intros a m.
  destruct (process_scheduler_takes_first_ready m eq_refl) as [_ H].
  eexists. split.
  - apply (H [1%nat] [0%nat] 2%nat a []); [reflexivity | | reflexivity].
    repeat constructor.
  - split; reflexivity.
Defined.

(** ** What the compiler does to its stream *)

(** A property of the stream that [getNext] and the run length keep is
    kept by a turn of [recCompile], if the nested activations keep it. *)
Lemma recBody_stream (Q : FILE -> Prop) (rec : frame -> run (Z * frame))
    (s : frame) :
  (forall f, Q f -> Q (getNext f).2) ->
  (forall cc f, Q f -> Q (runLength cc f).2) ->
  (forall sn np r, rec sn = Value (np, r) -> Q (fin sn) -> Q (fin r)) ->
  Q (fin s) ->
  match recBody rec s with
  | Value (Next s') => Q (fin s')
  | Value (Ret _ r) => Q (fin r)
  | Fuel | Fault => True
  end.
Proof.
  intros Hget Hrun Hrec Hs.
  pose proof (Hrun (getNext (fin s)).1 _ (Hget _ Hs)) as H2.
  destruct (special (getNext (fin s)).1) eqn:Hsp.
  2: { rewrite recBody_other by exact Hsp. exact H2. }
  apply special_among in Hsp. unfold recBody.
  destruct (getNext (fin s)) as [cc f1]. cbn [fst snd] in *.
  destruct (runLength cc f1) as [rl f2]. cbn [fst snd] in *.
  cbn [In] in Hsp.
  destruct Hsp as [H | [H | [H | [H | [H | [H | [H | [H | [H | [H | [H |
                  [H | [H | [H | [H | [H | []]]]]]]]]]]]]]]]]; subst cc;
    cbv beta iota zeta.
  all: try (destruct (rec _) as [[np r] | | ] eqn:Hr;
            [ pose proof (Hrec _ np r Hr H2) as Hq | exact I | exact I ]).
  all: repeat match goal with
       | |- match (if ?b then _ else _) with _ => _ end => destruct b
       | |- match (match pi ?s with _ => _ end) with _ => _ end =>
           destruct (pi s)
       end.
  all: cbn [fin]; auto.
Qed.

Lemma recLoop_stream (Q : FILE -> Prop) (n : nat) (s : frame) (np : Z)
    (r : frame) :
  (forall f, Q f -> Q (getNext f).2) ->
  (forall cc f, Q f -> Q (runLength cc f).2) ->
  recLoop n s = Value (np, r) -> Q (fin s) -> Q (fin r).
Proof.
  intros Hget Hrun. revert s np r.
  induction n as [ | n IH]; intros s np r Hr Hs; [discriminate Hr | ].
  cbn [recLoop] in Hr.
  destruct ((cp s <? 0) || (IMEM <=? cp s)); [discriminate Hr | ].
  pose proof (recBody_stream Q (recLoop n) s Hget Hrun IH Hs) as Hturn.
  destruct (recBody (recLoop n) s) as [[s' | np' r'] | | ];
    try discriminate Hr.
  - now apply (IH s' np r).
  - now injection Hr as -> ->.
Qed.

Lemma getNext_eof_is_done (f : FILE) : eof_is_done f -> eof_is_done (getNext f).2.
Proof.
  intros Hf. unfold getNext.
  destruct (getNext_done f =? GOOD); [exact Hf | ].
  destruct (skipCrap (bytes f)) as [c rest].
  destruct (c =? EOF); cbn [snd]; [intros _; reflexivity | exact Hf].
Qed.

Lemma getNext_flags (f : FILE) :
  (getNext f).1 = EOF \/
  (at_eof (getNext f).2 = at_eof f /\ getNext_done (getNext f).2 = getNext_done f /\
   getNext_done f <> GOOD).
Proof.
  unfold getNext. destruct (Z.eqb_spec (getNext_done f) GOOD); [now left | ].
  destruct (skipCrap (bytes f)) as [c rest].
  destruct (c =? EOF); cbn [fst snd]; [now left | now right].
Qed.

Lemma runLoop_eof_is_done (n : nat) (cc rl np : Z) (f : FILE) :
  eof_is_done f -> (np <> EOF -> getNext_done f <> GOOD) ->
  eof_is_done (runLoop n cc rl np f).2 /\
  ((runLoop n cc rl np f).1.2 <> EOF ->
   getNext_done (runLoop n cc rl np f).2 <> GOOD).
Proof.
  revert rl np f. induction n as [ | n IH]; intros rl np f Hf Hd;
    cbn [runLoop]; [now split | ].
  destruct (np =? cc); [ | now split].
  pose proof (getNext_eof_is_done f Hf) as Hf'.
  pose proof (getNext_flags f) as Hfl.
  destruct (getNext f) as [np' f']. cbn [fst snd] in *.
  apply IH; [exact Hf' | ]. intros Hne.
  destruct Hfl as [He | (_ & -> & Hg)]; [contradiction | exact Hg].
Qed.

Lemma runLength_eof_is_done (cc : Z) (f : FILE) :
  eof_is_done f -> eof_is_done (runLength cc f).2.
Proof.
  intros Hf. unfold runLength. destruct (repeatable cc); [ | exact Hf].
  pose proof (getNext_eof_is_done f Hf) as Hf1.
  pose proof (getNext_flags f) as Hfl.
  destruct (getNext f) as [np f1]. cbn [fst snd] in *.
  assert (Hd : np <> EOF -> getNext_done f1 <> GOOD).
  { intros Hne. destruct Hfl as [He | (_ & -> & Hg)]; [contradiction | exact Hg]. }
  pose proof (runLoop_eof_is_done (S (length (bytes f1))) cc 1 np f1 Hf1 Hd)
    as [R1 R2].
  destruct (runLoop _ cc 1 np f1) as [[rl np'] f2]. cbn [fst snd] in *.
  unfold unGetNext. destruct (Z.eqb_spec np' EOF); [exact R1 | ].
  intros H. discriminate H.
Qed.

Lemma Compile_loop_flags `{P : Platform} (n : nat) (im : gmap Z Z) (f : FILE)
    (c : Z) (tsmem : nat) (m : Machine) (ok : Z) (im' : gmap Z Z) (f' : FILE)
    (m' : Machine) :
  eof_is_done f ->
  Compile_loop n im f c tsmem m = Value (ok, im', f', m') ->
  eof_is_done f'.
Proof.
  revert im f c m. induction n as [ | n IH]; intros im f c m Hf Hrun;
    [discriminate Hrun | ].
  cbn [Compile_loop] in Hrun. unfold feof in Hrun.
  destruct (at_eof f) eqn:He; [injection Hrun as _ _ <- _; exact Hf | ].
  destruct (createProcess _ _ _ _ _ _ _ m) as [[failed m1] | ];
    [ | discriminate Hrun].
  destruct (recCompile im f c BAD None) as [[np r] | | ] eqn:Hc;
    try discriminate Hrun.
  assert (Hr : eof_is_done (fin r)).
  { unfold recCompile in Hc.
    apply (recLoop_stream eof_is_done _ _ _ _ getNext_eof_is_done
             runLength_eof_is_done Hc Hf). }
  destruct (np =? BAD); [injection Hrun as _ _ <- _; exact Hr | ].
  destruct (_ =? 33); [injection Hrun as _ _ <- _; exact Hr | ].
  now apply (IH _ _ _ _ Hr Hrun).
Qed.

(** When [done] is set and the stream is not at its end, every turn of
    the loop of [Compile] compiles an empty program: [recCompile] writes
    the one word [@] and returns the next index, and the stream is as it
    was. *)
Lemma recCompile_done (im : gmap Z Z) (f : FILE) (c : Z) :
  getNext_done f = GOOD -> 0 <= c < IMEM -> c = 0 \/ word im (c - 1) = 64 ->
  recCompile im f c BAD None =
    Value (c + 1, mkFrame (<[c := 64]> (<[c := -1]> im)) f (c - 1) (c + 1)
                          BAD None 0).
Proof.
  intros Hd Hin Hc. unfold recCompile, enter.
  rewrite recLoop_S by (cbn [cp]; lia).
  unfold recBody. cbn [fin cp op mimem ll pi bf].
  unfold getNext. rewrite Hd. change (GOOD =? GOOD) with true. cbv iota.
  change (runLength EOF f) with (0, f). cbv beta iota zeta.
  change (Z.lor EOF (shl 0)) with (-1).
  change (EOF =? EOF) with true. cbv iota.
  replace (c + 1 - 1) with c by lia.
  assert (Hop : (c - 1 =? -1) || (word (<[c := -1]> im) (c - 1) =? 64) = true).
  { destruct Hc as [-> | Hw]; [reflexivity | ].
    rewrite word_insert_ne by lia. rewrite Hw. apply orb_true_r. }
  change (match EOF with 126 => _ | _ => _ end) with
    (if (c - 1 =? -1) || (word (<[c := -1]> im) (c - 1) =? 64)
     then Value (Ret (c + 1) (mkFrame (<[c := 64]> (<[c := -1]> im)) f (c - 1)
                                (c + 1) BAD None 0))
     else Value (Ret BAD (mkFrame (<[c := -1]> im) f (c - 1) (c + 1) BAD None 0))).
  rewrite Hop. reflexivity.
Qed.

(** The turns go on, a word each, as long as there is instruction memory
    for the word and [createProcess] has a result, and no longer. *)
Lemma Compile_loop_done `{P : Platform} (n : nat) (im : gmap Z Z) (f : FILE)
    (c : Z) (tsmem : nat) (m : Machine) :
  getNext_done f = GOOD -> at_eof f = false ->
  0 <= c <= IMEM -> c = 0 \/ word im (c - 1) = 64 ->
  match Compile_loop n im f c tsmem m with
  | Value _ => False
  | Fuel => Z.of_nat n + c <= IMEM
  | Fault => True
  end.
Proof.
  intros Hd He. revert im c m.
  induction n as [ | n IH]; intros im c m Hin Hc; [cbn; lia | ].
  cbn [Compile_loop]. unfold feof. rewrite He.
  destruct (createProcess _ _ _ _ _ _ _ m) as [[failed m1] | ]; [ | exact I].
  destruct (Z.eq_dec c IMEM) as [-> | Hne].
  { unfold recCompile. cbn [recLoop enter cp].
    change ((IMEM <? 0) || (IMEM <=? IMEM)) with true. exact I. }
  rewrite recCompile_done by (tauto || exact Hd || lia). cbn [mimem fin].
  assert (Hnb : (c + 1 =? BAD) = false) by (unfold BAD; lia).
  rewrite Hnb. replace (c + 1 - 1) with c by lia.
  rewrite word_insert_eq. change (64 =? 33) with false. cbv iota.
  specialize (IH (<[c := 64]> (<[c := -1]> im)) (c + 1)
                 (if failed =? 0 then m1
                  else set_err (err m1 ++ [NoMemForProcess]) m1)).
  destruct (Compile_loop n _ f (c + 1) tsmem _).
  - apply IH; [lia | right]. replace (c + 1 - 1) with c by lia.
    apply word_insert_eq.
  - assert (Z.of_nat n + (c + 1) <= IMEM); [ | lia].
    apply IH; [lia | right]. replace (c + 1 - 1) with c by lia.
    apply word_insert_eq.
  - exact I.
Qed.

(** X11: the flag [done] of [getNext] is a static of the C file: it is set
    when a file has been read to its end and nothing resets it.  When
    [Compile] has read a file to its end, [Compile] on any file opened
    after it does not return: [getNext] answers EOF without reading, so
    the new stream never comes to its end, and each turn asks for another
    process and compiles an empty program, one word of instruction
    memory.  However many turns the loop is given, it has no result: the
    turns it can take are those that find a word of the [IMEM] words of
    instruction memory free, and the turn after them stores outside of
    it. *)
Theorem done_flag_blocks_the_next_file `{P : Platform} (src : list Z)
    (im : gmap Z Z) (tsmem : nat) (m : Machine) (ok : Z) (im1 : gmap Z Z)
    (f1 : FILE) (m1 : Machine) :
  Compile im (fopen src) tsmem m = Value (ok, im1, f1, m1) ->
  at_eof f1 = true ->
  getNext_done f1 = GOOD /\
  forall (n : nat) (src2 : list Z) (im2 : gmap Z Z) (m2 : Machine),
    match Compile_loop n im2 (mkFILE src2 false (getNext_done f1)) 0 tsmem m2
    with
    | Value _ => False
    | Fuel => Z.of_nat n <= IMEM
    | Fault => True
    end.
Proof.
  intros Hc He.
  assert (Hd : getNext_done f1 = GOOD).
  { unfold Compile in Hc.
    refine (Compile_loop_flags _ _ _ _ _ _ _ _ _ _ _ Hc He).
    intros H. discriminate H. }
  split; [exact Hd | ]. intros n src2 im2 m2.
  pose proof (Compile_loop_done n im2 (mkFILE src2 false (getNext_done f1)) 0
                tsmem m2 Hd eq_refl ltac:(unfold IMEM; lia) (or_introl eq_refl))
    as H.
  destruct (Compile_loop n _ _ 0 tsmem m2); [exact H | lia | exact I].
Qed.

Lemma done_flag_blocks_the_next_file_witness :
  let m := set_segs {[ Gsmem := [0] ]} (boot SCHEDULE_PROCESS [] [] []) in
  match @Compile (LP64 true) ∅ (fopen (text "+.")) Gsmem m with
  | Value (_, _, f1, m1) =>
      match @Compile_loop (LP64 true) 1000 ∅
              (mkFILE (text "+.") false (getNext_done f1)) 0 Gsmem m1 with
      | Value _ => False
      | Fuel => 1000 <= IMEM
      | Fault => True
      end
  | Fuel | Fault => False
  end.
Proof.
  intros m.
  assert (He : match @Compile (LP64 true) ∅ (fopen (text "+.")) Gsmem m with
               | Value (_, _, f1, _) => at_eof f1
               | Fuel | Fault => false
               end = true) by (vm_compute; reflexivity).
  destruct (@Compile (LP64 true) ∅ (fopen (text "+.")) Gsmem m)
    as [[[[ok im1] f1] m1] | | ] eqn:Hc;
    [ | discriminate He | discriminate He].
  destruct (@done_flag_blocks_the_next_file (LP64 true) _ _ _ _ _ _ _ _ Hc He)
    as [_ H].
  exact (H 1000%nat (text "+.") ∅ m1).
Defined.

(** ** Run lengths *)

Lemma skipCrap_comments (run rest : list Z) :
  List.filter recognized run = [] -> skipCrap (run ++ rest) = skipCrap rest.
Proof.
  induction run as [ | c run IH]; intros Hf; [reflexivity | ].
  cbn [List.filter] in Hf. cbn [app skipCrap].
  destruct (recognized c); [discriminate Hf | now apply IH].
Qed.

Lemma skipCrap_first (run rest : list Z) (c : Z) (more : list Z) :
  List.filter recognized run = c :: more ->
  exists run', skipCrap (run ++ rest) = (c, run' ++ rest) /\
               List.filter recognized run' = more /\ recognized c = true /\
               (length run' < length run)%nat.
Proof.
  induction run as [ | b run IH]; intros Hf; [discriminate Hf | ].
  cbn [List.filter] in Hf. cbn [app skipCrap].
  destruct (recognized b) eqn:Hb.
  - injection Hf as -> Hf. exists run. cbn [length]. auto with lia.
  - destruct (IH Hf) as (run' & H1 & H2 & H3 & H4). exists run'.
    cbn [length]. auto with lia.
Qed.

Lemma getNext_skip (f : FILE) :
  getNext_done f <> GOOD ->
  getNext f = ((skipCrap (bytes f)).1,
               after_read f (skipCrap (bytes f)).1 (skipCrap (bytes f)).2).
Proof.
  intros Hd. unfold getNext, after_read. apply Z.eqb_neq in Hd. rewrite Hd.
  destruct (skipCrap (bytes f)) as [c rest]. cbn [fst snd].
  destruct (Z.eqb_spec c EOF) as [-> | Hne]; reflexivity.
Qed.

Lemma runLoop_run (n : nat) (cc rl : Z) (f : FILE) (k : nat)
    (run rest : list Z) :
  cc <> EOF -> getNext_done f <> GOOD ->
  bytes f = run ++ rest -> List.filter recognized run = replicate k cc ->
  (skipCrap rest).1 <> cc -> (length run < n)%nat ->
  runLoop n cc rl cc f =
    (rl + Z.of_nat k + 1, (skipCrap rest).1,
     after_read f (skipCrap rest).1 (skipCrap rest).2).
Proof.
  intros Hcc. revert rl f k run.
  induction n as [ | n IH]; intros rl f k run Hd Hb Hf Hnext Hn; [lia | ].
  cbn [runLoop]. rewrite Z.eqb_refl. rewrite getNext_skip by exact Hd.
  rewrite Hb. destruct k as [ | k]; cbn [replicate] in Hf.
  - rewrite skipCrap_comments by exact Hf.
    destruct n as [ | n]; cbn [runLoop].
    + f_equal. f_equal. lia.
    + apply Z.eqb_neq in Hnext. rewrite Hnext. f_equal. f_equal. lia.
  - destruct (skipCrap_first run rest cc _ Hf) as (run' & H1 & H2 & H3 & H4).
    rewrite H1. cbn [fst snd]. unfold after_read at 1.
    assert (Hcc' : (cc =? EOF) = false) by now apply Z.eqb_neq.
    rewrite Hcc'.
    assert (Hn' : (length run' < n)%nat) by lia.
    rewrite (IH (rl + 1) (mkFILE (run' ++ rest) (at_eof f) (getNext_done f))
               k run' Hd eq_refl H2 Hnext Hn').
    unfold after_read. cbn [at_eof getNext_done].
    f_equal. f_equal. lia.
Qed.

Lemma runLength_run (cc : Z) (f : FILE) (k : nat) (run rest : list Z) :
  repeatable cc = true -> getNext_done f <> GOOD ->
  bytes f = run ++ rest -> List.filter recognized run = replicate k cc ->
  (skipCrap rest).1 <> cc ->
  runLength cc f =
    (Z.of_nat k + 1,
     unGetNext (skipCrap rest).1
       (after_read f (skipCrap rest).1 (skipCrap rest).2)).
Proof.
  intros Hrep Hd Hb Hf Hnext. unfold runLength. rewrite Hrep.
  assert (Hcc : cc <> EOF) by (intros ->; discriminate Hrep).
  rewrite getNext_skip by exact Hd. rewrite Hb.
  destruct k as [ | k]; cbn [replicate] in Hf.
  - rewrite skipCrap_comments by exact Hf.
    change (runLoop (S ?n) cc 1 ?np ?g) with
      (if np =? cc
       then let '(np', f') := getNext g in runLoop n cc (1 + 1) np' f'
       else (1, np, g)).
    apply Z.eqb_neq in Hnext. rewrite Hnext. reflexivity.
  - destruct (skipCrap_first run rest cc _ Hf) as (run' & H1 & H2 & H3 & H4).
    rewrite H1. cbn [fst snd]. unfold after_read at 1 2.
    assert (Hcc' : (cc =? EOF) = false) by now apply Z.eqb_neq.
    rewrite Hcc'. cbn [bytes].
    assert (Hn' : (length run' < S (length (run' ++ rest)))%nat)
      by (rewrite length_app; lia).
    rewrite (runLoop_run _ cc 1
               (mkFILE (run' ++ rest) (at_eof f) (getNext_done f))
               k run' rest Hcc Hd eq_refl H2 Hnext Hn').
    unfold after_read. cbn [at_eof getNext_done].
    f_equal. lia.
Qed.

Lemma repeatable_among (cc : Z) :
  repeatable cc = true -> In cc [43; 45; 62; 60; 94; 95; 44; 46; 126; 61].
Proof.
  by_char cc; cbv beta iota delta [repeatable]; intros H;
    first [discriminate H | cbn; tauto].
Qed.

(** X12: a run of k + 1 equal characters among [+ - > < ^ _ , . ~ =],
    with or without comments between them, compiles to one word: the
    character with [(k + 1) << SHIFT] in 32 bits above it, which is the
    character with the run length k + 1 as long as the run length fits the
    signed 24 bits of an immediate.  The turn leaves the stream at
    the character that ended the run and touches no other word.  A run of
    [~] of even length leaves [cp] where it was, so that the word is
    overwritten by what follows: only an odd run of swaps is kept. *)
Theorem run_compiles_to_one_word (rec : frame -> run (Z * frame))
    (s : frame) (cc : Z) (k : nat) (run rest : list Z) :
  repeatable cc = true -> getNext_done (fin s) <> GOOD ->
  bytes (fin s) = run ++ rest ->
  List.filter recognized run = replicate (S k) cc ->
  (skipCrap rest).1 <> cc ->
  exists s',
    recBody rec s = Value (Next s') /\
    word (mimem s') (cp s) = Z.lor cc (shl (Z.of_nat (S k))) /\
    (Z.of_nat (S k) < 8388608 ->
     word (mimem s') (cp s) = instr cc (Z.of_nat (S k))) /\
    cp s' = (if (cc =? 126) && (Z.land (Z.of_nat (S k)) 1 =? 0)
             then cp s else cp s + 1) /\
    (forall i, i <> cp s -> word (mimem s') i = word (mimem s) i) /\
    (op s', ll s', pi s', bf s') = (op s, ll s, pi s, bf s) /\
    bytes (fin s') =
      (if (skipCrap rest).1 =? EOF then (skipCrap rest).2
       else (skipCrap rest).1 :: (skipCrap rest).2).
Proof.
  intros Hrep Hd Hb Hf Hnext.
  assert (Hcc : cc <> EOF) by (intros ->; discriminate Hrep).
  destruct (skipCrap_first run rest cc _ Hf) as (run' & H1 & H2 & H3 & H4).
  assert (Hg : getNext (fin s) =
               (cc, mkFILE (run' ++ rest) (at_eof (fin s)) (getNext_done (fin s)))).
  { rewrite getNext_skip by exact Hd. rewrite Hb, H1. cbn [fst snd].
    unfold after_read. apply Z.eqb_neq in Hcc. now rewrite Hcc. }
  pose proof (runLength_run cc
                (mkFILE (run' ++ rest) (at_eof (fin s)) (getNext_done (fin s)))
                k run' rest Hrep Hd eq_refl H2 Hnext) as Hr.
  assert (Hbytes : forall f,
            bytes (unGetNext (skipCrap rest).1
                     (after_read f (skipCrap rest).1 (skipCrap rest).2)) =
              (if (skipCrap rest).1 =? EOF then (skipCrap rest).2
               else (skipCrap rest).1 :: (skipCrap rest).2)).
  { intros f. unfold unGetNext, after_read.
    destruct ((skipCrap rest).1 =? EOF); reflexivity. }
  replace (Z.of_nat k + 1) with (Z.of_nat (S k)) in Hr by lia.
  destruct (Z.eqb_spec cc 126) as [-> | Hn126].
  - unfold recBody. rewrite Hg, Hr. cbv beta iota zeta.
    eexists. split; [reflexivity | ]. cbn [mimem cp op ll pi bf fin andb].
    split; [apply word_insert_eq | ].
    split; [intros Hfit; rewrite word_insert_eq; apply instr_shl; lia | ].
    split; [destruct (_ =? 0); lia | ].
    split; [intros i Hi; apply word_insert_ne; lia | ].
    split; [reflexivity | apply Hbytes].
  - assert (Hsp : special cc = false).
    { apply repeatable_among in Hrep. cbn [In] in Hrep.
      destruct Hrep as [<- | [<- | [<- | [<- | [<- | [<- | [<- | [<- | [<- |
                       [<- | []]]]]]]]]]]; try reflexivity. contradiction. }
    pose proof (recBody_other rec s) as Ho. cbv zeta in Ho.
    rewrite Hg in Ho. cbn [fst snd] in Ho. rewrite Hr in Ho. cbn [fst snd] in Ho.
    rewrite (Ho Hsp). eexists. split; [reflexivity | ].
    cbn [mimem cp op ll pi bf fin andb].
    split; [apply word_insert_eq | ].
    split; [intros Hfit; rewrite word_insert_eq; apply instr_shl; lia | ].
    split; [reflexivity | ].
    split; [intros i Hi; apply word_insert_ne; lia | ].
    split; [reflexivity | apply Hbytes].
Qed.

Lemma run_compiles_to_one_word_witness :
  let s := enter ∅ (fopen (text "+ +
+.")) 0 BAD None in
  exists s',
    recBody (recLoop 0) s = Value (Next s') /\
    word (mimem s') 0 = instr 43 3 /\ cp s' = 1 /\ bytes (fin s') = [46].
Proof.
  intros s.
  destruct (run_compiles_to_one_word (recLoop 0) s 43 2
              (text "+ +
+") [46])
    as (s' & H1 & _ & H2 & H3 & _ & _ & H4);
    [reflexivity | discriminate | reflexivity | reflexivity
    | vm_compute; discriminate | ].
  exists s'. split; [exact H1 | ]. split; [apply H2; reflexivity | ]. auto.
Defined.

(** ** The words of a loop *)

(** What a loop activation that returns a position leaves: the opening
    word as it was, the closing word at the end. *)
Lemma loop_returns (fuel : nat) (lo k : Z) (s : frame) (np : Z) (r : frame) :
  (k = 91 \/ k = 123) -> Inv lo s ->
  op s = lo - 1 -> word (mimem s) (lo - 1) = k ->
  recLoop fuel s = Value (np, r) -> np <> BAD ->
  word (mimem r) (lo - 1) = k /\ word (mimem r) (np - 1) = k + 2 /\ lo < np.
Proof.
  intros Hkk. revert s.
  induction fuel as [ | fuel IH]; intros s HI Hop1 Hw Hrun Hnp;
    [discriminate Hrun | ].
  pose proof (recBody_inv (recLoop fuel) lo s (recLoop_nested_ok fuel) HI)
    as Hturn.
  pose proof (loop_turn (recLoop fuel) lo k s (recLoop_nested_ok fuel) HI
                Hkk Hop1 Hw) as Hloop.
  cbn [recLoop] in *.
  destruct ((cp s <? 0) || (IMEM <=? cp s)); [discriminate Hrun | ].
  destruct (recBody (recLoop fuel) s) as [[s' | np' r'] | | ];
    try discriminate Hrun.
  - destruct Hturn as [HI' _]. destruct Hloop as [Hop' Hw'].
    now apply (IH s').
  - injection Hrun as -> ->. destruct (Hloop Hnp) as (_ & -> & Hr).
    destruct HI as (Hlo & _). rewrite Hr.
    assert (Hk2 : k + 2 <> 39 /\ k + 2 <> 96) by (destruct Hkk as [-> | ->]; lia).
    replace (cp s + 1 - 1) with (cp s) by lia.
    destruct (bf s =? 0).
    + rewrite word_insert_ne by lia. rewrite word_insert_eq. auto with lia.
    + rewrite backFill_outside by lia. rewrite word_insert_ne by lia.
      rewrite backFill_spec.
      assert (Hin : (lo <=? cp s) && (cp s <? cp s + 1) = true) by lia.
      rewrite Hin, word_insert_eq.
      assert (H39 : (k + 2 =? 39) = false) by lia.
      assert (H96 : (k + 2 =? 96) = false) by lia.
      rewrite H39, H96. auto with lia.
Qed.

(** The words of a loop that the compiler keeps: both brackets carry the
    distance between them, when it fits the immediate. *)
Lemma kept_loop_words (fuel : nat) (s s' : frame) (k : Z) :
  (k = 91 \/ k = 123) ->
  (getNext (fin s)).1 = k -> 0 <= cp s ->
  recBody (recLoop fuel) s = Value (Next s') -> cp s + 1 < cp s' ->
  cp s' - cp s - 1 < 8388608 ->
  word (mimem s') (cp s) = instr k (cp s' - cp s - 1) /\
  word (mimem s') (cp s' - 1) = instr (k + 2) (cp s' - cp s - 1).
Proof.
  intros Hkk Hcc Hcp. unfold recBody.
  destruct (getNext (fin s)) as [cc f1]. cbn [fst] in Hcc. subst cc.
  assert (Hgoal : forall np r,
    recLoop fuel (enter (<[cp s := k]> (mimem s)) f1 (cp s + 1) (cp s + 1) None)
      = Value (np, r) -> np <> BAD ->
    let im2 := orImm (orImm (mimem r) (cp s + 1 - 1) (np - (cp s + 1)))
                     (np - 1) (np - (cp s + 1)) in
    cp s + 1 < np /\
    word im2 (cp s) = Z.lor k (shl (np - cp s - 1)) /\
    word im2 (np - 1) = Z.lor (k + 2) (shl (np - cp s - 1))).
  { intros np r Hr Hnp im2.
    assert (HI : Inv (cp s + 1)
                   (enter (<[cp s := k]> (mimem s)) f1 (cp s + 1) (cp s + 1) None)).
    { apply entry_Inv; [lia | | ]; replace (cp s + 1 - 1) with (cp s) by lia;
        rewrite word_insert_eq; destruct Hkk as [-> | ->]; discriminate. }
    destruct (loop_returns fuel (cp s + 1) k _ np r Hkk HI) as (R1 & R2 & R3);
      auto.
    { cbn [enter mimem]. replace (cp s + 1 - 1) with (cp s) by lia.
      apply word_insert_eq. }
    replace (cp s + 1 - 1) with (cp s) in R1 by lia.
    subst im2. replace (cp s + 1 - 1) with (cp s) by lia.
    replace (np - (cp s + 1)) with (np - cp s - 1) by lia.
    split; [exact R3 | ]. split.
    - rewrite word_orImm_ne by lia. rewrite word_orImm_eq, R1. reflexivity.
    - rewrite word_orImm_eq. rewrite word_orImm_ne by lia. rewrite R2.
      reflexivity. }
  destruct Hkk as [-> | ->]; rewrite runLength_plain by reflexivity;
    cbv beta iota zeta.
  - change (Z.lor 91 (shl 0)) with 91.
    destruct (recLoop fuel _) as [[np r] | | ] eqn:Hr; try discriminate.
    destruct (Z.eqb_spec np BAD) as [-> | Hnp]; [discriminate | ].
    destruct (Hgoal np r eq_refl Hnp) as (G1 & G2 & G3).
    destruct (_ || _); [intros [= <-]; cbn [cp]; lia | ].
    destruct (_ && _); intros [= <-]; cbn [cp mimem]; [lia | ].
    intros _ Hfit. rewrite <- !instr_shl by lia. split; assumption.
  - change (Z.lor 123 (shl 0)) with 123.
    destruct (recLoop fuel _) as [[np r] | | ] eqn:Hr; try discriminate.
    destruct (Z.eqb_spec np BAD) as [-> | Hnp]; [discriminate | ].
    destruct (Hgoal np r eq_refl Hnp) as (G1 & G2 & G3).
    destruct (_ && _); intros [= <-]; cbn [cp mimem]; [lia | ].
    intros _ Hfit. rewrite <- !instr_shl by lia. split; assumption.
Qed.

Lemma dispatch_until `{P : Platform} (t : TCB) (m : Machine) (cost quanta : Z) :
  let w := word (Gimem m) (pc t) in
  Z.land w IMASK = 123 ->
  dispatch t cost quanta m =
    Continue (if cell m (cmem t) (dp t) =? 0
              then set_pc (pc t + 1) t
              else set_pc (pc t + 1 + Z.shiftr w SHIFT) t) cost m.
Proof.
  intros w Hop. unfold dispatch. fold w. rewrite Hop. cbv beta iota.
  cbn [set_pc pc cmem dp]. destruct (_ =? 0); reflexivity.
Qed.

Lemma dispatch_again `{P : Platform} (t : TCB) (m : Machine) (cost quanta : Z) :
  let w := word (Gimem m) (pc t) in
  Z.land w IMASK = 125 ->
  dispatch t cost quanta m =
    Continue (if cell m (cmem t) (dp t) =? 0
              then set_pc (pc t + 1 - Z.shiftr w SHIFT) t
              else set_pc (pc t + 1) t) cost m.
Proof.
  intros w Hop. unfold dispatch. fold w. rewrite Hop. cbv beta iota.
  cbn [set_pc pc cmem dp]. destruct (_ =? 0); reflexivity.
Qed.

(** X13: a while loop that the compiler keeps.  When the turn of
    [recCompile] that reads a [[] at [a] goes on at [b] > [a] + 1 and the
    distance [b - a - 1] fits the signed 24 bits of an immediate, the
    words [a] and [b - 1] are [[] and []] with the offset [b - a - 1], and
    [dispatch] on either of them takes the thread to the same place: to
    [b], the word after the loop, when the current cell is 0, and to
    [a + 1], the first word of the body, when it is not. *)
Theorem while_loop_brackets_match `{P : Platform} (fuel : nat)
    (s s' : frame) :
  (getNext (fin s)).1 = 91 -> 0 <= cp s ->
  recBody (recLoop fuel) s = Value (Next s') -> cp s + 1 < cp s' ->
  cp s' - cp s - 1 < 8388608 ->
  word (mimem s') (cp s) = instr 91 (cp s' - cp s - 1) /\
  word (mimem s') (cp s' - 1) = instr 93 (cp s' - cp s - 1) /\
  forall (t : TCB) (m : Machine) (cost quanta : Z),
    word (Gimem m) (cp s) = word (mimem s') (cp s) ->
    word (Gimem m) (cp s' - 1) = word (mimem s') (cp s' - 1) ->
    pc t = cp s \/ pc t = cp s' - 1 ->
    dispatch t cost quanta m =
      Continue (set_pc (if cell m (cmem t) (dp t) =? 0 then cp s' else cp s + 1)
                       t) cost m.
Proof.
  intros Hcc Hcp Hrun Hkept Hfit.
  destruct (kept_loop_words fuel s s' 91 (or_introl eq_refl) Hcc Hcp Hrun Hkept
              Hfit) as [Ha Hb].
  split; [exact Ha | ]. split; [exact Hb | ].
  intros t m cost quanta Hwa Hwb [Hpc | Hpc].
  - pose proof (dispatch_open t m cost quanta) as Hd. cbv zeta in Hd.
    rewrite Hpc, Hwa, Ha in Hd. rewrite instr_opcode, instr_imm in Hd by lia.
    rewrite (Hd eq_refl). destruct (_ =? 0); do 2 f_equal; lia.
  - pose proof (dispatch_close t m cost quanta) as Hd. cbv zeta in Hd.
    rewrite Hpc, Hwb, Hb in Hd. rewrite instr_opcode, instr_imm in Hd by lia.
    rewrite (Hd eq_refl). destruct (_ =? 0); do 2 f_equal; lia.
Qed.

Lemma while_loop_brackets_match_witness :
  let s := mkFrame {[ 0 := instr 43 1 ]} (fopen (text "[>+<-].")) (-1) 1 BAD
                   None 0 in
  exists s',
    recBody (recLoop 20) s = Value (Next s') /\ cp s' = 7 /\
    word (mimem s') 1 = instr 91 5 /\ word (mimem s') 6 = instr 93 5.
Proof.
  intros s.
  assert (Hcp : match recBody (recLoop 20) s with
                | Value (Next s') => cp s' =? 7
                | _ => false
                end = true) by (vm_compute; reflexivity).
  destruct (recBody (recLoop 20) s) as [[s' | ] | | ] eqn:Hrun;
    try discriminate Hcp.
  apply Z.eqb_eq in Hcp.
  destruct (@while_loop_brackets_match (LP64 true) 20 s s') as (Ha & Hb & _);
    [reflexivity | cbn; lia | exact Hrun | rewrite Hcp; cbn; lia
    | rewrite Hcp; cbn; lia | ].
  exists s'. rewrite Hcp in Ha, Hb. auto.
Defined.

(** X14: an until loop that the compiler keeps.  When the turn of
    [recCompile] that reads a [{] at [a] goes on at [b] > [a] + 1 and the
    distance [b - a - 1] fits the signed 24 bits of an immediate, the words
    [a] and [b - 1] are [{] and [}] with the offset [b - a - 1], and
    [dispatch] on either of them takes the thread to [a + 1], the first
    word of the body, when the current cell is 0, and to [b], the word
    after the loop, when it is not: the body runs while the cell is 0. *)
Theorem until_loop_brackets_match `{P : Platform} (fuel : nat)
    (s s' : frame) :
  (getNext (fin s)).1 = 123 -> 0 <= cp s ->
  recBody (recLoop fuel) s = Value (Next s') -> cp s + 1 < cp s' ->
  cp s' - cp s - 1 < 8388608 ->
  word (mimem s') (cp s) = instr 123 (cp s' - cp s - 1) /\
  word (mimem s') (cp s' - 1) = instr 125 (cp s' - cp s - 1) /\
  forall (t : TCB) (m : Machine) (cost quanta : Z),
    word (Gimem m) (cp s) = word (mimem s') (cp s) ->
    word (Gimem m) (cp s' - 1) = word (mimem s') (cp s' - 1) ->
    pc t = cp s \/ pc t = cp s' - 1 ->
    dispatch t cost quanta m =
      Continue (set_pc (if cell m (cmem t) (dp t) =? 0 then cp s + 1 else cp s')
                       t) cost m.
Proof.
  intros Hcc Hcp Hrun Hkept Hfit.
  destruct (kept_loop_words fuel s s' 123 (or_intror eq_refl) Hcc Hcp Hrun Hkept
              Hfit) as [Ha Hb].
  split; [exact Ha | ]. split; [exact Hb | ].
  intros t m cost quanta Hwa Hwb [Hpc | Hpc].
  - pose proof (dispatch_until t m cost quanta) as Hd. cbv zeta in Hd.
    rewrite Hpc, Hwa, Ha in Hd. rewrite instr_opcode, instr_imm in Hd by lia.
    rewrite (Hd eq_refl). destruct (_ =? 0); do 2 f_equal; lia.
  - pose proof (dispatch_again t m cost quanta) as Hd. cbv zeta in Hd.
    rewrite Hpc, Hwb, Hb in Hd. rewrite instr_opcode, instr_imm in Hd by lia.
    rewrite (Hd eq_refl). destruct (_ =? 0); do 2 f_equal; lia.
Qed.

Lemma until_loop_brackets_match_witness :
  let s := mkFrame {[ 0 := instr 43 1 ]} (fopen (text "{>+<}.")) (-1) 1 BAD
                   None 0 in
  exists s',
    recBody (recLoop 20) s = Value (Next s') /\ cp s' = 6 /\
    word (mimem s') 1 = instr 123 4 /\ word (mimem s') 5 = instr 125 4.
Proof.
  intros s.
  assert (Hcp : match recBody (recLoop 20) s with
                | Value (Next s') => cp s' =? 6
                | _ => false
                end = true) by (vm_compute; reflexivity).
  destruct (recBody (recLoop 20) s) as [[s' | ] | | ] eqn:Hrun;
    try discriminate Hcp.
  apply Z.eqb_eq in Hcp.
  destruct (@until_loop_brackets_match (LP64 true) 20 s s') as (Ha & Hb & _);
    [reflexivity | cbn; lia | exact Hrun | rewrite Hcp; cbn; lia
    | rewrite Hcp; cbn; lia | ].
  exists s'. rewrite Hcp in Ha, Hb. auto.
Defined.

(** ** The shape of a turn of [recCompile] *)

(** A nested activation that returns a position has left the words before
    its opening word as they were. *)
Lemma nested_frame (fuel : nat) (im : gmap Z Z) (f : FILE) (c l : Z)
    (p : option Z) (np : Z) (r : frame) :
  0 < c -> word im (c - 1) <> 64 -> (word im (c - 1) = 58 -> l = BAD) ->
  recLoop fuel (enter im f c l p) = Value (np, r) -> np <> BAD ->
  c <= np /\ forall i, i < c - 1 -> word (mimem r) i = word im i.
Proof.
  intros Hc H64 H58 Hr Hnp.
  pose proof (entry_Inv im f c l p Hc H64 H58) as HI.
  destruct (recLoop_Post fuel c _ np r Hr Hnp HI) as (P1 & P2 & _).
  split; [exact P1 | exact P2].
Qed.

Lemma turn_has_shape (fuel : nat) (s : frame) :
  0 <= cp s -> op s < cp s -> turn_shape s (recBody (recLoop fuel) s).
Proof.
  intros Hcp Hop.
  destruct (special (getNext (fin s)).1) eqn:Hsp.
  2: { rewrite recBody_other by exact Hsp. unfold turn_shape.
       cbn [op cp mimem]. left. split; [reflexivity | ]. split; [lia | ].
       intros i Hi. now words. }
  apply special_among in Hsp. cbn [In] in Hsp.
  assert (Hnest : forall k l p f np r,
            k <> 64 -> (k = 58 -> l = BAD) ->
            recLoop fuel (enter (<[cp s := k]> (mimem s)) f (cp s + 1) l p)
              = Value (np, r) -> np <> BAD ->
            cp s + 1 <= np /\
            forall i, i < cp s -> word (mimem r) i = word (mimem s) i).
  { intros k l p f np r H64 H58 Hr Hnp.
    destruct (nested_frame fuel (<[cp s := k]> (mimem s)) f (cp s + 1) l p np r)
      as [N1 N2];
      try assumption; try lia.
    - replace (cp s + 1 - 1) with (cp s) by lia. now rewrite word_insert_eq.
    - replace (cp s + 1 - 1) with (cp s) by lia. now rewrite word_insert_eq.
    - split; [exact N1 | ]. intros i Hi. rewrite N2 by lia. now words. }
  destruct Hsp as [H | [H | [H | [H | [H | [H | [H | [H | [H | [H | [H |
                  [H | [H | [H | [H | [H | []]]]]]]]]]]]]]]]]; symmetry in H.
  all: unfold turn_shape; rewrite H; open_body cc f1; subst cc.
  all: first [rewrite runLength_plain by reflexivity
             | destruct (runLength _ f1) as [rl f2]].
  all: cbv beta iota zeta.
  all: change (Z.lor ?a (shl 0)) with a.
  all: words.
  - (* ~ *) cbn [op cp mimem]. left. split; [reflexivity | ].
    split; [destruct (_ =? 0); lia | ]. intros i Hi. now words.
  - (* $ *) cbn [op cp mimem]. left. split; [reflexivity | ].
    split; [lia | ]. intros i Hi. now words.
  - (* [ *)
    destruct (recLoop fuel _) as [[np r] | | ] eqn:Hr; [ | exact I | exact I].
    destruct (Z.eqb_spec np BAD) as [-> | Hnp];
      [intros Hn; now contradiction Hn | ].
    destruct (Hnest 91 _ _ _ np r ltac:(discriminate) ltac:(discriminate) Hr Hnp)
      as [N1 N2].
    destruct (_ || _); [ | destruct (_ && _)]; cbn [op cp mimem]; left;
      (split; [reflexivity | ]); (split; [lia | ]); intros i Hi; words;
      now apply N2.
  - (* { *)
    destruct (recLoop fuel _) as [[np r] | | ] eqn:Hr; [ | exact I | exact I].
    destruct (Z.eqb_spec np BAD) as [-> | Hnp];
      [intros Hn; now contradiction Hn | ].
    destruct (Hnest 123 _ _ _ np r ltac:(discriminate) ltac:(discriminate) Hr Hnp)
      as [N1 N2].
    destruct (_ && _); cbn [op cp mimem]; left;
      (split; [reflexivity | ]); (split; [lia | ]); intros i Hi; words;
      now apply N2.
  - (* ( *)
    destruct (recLoop fuel _) as [[np r] | | ] eqn:Hr; [ | exact I | exact I].
    destruct (Z.eqb_spec np BAD) as [-> | Hnp];
      [intros Hn; now contradiction Hn | ].
    destruct (Hnest 40 _ _ _ np r ltac:(discriminate) ltac:(discriminate) Hr Hnp)
      as [N1 N2].
    cbn [op cp mimem]. left. split; [reflexivity | ]. split; [lia | exact N2].
  - (* : *)
    destruct (recLoop fuel _) as [[np r] | | ] eqn:Hr; [ | exact I | exact I].
    destruct (Z.eqb_spec np BAD) as [-> | Hnp];
      [intros Hn; now contradiction Hn | ].
    destruct (Hnest 58 _ _ _ np r ltac:(discriminate) ltac:(reflexivity) Hr Hnp)
      as [N1 N2].
    cbn [op cp mimem]. left. split; [reflexivity | ]. split; [lia | exact N2].
  - (* ] *)
    destruct (Z.eqb_spec (word (mimem s) (op s)) 91) as [He | Hne];
      cbn [negb]; [ | intros Hn; now contradiction Hn].
    intros _. left. cbn [mimem]. rewrite He. auto.
  - (* } *)
    destruct (Z.eqb_spec (word (mimem s) (op s)) 123) as [He | Hne];
      cbn [negb]; [ | intros Hn; now contradiction Hn].
    intros _. left. cbn [mimem]. rewrite He. auto.
  - (* | *)
    destruct (Z.eqb_spec (word (mimem s) (op s)) 40) as [He | Hne];
      cbn [negb]; [ | intros Hn; now contradiction Hn].
    right. cbn [op cp mimem]. repeat split; try lia.
    f_equal. lia.
  - (* ) *)
    destruct (Z.eqb_spec (word (mimem s) (op s)) 40) as [He | Hne];
      destruct (Z.eqb_spec (word (mimem s) (op s)) 124) as [He' | Hne'];
      cbn [negb andb]; try (intros Hn; now contradiction Hn).
    all: assert (Hk : word (mimem s) (op s) = 40 \/ word (mimem s) (op s) = 124)
           by tauto.
    all: destruct (bf s =? 0); [ | destruct (pi s); [ | exact I]].
    all: intros _; right; left; cbn [mimem];
         replace (cp s + 1 - 1) with (cp s) by lia; auto.
  - (* ; *)
    destruct (Z.eqb_spec (word (mimem s) (op s)) 58) as [He | Hne];
      cbn [negb]; [ | intros Hn; now contradiction Hn].
    intros _. right. right. left. cbn [mimem].
    replace (cp s + 1 - op s - 1) with (cp s - op s) by lia. auto.
  - (* ` *)
    destruct (ll s =? BAD); [intros Hn; now contradiction Hn | ].
    cbn [op cp mimem]. left. split; [reflexivity | ]. split; [lia | ].
    intros i Hi. now words.
  - (* ' *)
    destruct (ll s =? BAD); [intros Hn; now contradiction Hn | ].
    cbn [op cp mimem]. left. split; [reflexivity | ]. split; [lia | ].
    intros i Hi. now words.
  - (* @ *)
    destruct ((op s =? -1) || (word (mimem s) (op s) =? 64)) eqn:Hc;
      [ | intros Hn; now contradiction Hn].
    intros _. right. right. right. cbn [mimem].
    change (64 =? EOF) with false. cbv iota.
    split; [auto | ]. split; [lia | auto].
  - (* ! *)
    destruct ((op s =? -1) || (word (mimem s) (op s) =? 64)) eqn:Hc;
      [ | intros Hn; now contradiction Hn].
    intros _. right. right. right. cbn [mimem].
    change (33 =? EOF) with false. cbv iota.
    split; [auto | ]. split; [lia | auto].
  - (* EOF *)
    destruct ((op s =? -1) || (word (mimem s) (op s) =? 64)) eqn:Hc;
      [ | intros Hn; now contradiction Hn].
    intros _. right. right. right. cbn [mimem].
    change (-1 =? EOF) with true. cbv iota.
    split; [auto | ]. split; [lia | ].
    split; [reflexivity | ]. replace (cp s + 1 - 1) with (cp s) by lia.
    apply insert_insert_eq.
Qed.

(** ** Procedure definitions *)

Lemma def_returns (fuel : nat) (lo : Z) (s : frame) (np : Z) (r : frame) :
  0 < lo <= cp s -> op s = lo - 1 -> word (mimem s) (lo - 1) = 58 ->
  recLoop fuel s = Value (np, r) -> np <> BAD ->
  word (mimem r) (lo - 1) = Z.lor 58 (shl (np - lo)) /\
  word (mimem r) (np - 1) = 59 /\ lo < np.
Proof.
  revert s. induction fuel as [ | fuel IH]; intros s Hlo Hop Hw Hrun Hnp;
    [discriminate Hrun | ].
  pose proof (turn_has_shape fuel s ltac:(lia) ltac:(lia)) as Hturn.
  cbn [recLoop] in Hrun. unfold turn_shape in Hturn. rewrite Hop, Hw in Hturn.
  destruct ((cp s <? 0) || (IMEM <=? cp s)); [discriminate Hrun | ].
  destruct (recBody (recLoop fuel) s) as [[s' | np' r'] | | ];
    try discriminate Hrun.
  - destruct Hturn as [(H1 & H2 & H3) | (_ & H & _)]; [ | discriminate H].
    apply (IH s'); try assumption; try lia. rewrite H3 by lia. exact Hw.
  - injection Hrun as -> ->.
    destruct (Hturn Hnp) as [(_ & [H | H] & _) | [(_ & [H | H] & _) |
                             [(_ & _ & -> & Hr) | (_ & [H | H] & _)]]];
      try discriminate H; try lia.
    rewrite Hr. replace (cp s + 1 - 1) with (cp s) by lia.
    rewrite word_orImm_eq, word_insert_ne, Hw by lia.
    rewrite word_orImm_ne, word_insert_eq by lia.
    split; [do 2 f_equal; lia | ]. split; [reflexivity | lia].
Qed.

Lemma procNum_range (w : Z) : is_name w -> 0 <= procNum w < NUMPROC.
Proof.
  unfold procNum, NUMPROC, is_name. intros [Hn | [Hn | Hn]].
  - assert (H1 : (48 <=? w) && (w <=? 57) = true) by lia. rewrite H1. lia.
  - assert (H1 : (48 <=? w) && (w <=? 57) = false) by lia.
    assert (H2 : (65 <=? w) && (w <=? 90) = true) by lia.
    rewrite H1, H2. lia.
  - assert (H1 : (48 <=? w) && (w <=? 57) = false) by lia.
    assert (H2 : (65 <=? w) && (w <=? 90) = false) by lia.
    assert (H3 : (97 <=? w) && (w <=? 122) = true) by lia.
    rewrite H1, H2, H3. lia.
Qed.

(** X15: a procedure definition.  The turn of [recCompile] that reads a
    [:] at [a] goes on at some [b] > [a] + 1 when the definition is
    well formed; the word [b - 1] is the [;] that ends the body and the
    word [a] is [:] with [(b - a - 1) << SHIFT] in 32 bits above it.
    When the distance fits the signed 24 bits of an immediate, the word
    [a] is [:] with the offset [b - a - 1], and [dispatch] on the
    word [a] goes on at [b], past the body; when the character of the
    word [a + 1] is a procedure name, that name now stands for [a + 2],
    the word after the name, in the table of the thread, and no other
    entry has changed; when it is not, the table is as it was. *)
Theorem definition_skips_its_body `{P : Platform} (fuel : nat)
    (s s' : frame) :
  (getNext (fin s)).1 = 58 -> 0 <= cp s ->
  recBody (recLoop fuel) s = Value (Next s') ->
  cp s + 1 < cp s' /\
  word (mimem s') (cp s) = Z.lor 58 (shl (cp s' - cp s - 1)) /\
  word (mimem s') (cp s' - 1) = 59 /\
  (cp s' - cp s - 1 < 8388608 ->
   word (mimem s') (cp s) = instr 58 (cp s' - cp s - 1) /\
   forall (t : TCB) (m : Machine) (cost quanta : Z),
     word (Gimem m) (cp s) = word (mimem s') (cp s) -> pc t = cp s ->
     let name := to_char (word (Gimem m) (cp s + 1)) in
     exists t',
       dispatch t cost quanta m = Continue t' cost m /\
       pc t' = cp s' /\
       (dp t', cmem t', stack t', sp t', par t') =
       (dp t, cmem t, stack t, sp t, par t) /\
       (is_name name -> Z.of_nat (length (procs t)) = NUMPROC ->
        proc_at t' (procNum name) = Some (cp s + 2) /\
        forall j, j <> procNum name -> proc_at t' j = proc_at t j) /\
       (~ is_name name -> procs t' = procs t)).
Proof.
  intros Hcc Hcp. unfold recBody.
  destruct (getNext (fin s)) as [cc f1]. cbn [fst] in Hcc. subst cc.
  rewrite runLength_plain by reflexivity. cbv beta iota zeta.
  change (Z.lor 58 (shl 0)) with 58.
  destruct (recLoop fuel _) as [[np r] | | ] eqn:Hr; try discriminate.
  destruct (Z.eqb_spec np BAD) as [-> | Hnp]; [discriminate | ].
  intros [= <-]. cbn [cp mimem].
  pose proof (fun H1 H2 H3 =>
                def_returns fuel (cp s + 1) _ np r H1 H2 H3 Hr Hnp) as Hd.
  cbn [enter cp op mimem] in Hd.
  destruct Hd as (D1 & D2 & D3);
    [lia | reflexivity
    | replace (cp s + 1 - 1) with (cp s) by lia; apply word_insert_eq | ].
  replace (cp s + 1 - 1) with (cp s) in D1 by lia.
  replace (np - (cp s + 1)) with (np - cp s - 1) in D1 by lia.
  split; [lia | ]. split; [exact D1 | ]. split; [exact D2 | ].
  intros Hfit. rewrite instr_shl in D1 by lia. split; [exact D1 | ].
  intros t m cost quanta Hw Hpc.
  unfold dispatch. rewrite Hpc, Hw, D1.
  rewrite instr_opcode, instr_imm by lia. cbv beta iota zeta.
  cbn [set_pc pc].
  generalize (to_char (word (Gimem m) (cp s + 1))) as name. intros name.
  destruct (Z.eqb_spec (procNum name) NOPROC) as [Hno | Hyes].
  - eexists. split; [reflexivity | ]. cbn [pc dp cmem stack sp par procs set_pc].
    split; [lia | ]. split; [reflexivity | ]. split.
    + intros Hname _. exfalso. now apply procNum_name in Hname.
    + reflexivity.
  - eexists. split; [reflexivity | ].
    cbn [pc dp cmem stack sp par procs set_pc set_procs].
    split; [lia | ]. split; [reflexivity | ]. split.
    + intros Hname Hlen. pose proof (procNum_range name Hname) as Hrange.
      unfold NUMPROC in *. unfold proc_at. cbn [procs set_pc set_procs]. split.
      * destruct (decide (0 <= procNum name)) as [_ | Hn]; [ | lia].
        rewrite list_lookup_insert_eq by lia. cbn [default from_option id].
        f_equal. lia.
      * intros j Hj. destruct (decide (0 <= j)) as [Hj0 | _]; [ | reflexivity].
        rewrite list_lookup_insert_ne by lia. reflexivity.
    + intros Hname. exfalso. apply Hname. now apply procNum_name.
Qed.

Lemma definition_skips_its_body_witness :
  let s := mkFrame {[ 0 := instr 43 1 ]} (fopen (text ":A+;A")) (-1) 1 BAD
                   None 0 in
  exists s',
    recBody (recLoop 20) s = Value (Next s') /\ cp s' = 5 /\
    word (mimem s') 1 = instr 58 3 /\ word (mimem s') 4 = 59.
Proof.
  intros s.
  assert (Hcp : match recBody (recLoop 20) s with
                | Value (Next s') => cp s' =? 5
                | _ => false
                end = true) by (vm_compute; reflexivity).
  destruct (recBody (recLoop 20) s) as [[s' | ] | | ] eqn:Hrun;
    try discriminate Hcp.
  apply Z.eqb_eq in Hcp.
  destruct (@definition_skips_its_body (LP64 true) 20 s s')
    as (_ & _ & Hb & Hfit); [reflexivity | cbn; lia | exact Hrun | ].
  destruct Hfit as [Ha _]; [rewrite Hcp; cbn; lia | ].
  exists s'. rewrite Hcp in Ha, Hb. auto.
Defined.

(** ** If, else, fi *)





(** ** Programs *)

Lemma top_returns (fuel : nat) (s : frame) (np : Z) (r : frame) :
  at_top s -> recLoop fuel s = Value (np, r) -> np <> BAD ->
  cp s < np /\
  (word (mimem r) (np - 1) = 64 \/ word (mimem r) (np - 1) = 33) /\
  forall i, i < cp s -> word (mimem r) i = word (mimem s) i.
Proof.
  revert s. induction fuel as [ | fuel IH]; intros s (Hcp & Hop & Hk) Hrun Hnp;
    [discriminate Hrun | ].
  pose proof (turn_has_shape fuel s Hcp Hop) as Hturn.
  cbn [recLoop] in Hrun. unfold turn_shape in Hturn.
  destruct ((cp s <? 0) || (IMEM <=? cp s)); [discriminate Hrun | ].
  assert (Hkk : word (mimem s) (op s) = 64 \/ word (mimem s) (op s) = 0).
  { destruct Hk as [Hk | [Ho Hk]]; [now left | right]. now rewrite Ho. }
  destruct (recBody (recLoop fuel) s) as [[s' | np' r'] | | ];
    try discriminate Hrun.
  - destruct Hturn as [(H1 & H2 & H3) | (_ & H & _)];
      [ | destruct Hkk as [Hk' | Hk']; rewrite Hk' in H; discriminate H].
    destruct (IH s') as (R1 & R2 & R3); try assumption.
    + split; [lia | ]. split; [lia | ]. rewrite H1.
      destruct Hk as [Hk | [Ho Hk]]; [left | right].
      * rewrite H3 by lia. exact Hk.
      * split; [exact Ho | ]. rewrite H3 by lia. exact Hk.
    + split; [lia | ]. split; [exact R2 | ].
      intros i Hi. rewrite R3 by lia. apply H3. exact Hi.
  - injection Hrun as -> ->.
    destruct (Hturn Hnp) as [(_ & [H | H] & _) | [(_ & [H | H] & _) |
                             [(_ & H & _) | (Hcc & _ & -> & Hr)]]];
      try (destruct Hkk as [Hk' | Hk']; rewrite Hk' in H; discriminate H).
    rewrite Hr. replace (cp s + 1 - 1) with (cp s) by lia.
    split; [lia | ]. split.
    + rewrite word_insert_eq.
      destruct Hcc as [-> | [-> | ->]]; [now left | now right | now left].
    + intros i Hi. apply word_insert_ne. lia.
Qed.

(** ** The input after the programs *)

Lemma skipCrap_split (bs : list Z) :
  exists crap,
    Forall (fun c => recognized c = false) crap /\
    (((skipCrap bs).1 = EOF /\ (skipCrap bs).2 = [] /\ bs = crap) \/
     (recognized (skipCrap bs).1 = true /\
      bs = crap ++ (skipCrap bs).1 :: (skipCrap bs).2)).
Proof.
  induction bs as [ | c rest IH].
  - exists []. split; [constructor | left; auto].
  - cbn [skipCrap]. destruct (recognized c) eqn:Hc.
    + exists []. split; [constructor | right]. cbn [fst snd app]. auto.
    + destruct IH as (crap & H1 & [(H2 & H3 & H4) | (H2 & H3)]);
        exists (c :: crap); (split; [now constructor | ]).
      * left. repeat split; auto. now rewrite H4.
      * right. split; [exact H2 | ]. cbn [app]. now rewrite <- H3.
Qed.

Lemma crap_has_no_bang (crap : list Z) :
  Forall (fun c => recognized c = false) crap -> 33 ∉ crap.
Proof.
  intros H Hin. rewrite Forall_forall in H. apply H in Hin. discriminate Hin.
Qed.

Lemma getNext_pending (src : list Z) (f : FILE) :
  unread src f -> pending src (getNext f).1 (getNext f).2.
Proof.
  intros (pre & Hsrc & Hpre). unfold getNext, pending.
  destruct (getNext_done f =? GOOD).
  { cbn [fst snd]. exists pre. change (EOF =? EOF) with true. now cbn [app]. }
  destruct (skipCrap_split (bytes f))
    as (crap & H1 & [(H2 & H3 & H4) | (H2 & H3)]);
    destruct (skipCrap (bytes f)) as [c rest]; cbn [fst snd] in *.
  - subst c rest. change (EOF =? EOF) with true. cbv iota. cbn [fst snd bytes app].
    exists src. split; [now rewrite app_nil_r | ].
    rewrite Hsrc, H4. apply not_elem_of_app. split; [exact Hpre | ].
    now apply crap_has_no_bang.
  - assert (Hne : (c =? EOF) = false).
    { apply Z.eqb_neq. intros ->. discriminate H2. }
    rewrite Hne. cbn [fst snd bytes]. rewrite Hne.
    exists (pre ++ crap). split.
    + rewrite Hsrc, H3, <- app_assoc. reflexivity.
    + apply not_elem_of_app. split; [exact Hpre | ].
      now apply crap_has_no_bang.
Qed.

Lemma pending_unget (src : list Z) (c : Z) (f : FILE) :
  pending src c f -> unread src (unGetNext c f).
Proof.
  intros (pre & Hsrc & Hpre). unfold unGetNext. exists pre.
  destruct (c =? EOF); cbn [bytes app] in *; auto.
Qed.

Lemma pending_read (src : list Z) (c : Z) (f : FILE) :
  pending src c f -> c <> 33 -> unread src f.
Proof.
  intros (pre & Hsrc & Hpre) Hc. destruct (c =? EOF).
  - exists pre. auto.
  - exists (pre ++ [c]). split; [now rewrite <- app_assoc | ].
    apply not_elem_of_app. split; [exact Hpre | ].
    intros Hin. apply list_elem_of_singleton in Hin. congruence.
Qed.

Lemma pending_bang (src : list Z) (f : FILE) :
  pending src 33 f -> at_bang src f.
Proof. intros (pre & Hsrc & Hpre). exists pre. auto. Qed.

Lemma runLoop_pending (src : list Z) (n : nat) (cc rl np : Z) (f : FILE) :
  cc <> 33 -> pending src np f ->
  pending src (runLoop n cc rl np f).1.2 (runLoop n cc rl np f).2.
Proof.
  intros Hcc. revert rl np f. induction n as [ | n IH]; intros rl np f Hp;
    cbn [runLoop]; [exact Hp | ].
  destruct (Z.eqb_spec np cc) as [-> | Hne]; [ | exact Hp].
  pose proof (getNext_pending src f (pending_read src cc f Hp Hcc)) as Hp'.
  destruct (getNext f) as [np' f']. now apply IH.
Qed.

Lemma runLength_unread (src : list Z) (cc : Z) (f : FILE) :
  unread src f -> unread src (runLength cc f).2.
Proof.
  intros Hf. unfold runLength. destruct (repeatable cc) eqn:Hrep; [ | exact Hf].
  assert (Hcc : cc <> 33) by (intros ->; discriminate Hrep).
  pose proof (getNext_pending src f Hf) as Hp.
  destruct (getNext f) as [np f1]. cbn [fst snd] in Hp.
  pose proof (runLoop_pending src (S (length (bytes f1))) cc 1 np f1 Hcc Hp) as Hq.
  destruct (runLoop _ cc 1 np f1) as [[rl np'] f2]. cbn [fst snd] in *.
  now apply pending_unget.
Qed.

Lemma recBody_unread (src : list Z) (fuel : nat) (s : frame) :
  (forall sn np r,
     recLoop fuel sn = Value (np, r) -> np <> BAD -> Inv (cp sn) sn ->
     unread src (fin sn) -> unread src (fin r)) ->
  0 <= cp s -> unread src (fin s) ->
  turn_unread src s (recBody (recLoop fuel) s).
Proof.
  intros Hrec Hcp Hs.
  pose proof (getNext_pending src (fin s) Hs) as Hp.
  destruct (special (getNext (fin s)).1) eqn:Hsp.
  2: { rewrite recBody_other by exact Hsp. cbn [turn_unread fin].
       apply runLength_unread. apply (pending_read src _ _ Hp).
       intros He. rewrite He in Hsp. discriminate Hsp. }
  apply special_among in Hsp. unfold recBody, turn_unread.
  destruct (getNext (fin s)) as [cc f1]. cbn [fst snd] in *.
  assert (H2 : cc <> 33 -> unread src (runLength cc f1).2).
  { intros Hc. apply runLength_unread. now apply (pending_read src cc). }
  assert (Hnest : forall k l p f np r,
            unread src f -> k <> 64 -> (k = 58 -> l = BAD) ->
            recLoop fuel (enter (<[cp s := k]> (mimem s)) f (cp s + 1) l p)
              = Value (np, r) ->
            np <> BAD -> unread src (fin r)).
  { intros k l p f np r Hf H64 H58 Hr Hnp.
    apply (Hrec _ np r Hr Hnp); [ | exact Hf].
    cbn [enter cp]. apply entry_Inv; [lia | | ];
      replace (cp s + 1 - 1) with (cp s) by lia; now rewrite word_insert_eq. }
  cbn [In] in Hsp.
  destruct Hsp as [H | [H | [H | [H | [H | [H | [H | [H | [H | [H | [H |
                  [H | [H | [H | [H | [H | []]]]]]]]]]]]]]]]]; subst cc.
  15: { (* ! *)
    rewrite runLength_plain by reflexivity. cbv beta iota zeta.
    apply pending_bang in Hp.
    destruct (_ || _); left; cbn [fin]; auto. }
  all: assert (Hf2 : unread src (runLength _ f1).2) by (apply H2; discriminate).
  all: first [rewrite runLength_plain in * by reflexivity
             | destruct (runLength _ f1) as [rl f2]].
  all: cbn [fst snd] in Hf2; cbv beta iota zeta.
  all: change (Z.lor ?a (Z.shiftl 0 SHIFT)) with a.
  all: try (destruct (recLoop fuel _) as [[np r] | | ] eqn:Hr;
            [ | exact I | exact I];
            destruct (Z.eqb_spec np BAD) as [-> | Hnp];
            [cbv beta iota; right;
             split; [discriminate | intros Hn; now contradiction Hn] | ];
            pose proof (fun H1 H2 => Hnest _ _ _ _ np r Hf2 H1 H2 Hr Hnp)
              as Hq;
            specialize (Hq ltac:(discriminate)
                          ltac:(first [discriminate | reflexivity]))).
  all: repeat match goal with
       | |- match (if ?b then _ else _) with _ => _ end => destruct b
       | |- match (match pi ?s with _ => _ end) with _ => _ end =>
           destruct (pi s)
       end.
  all: cbn [fin]; auto.
  all: try (right; split; [discriminate | auto]).
Qed.

(** A nested activation that returns a position has not read the first
    [!]: on a [!] it returns [BAD]. *)
Lemma nested_unread (src : list Z) (fuel : nat) (lo : Z) (s : frame) (np : Z)
    (r : frame) :
  recLoop fuel s = Value (np, r) -> np <> BAD -> Inv lo s ->
  unread src (fin s) -> unread src (fin r).
Proof.
  revert lo s np r.
  induction fuel as [ | fuel IH]; intros lo s np r Hrun Hnp HI Hs;
    [discriminate Hrun | ].
  assert (Hrec : forall sn np' r',
             recLoop fuel sn = Value (np', r') -> np' <> BAD ->
             Inv (cp sn) sn -> unread src (fin sn) -> unread src (fin r')).
  { intros sn np' r' H1 H2 H3 H4. now apply (IH (cp sn) sn np' r'). }
  pose proof (recBody_inv (recLoop fuel) lo s (recLoop_nested_ok fuel) HI)
    as Hturn.
  destruct HI as (I1 & I2 & _ & I4 & _).
  pose proof (turn_has_shape fuel s ltac:(lia) ltac:(lia)) as Hshape.
  pose proof (recBody_unread src fuel s Hrec ltac:(lia) Hs) as Hu.
  cbn [recLoop] in Hrun. unfold turn_shape in Hshape. cbv zeta in Hshape.
  destruct ((cp s <? 0) || (IMEM <=? cp s)); [discriminate Hrun | ].
  destruct (recBody (recLoop fuel) s) as [[s' | np' r'] | | ];
    try discriminate Hrun.
  - destruct Hturn as [HI' _]. now apply (IH lo s' np r).
  - injection Hrun as -> ->. cbn [turn_unread] in Hu.
    destruct Hu as [[Hc _] | [_ Hu]]; [exfalso | now apply Hu].
    rewrite Hc in Hshape.
    destruct (Hshape Hnp) as [(H & [K | K] & _) | [(H & _) | [(H & _) |
                              (_ & [K | K] & _)]]]; lia.
Qed.

(** The activation that [Compile] starts returns a position on the first
    [!], which it leaves as the last word, or on an [@] or the end of the
    file, before the first [!], with [@] as the last word. *)
Lemma top_unread (src : list Z) (fuel : nat) (s : frame) (np : Z) (r : frame) :
  at_top s -> recLoop fuel s = Value (np, r) -> np <> BAD ->
  unread src (fin s) ->
  (word (mimem r) (np - 1) = 33 /\ at_bang src (fin r)) \/
  (word (mimem r) (np - 1) = 64 /\ unread src (fin r)).
Proof.
  revert s.
  induction fuel as [ | fuel IH]; intros s (Hcp & Hop & Hk) Hrun Hnp Hs;
    [discriminate Hrun | ].
  assert (Hrec : forall sn np' r',
             recLoop fuel sn = Value (np', r') -> np' <> BAD ->
             Inv (cp sn) sn -> unread src (fin sn) -> unread src (fin r')).
  { intros sn np' r' H1 H2 H3 H4. now apply (nested_unread src fuel (cp sn) sn np' r'). }
  pose proof (turn_has_shape fuel s Hcp Hop) as Hshape.
  pose proof (recBody_unread src fuel s Hrec Hcp Hs) as Hu.
  cbn [recLoop] in Hrun. unfold turn_shape in Hshape. cbv zeta in Hshape.
  destruct ((cp s <? 0) || (IMEM <=? cp s)); [discriminate Hrun | ].
  assert (Hkk : word (mimem s) (op s) = 64 \/ word (mimem s) (op s) = 0).
  { destruct Hk as [Hk | [Ho Hk]]; [now left | right]. now rewrite Ho. }
  destruct (recBody (recLoop fuel) s) as [[s' | np' r'] | | ];
    try discriminate Hrun.
  - destruct Hshape as [(H1 & H2 & H3) | (_ & H & _)];
      [ | destruct Hkk as [Hk' | Hk']; rewrite Hk' in H; discriminate H].
    apply (IH s'); try assumption.
    split; [lia | ]. split; [lia | ]. rewrite H1.
    destruct Hk as [Hk | [Ho Hk]]; [left | right].
    + rewrite H3 by lia. exact Hk.
    + split; [exact Ho | ]. rewrite H3 by lia. exact Hk.
  - injection Hrun as -> ->. cbn [turn_unread] in Hu.
    destruct (Hshape Hnp) as [(_ & [H | H] & _) | [(_ & [H | H] & _) |
                              [(_ & H & _) | (Hcc & _ & -> & Hr)]]];
      try (destruct Hkk as [Hk' | Hk']; rewrite Hk' in H; discriminate H).
    rewrite Hr. replace (cp s + 1 - 1) with (cp s) by lia.
    rewrite word_insert_eq.
    destruct Hu as [[Hc Hb] | [Hc Hu]].
    + left. rewrite Hc. split; [reflexivity | exact Hb].
    + right. split; [ | now apply Hu].
      destruct Hcc as [-> | [Hc' | ->]]; [reflexivity | contradiction | reflexivity].
Qed.

Lemma getNext_eof_is_empty (f : FILE) :
  eof_is_empty f -> eof_is_empty (getNext f).2.
Proof.
  intros Hf. unfold getNext. destruct (getNext_done f =? GOOD); [exact Hf | ].
  pose proof (skipCrap_split (bytes f)) as (crap & _ & Hs).
  destruct (skipCrap (bytes f)) as [c rest]. cbn [fst snd] in Hs.
  destruct (Z.eqb_spec c EOF) as [-> | Hne]; cbn [snd]; intros He;
    cbn [bytes at_eof] in *.
  - destruct Hs as [(_ & -> & _) | (Hr & _)]; [reflexivity | discriminate Hr].
  - destruct Hs as [(Hc & _) | (_ & Hb)]; [contradiction | ].
    rewrite (Hf He) in Hb. now destruct crap.
Qed.

Lemma unGetNext_eof_is_empty (c : Z) (f : FILE) :
  eof_is_empty f -> eof_is_empty (unGetNext c f).
Proof.
  intros Hf. unfold unGetNext. destruct (c =? EOF); [exact Hf | ].
  intros He. discriminate He.
Qed.

Lemma runLoop_eof_is_empty (n : nat) (cc rl np : Z) (f : FILE) :
  eof_is_empty f -> eof_is_empty (runLoop n cc rl np f).2.
Proof.
  revert rl np f. induction n as [ | n IH]; intros rl np f Hf; cbn [runLoop];
    [exact Hf | ].
  destruct (np =? cc); [ | exact Hf].
  pose proof (getNext_eof_is_empty f Hf) as Hf'.
  destruct (getNext f) as [np' f']. now apply IH.
Qed.

Lemma runLength_eof_is_empty (cc : Z) (f : FILE) :
  eof_is_empty f -> eof_is_empty (runLength cc f).2.
Proof.
  intros Hf. unfold runLength. destruct (repeatable cc); [ | exact Hf].
  pose proof (getNext_eof_is_empty f Hf) as Hf1.
  destruct (getNext f) as [np f1]. cbn [snd] in Hf1.
  pose proof (runLoop_eof_is_empty (S (length (bytes f1))) cc 1 np f1 Hf1) as Hq.
  destruct (runLoop _ cc 1 np f1) as [[rl np'] f2]. cbn [snd] in *.
  now apply unGetNext_eof_is_empty.
Qed.

Lemma malloc_useIn (m : Machine) : useIn (malloc m).2 = useIn m.
Proof. unfold malloc. now destruct (heap m). Qed.

Lemma createThread_useIn `{P : Platform} npar pr npc ndp ncmem ns nsp
    (m : Machine) :
  useIn (createThread npar pr npc ndp ncmem ns nsp m).2 = useIn m.
Proof.
  unfold createThread. pose proof (malloc_useIn m) as Hm.
  destruct (malloc m) as [[ | jp js jr] m1]; cbn [snd] in *; [exact Hm | ].
  unfold schedule. now destruct (_ =? SCHEDULE_PROCESS).
Qed.

Lemma createProcess_useIn `{P : Platform} copymem npmem nprocs npc ndp ns nsp
    (m : Machine) :
  match createProcess copymem npmem nprocs npc ndp ns nsp m with
  | Some (_, m') => useIn m' = useIn m
  | None => True
  end.
Proof.
  unfold createProcess. pose proof (malloc_useIn m) as Hm.
  destruct (malloc m) as [[ | jp js jr] m1]; cbn [snd] in *; [exact Hm | ].
  set (c := fresh (dom (pcbs m1))). clearbody c.
  set (m1' := set_pcbs (<[c := mkPCB [] npmem 0%nat 0]> (pcbs m1)) m1).
  assert (Hm1' : useIn m1' = useIn m) by exact Hm. clearbody m1'.
  pose proof (malloc_useIn m1') as Hm2.
  destruct (malloc m1') as [[ | jp' js' jr'] m2]; cbn [snd] in *.
  { now rewrite <- Hm1', <- Hm2. }
  set (d := fresh (dom (segs m2))). clearbody d.
  match goal with |- context [createThread _ _ _ _ _ _ _ ?x] => set (m3 := x) end.
  assert (Hm3 : useIn m3 = useIn m) by (now rewrite <- Hm1', <- Hm2).
  clearbody m3.
  pose proof (createThread_useIn c nprocs npc ndp d ns nsp m3) as Hm4.
  destruct (createThread c nprocs npc ndp d ns nsp m3) as [r m4];
    cbn [snd] in *.
  destruct r; [ | now rewrite <- Hm3, <- Hm4 ..].
  destruct (_ && _); [exact I | ]. now rewrite <- Hm3, <- Hm4.
Qed.

Lemma first_bang_unique (pre pre' post post' : list Z) :
  pre ++ 33 :: post = pre' ++ 33 :: post' -> 33 ∉ pre -> 33 ∉ pre' ->
  post = post'.
Proof.
  revert pre'. induction pre as [ | a pre IH]; intros [ | a' pre'] He H1 H2;
    cbn [app] in He.
  - now injection He.
  - injection He as <- _. exfalso. apply H2. now left.
  - injection He as -> _. exfalso. apply H1. now left.
  - injection He as _ He. apply (IH pre' He).
    + intros Hin. apply H1. now right.
    + intros Hin. apply H2. now right.
Qed.

(** [Compile] returns 1 either on the first [!], with the stream behind
    it as the input of the program, or at the end of a file without [!],
    the input as it was. *)
Lemma Compile_loop_unread `{P : Platform} (src : list Z) (n : nat)
    (im : gmap Z Z) (f : FILE) (c : Z) (tsmem : nat) (m : Machine)
    (im' : gmap Z Z) (f' : FILE) (m' : Machine) :
  unread src f -> eof_is_empty f -> at_top (enter im f c BAD None) ->
  Compile_loop n im f c tsmem m = Value (1, im', f', m') ->
  (at_bang src f' /\ useIn m' = bytes f') \/
  ((33 ∉ src) /\ useIn m' = useIn m).
Proof.
  revert im f c m.
  induction n as [ | n IH]; intros im f c m Hf He Ht; cbn [Compile_loop];
    [intros Hr; discriminate Hr | ].
  unfold feof. destruct (at_eof f) eqn:Heof.
  { intros [= _ <- <-]. right. split; [ | reflexivity].
    destruct Hf as (pre & -> & Hpre). rewrite (He Heof), app_nil_r.
    exact Hpre. }
  pose proof (createProcess_useIn tsmem (Some tsmem) None c 0 None STACKSIZE m)
    as Hc.
  destruct (createProcess tsmem (Some tsmem) None c 0 None STACKSIZE m)
    as [[failed m1] | ]; [ | intros Hr; discriminate Hr].
  set (m2 := if failed =? 0 then m1 else _).
  assert (Hm2 : useIn m2 = useIn m) by (subst m2; now destruct (failed =? 0)).
  clearbody m2. unfold recCompile.
  destruct (recLoop _ (enter im f c BAD None)) as [[np r] | | ] eqn:Hrun;
    try (intros Hr; discriminate Hr).
  destruct (Z.eqb_spec np BAD) as [-> | Hnp]; [intros Hr; discriminate Hr | ].
  pose proof (top_unread src _ _ np r Ht Hrun Hnp Hf) as Hu.
  pose proof (top_returns _ _ np r Ht Hrun Hnp) as (R1 & _).
  assert (He' : eof_is_empty (fin r)).
  { apply (recLoop_stream eof_is_empty _ _ np r getNext_eof_is_empty
             runLength_eof_is_empty Hrun). exact He. }
  destruct Ht as (T1 & _). cbn [enter cp] in R1, T1.
  destruct Hu as [(Hw & Hb) | (Hw & Hu)]; rewrite Hw.
  - cbn [Z.eqb Pos.eqb]. intros [= _ <- <-]. left. split; [exact Hb | ].
    reflexivity.
  - cbn [Z.eqb Pos.eqb]. intros Hr.
    destruct (IH (mimem r) (fin r) np m2 Hu He') as [H | (H1 & H2)].
    + unfold at_top, enter. cbn [cp op mimem]. split; [lia | ].
      split; [lia | ]. now left.
    + exact Hr.
    + now left.
    + right. split; [exact H1 | now rewrite H2].
Qed.

(** X17: The input of a program is what follows the first [!] of its
    source.  When the loader has compiled the source [src], the word
    before instruction memory being 0, the bytes that [,] will read are
    those behind the first [!] of [src]; for a source without [!] the
    input is left as it was. *)
Theorem input_follows_the_bang `{P : Platform} (src : list Z) (m m' : Machine) :
  word (Gimem m) (-1) = 0 ->
  loadFile src m = Value (1, m') ->
  (forall pre post, src = pre ++ 33 :: post -> 33 ∉ pre -> useIn m' = post) /\
  ((33 ∉ src) -> useIn m' = useIn m).
Proof.
  intros H0. unfold loadFile, Compile.
  destruct (Compile_loop _ _ _ _ _ _) as [[[[ok im] f] m1] | | ] eqn:Hc;
    try (intros Hr; discriminate Hr).
  intros [= -> <-]. cbn [Z.eqb].
  change (useIn (memsetGsmem (set_Gimem im m1))) with (useIn m1).
  assert (Hf : unread src (fopen src)).
  { exists []. split; [reflexivity | apply not_elem_of_nil]. }
  assert (He : eof_is_empty (fopen src)) by (intros H; discriminate H).
  assert (Ht : at_top (enter (Gimem m) (fopen src) 0 BAD None)).
  { unfold at_top, enter. cbn [cp op mimem]. split; [lia | ].
    split; [lia | ]. right. split; [reflexivity | exact H0]. }
  destruct (Compile_loop_unread src _ _ _ _ _ _ _ _ _ Hf He Ht Hc)
    as [((pre' & Hs & Hp) & Hu) | (Hn & Hu)].
  - split.
    + intros pre post Hsrc Hpre. rewrite Hu. rewrite Hs in Hsrc.
      apply (first_bang_unique pre' pre _ _ Hsrc Hp Hpre).
    + intros Hn. exfalso. apply Hn. rewrite Hs.
      apply elem_of_app. right. now left.
  - split; [ | intros _; exact Hu].
    intros pre post Hsrc Hpre. exfalso. apply Hn. rewrite Hsrc.
    apply elem_of_app. right. now left.
Qed.

Lemma input_follows_the_bang_witness :
  match @loadFile (LP64 true) (text "+,!ab")
          (boot SCHEDULE_PROCESS (text "zz") [] []) with
  | Value (_, m') => useIn m' = text "ab"
  | Fuel | Fault => False
  end.
Proof.
  assert (Hrun :
    match @loadFile (LP64 true) (text "+,!ab")
            (boot SCHEDULE_PROCESS (text "zz") [] []) with
    | Value (ok, _) => ok =? 1
    | Fuel | Fault => false
    end = true) by (vm_compute; reflexivity).
  destruct (@loadFile (LP64 true) (text "+,!ab")
              (boot SCHEDULE_PROCESS (text "zz") [] []))
    as [[ok m0] | | ] eqn:Hl; [ | discriminate Hrun | discriminate Hrun].
  apply Z.eqb_eq in Hrun. subst ok.
  destruct (@input_follows_the_bang (LP64 true) (text "+,!ab")
              (boot SCHEDULE_PROCESS (text "zz") [] []) m0 eq_refl Hl)
    as [H _].
  apply (H (text "+,") (text "ab")); [reflexivity | ].
  intros Hin. apply elem_of_cons in Hin as [Hin | Hin]; [discriminate Hin | ].
  apply list_elem_of_singleton in Hin. discriminate Hin.
Defined.

(** ** The data pointer *)

Lemma dispatch_right `{P : Platform} (t : TCB) (m : Machine) (cost quanta : Z) :
  let w := word (Gimem m) (pc t) in
  Z.land w IMASK = 62 ->
  dispatch t cost quanta m =
    Continue (set_dp (Z.land (dp t + Z.shiftr w SHIFT) DMASK)
                (set_pc (pc t + 1) t)) cost m.
Proof. intros w Hop. unfold dispatch. fold w. rewrite Hop. reflexivity. Qed.

Lemma dispatch_left `{P : Platform} (t : TCB) (m : Machine) (cost quanta : Z) :
  let w := word (Gimem m) (pc t) in
  Z.land w IMASK = 60 ->
  dispatch t cost quanta m =
    Continue (set_dp (Z.land (dp t - Z.shiftr w SHIFT) DMASK)
                (set_pc (pc t + 1) t)) cost m.
Proof. intros w Hop. unfold dispatch. fold w. rewrite Hop. reflexivity. Qed.

(** X18: [> n] followed by [< n] brings the data pointer back, whatever
    [n] and wherever the pointer is: going round the end of the segment
    and coming back cancel. *)
Theorem right_then_left_restores `{P : Platform} (t : TCB) (m : Machine)
    (cost quanta n : Z) :
  word (Gimem m) (pc t) = instr 62 n ->
  word (Gimem m) (pc t + 1) = instr 60 n ->
  0 <= dp t < DMEM ->
  turns 2 t cost quanta m = Continue (set_pc (pc t + 2) t) cost m.
Proof.
  intros Hr Hl Hdp. cbn [turns].
  pose proof (dispatch_right t m cost quanta) as H1. cbv zeta in H1.
  rewrite H1 by (rewrite Hr; apply instr_opcode; lia). clear H1.
  rewrite Hr, instr_imm by lia.
  pose proof (dispatch_left (set_dp (Z.land (dp t + n) DMASK)
                               (set_pc (pc t + 1) t)) m cost (quanta - cost))
    as H2. cbv zeta in H2. cbn [set_pc set_dp pc dp] in H2.
  rewrite H2 by (rewrite Hl; apply instr_opcode; lia). clear H2.
  rewrite Hl, instr_imm by lia.
  assert (Hback : Z.land (Z.land (dp t + n) DMASK - n) DMASK = dp t).
  { rewrite !land_DMASK. rewrite Zminus_mod_idemp_l.
    replace (dp t + n - n) with (dp t) by lia. now apply Z.mod_small. }
  rewrite Hback. f_equal. destruct t as [a1 a2 a3 a4 a5 a6 a7].
  unfold set_dp, set_pc. cbn [par procs pc dp cmem stack sp]. f_equal. lia.
Qed.

Lemma right_then_left_restores_witness :
  let m := bench SCHEDULE_PROCESS [instr 62 70000; instr 60 70000] [] in
  @turns (LP64 true) 2 bench_thread 1 10 m = Continue (set_pc 2 bench_thread) 1 m.
Proof.
  intros m.
  apply (@right_then_left_restores (LP64 true) bench_thread m 1 10 70000).
  - reflexivity.
  - reflexivity.
  - vm_compute. split; [discriminate | reflexivity].
Defined.

(** ** Procedure names *)

(** X19: The sixty-two procedure names have sixty-two slots: two names
    with the same procedure number are the same character, and the
    number of a name is a slot of the table. *)
Theorem procedure_names_do_not_collide (a b : Z) :
  is_name a -> is_name b -> procNum a = procNum b ->
  a = b /\ 0 <= procNum a < NUMPROC.
Proof.
  unfold is_name, procNum, NUMPROC. intros Ha Hb.
  repeat match goal with
         | |- context [(?x <=? ?y)] => destruct (Z.leb_spec x y)
         end; cbn [andb]; unfold NOPROC; lia.
Qed.

Lemma procedure_names_do_not_collide_witness :
  97 = 97 /\ 0 <= procNum 97 < NUMPROC.
Proof.
  apply (procedure_names_do_not_collide 97 97);
    [right; right; lia | right; right; lia | reflexivity].
Defined.

(** ** The end of a run *)

Lemma not_deadLocked_split (m : Machine) :
  deadLocked m = false ->
  exists l1 a l2,
    pListHead m = l1 ++ a :: l2 /\
    Forall (fun c => ready_of m c = []) l1 /\ ready_of m a <> [].
Proof.
  unfold deadLocked. generalize (pListHead m) as l.
  induction l as [ | c l IH]; cbn [forallb]; intros H; [discriminate H | ].
  destruct (ready_of m c) as [ | b rest] eqn:Hc.
  - destruct (IH H) as (l1 & a & l2 & -> & H1 & H2).
    exists (c :: l1), a, l2. split; [reflexivity | ]. split; [ | exact H2].
    constructor; assumption.
  - exists [], c, l. split; [reflexivity | ]. split; [constructor | ].
    rewrite Hc. discriminate.
Qed.

(** [getNextThread] returns NULL only when no thread is ready. *)
Lemma getNextThread_none (m m' : Machine) :
  getNextThread m = (None, m') ->
  (scheduler m' = SCHEDULE_PROCESS -> deadLocked m' = true) /\
  (scheduler m' <> SCHEDULE_PROCESS -> tListHead m' = []).
Proof.
  unfold getNextThread.
  destruct (Z.eqb_spec (scheduler m) SCHEDULE_PROCESS) as [Hs | Hs].
  - set (m1 := match lp m with Some _ => _ | None => m end).
    assert (Hs1 : scheduler m1 = SCHEDULE_PROCESS).
    { subst m1. destruct (lp m); [ | exact Hs].
      destruct (match pcbs m !! n with Some _ => _ | None => _ end);
        exact Hs. }
    clearbody m1.
    destruct (deadLocked m1) eqn:Hd.
    { intros [= <-]. split; [auto | intros H; contradiction]. }
    destruct (not_deadLocked_split m1 Hd) as (l1 & a & l2 & Hl & H1 & H2).
    rewrite (firstReady_spec _ m1 l1 l2 a Hl H1 H2)
      by (rewrite Hl, length_app; cbn [length]; lia).
    change (ready_of (set_pList (l2 ++ l1) m1) a) with (ready_of m1 a).
    destruct (ready_of m1 a); [contradiction | ].
    intros Hr. discriminate Hr.
  - destruct (tListHead m) eqn:Ht; intros Hr; [ | discriminate Hr].
    injection Hr as <-. split; [intros H; contradiction | auto].
Qed.

Lemma execute_loop_stops `{P : Platform} (fuel : nat) (quanta : Z)
    (curt : option TCB) (m m' : Machine) :
  execute_loop fuel quanta curt m = Some m' ->
  (curt = None ->
   (scheduler m = SCHEDULE_PROCESS -> deadLocked m = true) /\
   (scheduler m <> SCHEDULE_PROCESS -> tListHead m = [])) ->
  (scheduler m' = SCHEDULE_PROCESS -> deadLocked m' = true) /\
  (scheduler m' <> SCHEDULE_PROCESS -> tListHead m' = []).
Proof.
  revert curt m. induction fuel as [ | fuel IH]; intros curt m Hrun Hq.
  - destruct curt as [t | ]; cbn [execute_loop] in Hrun; [discriminate Hrun | ].
    injection Hrun as <-. now apply Hq.
  - destruct curt as [t | ]; cbn [execute_loop] in Hrun.
    2: { injection Hrun as <-. now apply Hq. }
    destruct (turnQuanta quanta m) as [c m1].
    destruct (doQuanta fuel t c m1) as [[[code t'] m2] | ];
      [ | discriminate Hrun].
    destruct (getNextThread (afterQuanta code t' m2)) as [next m3] eqn:Hn.
    apply (IH next m3 Hrun). intros ->.
    now apply (getNextThread_none _ _ Hn).
Qed.

(** X20: [execute] returns only when no thread is ready: under the
    process scheduler no process of the list has a thread in its ready
    list, under the thread scheduler the thread list is empty.  Threads
    that sleep on a semaphore do not keep it from returning. *)
Theorem execute_stops_only_when_nothing_is_ready `{P : Platform} (fuel : nat)
    (quanta : Z) (m m' : Machine) :
  execute fuel quanta m = Some m' ->
  (scheduler m' = SCHEDULE_PROCESS ->
   Forall (fun c => ready_of m' c = []) (pListHead m')) /\
  (scheduler m' <> SCHEDULE_PROCESS -> tListHead m' = []).
Proof.
  unfold execute. destruct (getNextThread m) as [curt m1] eqn:Hn. intros Hrun.
  destruct (execute_loop_stops fuel quanta curt m1 m' Hrun) as [H1 H2].
  { intros ->. now apply (getNextThread_none _ _ Hn). }
  split; [ | exact H2]. intros Hs. specialize (H1 Hs).
  unfold deadLocked in H1. rewrite forallb_forall in H1.
  apply Forall_forall. intros c Hc. apply list_elem_of_In in Hc.
  specialize (H1 c Hc). now destruct (ready_of m' c).
Qed.

Lemma execute_stops_only_when_nothing_is_ready_witness :
  match @loadFile (LP64 true) (text "_") (boot SCHEDULE_THREAD [] [] []) with
  | Value (_, m0) =>
      match @execute (LP64 true) 100 10 m0 with
      | Some m' => tListHead m' = []
      | None => False
      end
  | Fuel | Fault => False
  end.
Proof.
  assert (Hrun :
    match @loadFile (LP64 true) (text "_") (boot SCHEDULE_THREAD [] [] []) with
    | Value (_, m0) =>
        match @execute (LP64 true) 100 10 m0 with
        | Some m' => negb (scheduler m' =? SCHEDULE_PROCESS)
        | None => false
        end
    | Fuel | Fault => false
    end = true) by (vm_compute; reflexivity).
  destruct (@loadFile (LP64 true) (text "_") (boot SCHEDULE_THREAD [] [] []))
    as [[ok m0] | | ]; [ | discriminate Hrun | discriminate Hrun].
  destruct (@execute (LP64 true) 100 10 m0) as [m' | ] eqn:He;
    [ | discriminate Hrun].
  destruct (@execute_stops_only_when_nothing_is_ready (LP64 true) 100 10 m0 m' He)
    as [_ H].
  apply H. intros Hs. rewrite Hs in Hrun. discriminate Hrun.
Defined.

(** ** Programs *)

(** X21: A program that [Compile] has [recCompile] compile, from the
    start of instruction memory or behind the [@] of the program before,
    takes at least one word; its last word is [@], or the [!] that
    [Compile] then turns into [@]; and the words before it are left as
    they were. *)
Theorem program_ends_with_at (im : gmap Z Z) (f : FILE) (c np : Z)
    (r : frame) :
  0 <= c -> (word im (c - 1) = 64 \/ (c = 0 /\ word im (-1) = 0)) ->
  recCompile im f c BAD None = Value (np, r) -> np <> BAD ->
  c < np /\
  (word (mimem r) (np - 1) = 64 \/ word (mimem r) (np - 1) = 33) /\
  forall i, i < c -> word (mimem r) i = word im i.
Proof.
  intros Hc Hk Hrun Hnp. unfold recCompile in Hrun.
  apply (top_returns _ _ np r) in Hrun; [exact Hrun | | exact Hnp].
  unfold at_top, enter. cbn [cp op mimem]. split; [exact Hc | ].
  split; [lia | ]. destruct Hk as [Hk | [-> Hk]]; [now left | right].
  split; [reflexivity | exact Hk].
Qed.

Lemma program_ends_with_at_witness :
  match recCompile ∅ (fopen (text "+[-]@.")) 0 BAD None with
  | Value (np, r) =>
      0 < np /\ (word (mimem r) (np - 1) = 64 \/ word (mimem r) (np - 1) = 33)
  | Fuel | Fault => False
  end.
Proof.
  assert (Hrun :
    match recCompile ∅ (fopen (text "+[-]@.")) 0 BAD None with
    | Value (np, _) => negb (np =? BAD)
    | Fuel | Fault => false
    end = true) by (vm_compute; reflexivity).
  destruct (recCompile ∅ (fopen (text "+[-]@.")) 0 BAD None)
    as [[np r] | | ] eqn:Hc; [ | discriminate Hrun | discriminate Hrun].
  apply negb_true_iff, Z.eqb_neq in Hrun.
  destruct (program_ends_with_at ∅ (fopen (text "+[-]@.")) 0 np r) 
    as (H1 & H2 & _);
    [lia | right; split; reflexivity | exact Hc | exact Hrun | ].
  split; [exact H1 | exact H2].
Defined.

(** ** A source without instructions *)

Lemma skipCrap_nothing (src : list Z) :
  Forall (fun c => recognized c = false) src -> skipCrap src = (EOF, []).
Proof.
  induction 1 as [ | c src Hc _ IH]; [reflexivity | ].
  cbn [skipCrap]. now rewrite Hc.
Qed.

Lemma recCompile_nothing (im : gmap Z Z) (src : list Z) :
  Forall (fun c => recognized c = false) src ->
  recCompile im (fopen src) 0 BAD None =
    Value (1, mkFrame (<[0 := 64]> im) (mkFILE [] true GOOD) (-1) 1 BAD None 0).
Proof.
  intros Hs. unfold recCompile, fopen. cbn [bytes].
  rewrite recLoop_S by (cbn [enter cp]; unfold IMEM; lia).
  unfold recBody, enter. cbn [fin]. unfold getNext. cbn [getNext_done bytes].
  change (BAD =? GOOD) with false. cbv iota.
  rewrite (skipCrap_nothing src Hs). cbv iota beta. change (EOF =? EOF) with true.
  cbv iota. rewrite runLength_plain by reflexivity.
  cbn [cp op mimem ll pi bf]. unfold EOF at 1. cbv iota beta zeta.
  change (-1 =? -1) with true. cbn [orb]. change (EOF =? EOF) with true.
  cbv iota. do 2 f_equal. f_equal. replace (0 + 1 - 1) with 0 by lia.
  apply insert_insert_eq.
Qed.

(** X22: A source with no instruction in it, the empty file too, is a
    program all the same: [Compile] asks for one process and, when that
    request has a result, compiles the single word [@] for it at the
    start of instruction memory, and returns 1. *)
Theorem source_without_instructions `{P : Platform} (src : list Z)
    (m : Machine) :
  Forall (fun c => recognized c = false) src ->
  loadFile src m =
    match createProcess Gsmem (Some Gsmem) None 0 0 None STACKSIZE m with
    | Some (failed, m1) =>
        let m2 :=
          if failed =? 0 then m1
          else set_err (err m1 ++ [NoMemForProcess]) m1 in
        Value (1, memsetGsmem (set_Gimem (<[0 := 64]> (Gimem m)) m2))
    | None => Fault
    end.
Proof.
  intros Hs. unfold loadFile, Compile. cbn [Compile_loop].
  change (feof (fopen src)) with false. cbv iota.
  destruct (createProcess Gsmem (Some Gsmem) None 0 0 None STACKSIZE m)
    as [[failed m1] | ]; [ | reflexivity].
  rewrite (recCompile_nothing (Gimem m) src Hs).
  change (1 =? BAD) with false. cbv iota. cbn [mimem fin].
  replace (1 - 1) with 0 by lia. unfold word. rewrite lookup_insert_eq.
  cbn [default from_option id]. change (64 =? 33) with false. cbv iota.
  change (feof (mkFILE [] true GOOD)) with true. cbv iota.
  reflexivity.
Qed.

Lemma source_without_instructions_witness :
  match @loadFile (LP64 true) (text " ?? // ") (boot SCHEDULE_PROCESS [] [] []) with
  | Value (ok, m') => ok = 1 /\ word (Gimem m') 0 = 64 /\ length (pListHead m') = 1%nat
  | Fuel | Fault => False
  end.
Proof.
  rewrite (@source_without_instructions (LP64 true) (text " ?? // ")).
  - vm_compute. repeat split.
  - repeat constructor.
Defined.
